(** * Canonizers of zennit: a shallow embedding of [src/zennit/canonizers.py]

    The development follows the source file class by class.  Tensor values
    are real numbers (the rounding of floating point arithmetic is not
    modelled); a tensor is a shape together with a function from indices to
    values, and the tensor operations the source uses (broadcasting
    arithmetic, indexing with [None] and slices, [expand], [cat], [sum])
    are written out with the shape errors they raise.  The object graph is
    a store from module names to module records; exceptions leave the
    store as it was when they were raised. *)

From Stdlib Require Import Reals Lra Lia List ZArith String Bool.
From stdpp Require Import base option list gmap strings.

Open Scope string_scope.
Open Scope list_scope.
Open Scope nat_scope.

(** ** Exceptions and results *)

Inductive exn : Type :=
| KeyError (key : string)
| AttributeError (attr : string)
| NameError (name : string)
| IndexError (msg : string)
| ValueError (msg : string)
| TypeError (msg : string)
| ZeroDivisionError
| RuntimeError (msg : string)
| DanglingReference (node : string).

Inductive result (A : Type) : Type :=
| Ok (a : A)
| Raise (e : exn).
Arguments Ok {A} a.
Arguments Raise {A} e.

Definition bindR {A B} (r : result A) (k : A -> result B) : result B :=
  match r with
  | Ok a => k a
  | Raise e => Raise e
  end.

Notation "'let?' x ':=' c1 'in' c2" := (bindR c1 (fun x => c2))
  (at level 10, x name, c1 at level 100, c2 at level 200).

Definition of_option {A} (o : option A) (e : exn) : result A :=
  match o with
  | Some a => Ok a
  | None => Raise e
  end.

(** ** Tensors *)

Record tensor (A : Type) : Type := Tensor {
  shape : list nat;
  data : list nat -> A
}.
Arguments Tensor {A} shape data.
Arguments shape {A} t.
Arguments data {A} t i.

Abbreviation Rtensor := (tensor R).

Definition ndim {A} (t : tensor A) : nat := length (shape t).

(** An index is inside a shape when it has one coordinate per axis, each
    below the extent of its axis. *)
Definition in_range (s : list nat) (i : list nat) : Prop := Forall2 lt i s.

(** Two tensors hold the same values: same shape, same entry at every index
    inside it. *)
Definition teq {A} (t1 t2 : tensor A) : Prop :=
  shape t1 = shape t2 /\ forall i, in_range (shape t1) i -> data t1 i = data t2 i.

(** Sum of [f 0 .. f (n-1)]. *)
Fixpoint Rsum (n : nat) (f : nat -> R) : R :=
  match n with
  | O => 0%R
  | S n' => (Rsum n' f + f n')%R
  end.

(** Sum of [f] over every index of the box with extents [ks]. *)
Fixpoint Rsum_box (ks : list nat) (f : list nat -> R) : R :=
  match ks with
  | [] => f []
  | k :: ks' => Rsum k (fun i => Rsum_box ks' (fun r => f (i :: r)))
  end.

(** *** Broadcasting *)

Fixpoint broadcast_dims (s1 s2 : list nat) : option (list nat) :=
  match s1, s2 with
  | [], [] => Some []
  | a :: s1', b :: s2' =>
      match broadcast_dims s1' s2' with
      | Some r =>
          if a =? b then Some (a :: r)
          else if a =? 1 then Some (b :: r)
          else if b =? 1 then Some (a :: r)
          else None
      | None => None
      end
  | _, _ => None
  end.

Definition left_pad (n : nat) (s : list nat) : list nat :=
  replicate (n - length s) 1 ++ s.

(** Shapes are aligned on their last axis; a missing or unit axis is
    stretched, any other disagreement is an error. *)
Definition broadcast_shapes (s1 s2 : list nat) : option (list nat) :=
  let n := Nat.max (length s1) (length s2) in
  broadcast_dims (left_pad n s1) (left_pad n s2).

Fixpoint bindex_dims (s i : list nat) : list nat :=
  match s, i with
  | d :: s', j :: i' => (if d =? 1 then 0 else j) :: bindex_dims s' i'
  | _, _ => []
  end.

(** The index an operand of shape [s] is read at, for the index [i] of the
    broadcast result. *)
Definition bindex (s i : list nat) : list nat :=
  bindex_dims s (drop (length i - length s) i).

Definition tmap {A B} (f : A -> B) (t : tensor A) : tensor B :=
  Tensor (shape t) (fun i => f (data t i)).

Definition tmap2 {A B C} (f : A -> B -> C) (t1 : tensor A) (t2 : tensor B)
  : result (tensor C) :=
  match broadcast_shapes (shape t1) (shape t2) with
  | Some s =>
      Ok (Tensor s (fun i => f (data t1 (bindex (shape t1) i))
                                (data t2 (bindex (shape t2) i))))
  | None => Raise (RuntimeError "The size of tensor a must match the size of tensor b")
  end.

Definition tadd : Rtensor -> Rtensor -> result Rtensor := tmap2 Rplus.
Definition tsub : Rtensor -> Rtensor -> result Rtensor := tmap2 Rminus.
Definition tmul : Rtensor -> Rtensor -> result Rtensor := tmap2 Rmult.
Definition tdiv : Rtensor -> Rtensor -> result Rtensor := tmap2 Rdiv.

(** [t + c], [t ** .5], [c * t] for a Python float [c]. *)
Definition tadd_scalar (t : Rtensor) (c : R) : Rtensor := tmap (fun v => (v + c)%R) t.
Definition tsqrt (t : Rtensor) : Rtensor := tmap sqrt t.
Definition tscale (c : R) (t : Rtensor) : Rtensor := tmap (fun v => (c * v)%R) t.

(** [y > 0]. *)
Definition tgt0 (t : Rtensor) : tensor bool :=
  tmap (fun v => if Rlt_dec 0 v then true else false) t.

(** [torch.where(cond, x, other)]: the three operands are broadcast
    together. *)
Definition where_ (cond : tensor bool) (x other : Rtensor) : result Rtensor :=
  let? cx := tmap2 (fun c v => (c, v)) cond x in
  tmap2 (fun (cv : bool * R) o => if fst cv then snd cv else o) cx other.

Definition zeros (s : list nat) : Rtensor := Tensor s (fun _ => 0%R).
Definition ones (s : list nat) : Rtensor := Tensor s (fun _ => 1%R).
Definition zeros_like (t : Rtensor) : Rtensor := zeros (shape t).
Definition ones_like (t : Rtensor) : Rtensor := ones (shape t).

(** *** Indexing with [None] and [slice(None)] *)

Inductive index_item : Type :=
| INone
| ISlice.

Fixpoint getitem_shape (items : list index_item) (s : list nat) : option (list nat) :=
  match items with
  | [] => Some s
  | INone :: items' => cons 1 <$> getitem_shape items' s
  | ISlice :: items' =>
      match s with
      | d :: s' => cons d <$> getitem_shape items' s'
      | [] => None
      end
  end.

Fixpoint getitem_index (items : list index_item) (i : list nat) : list nat :=
  match items, i with
  | [], _ => i
  | INone :: items', _ :: i' => getitem_index items' i'
  | ISlice :: items', j :: i' => j :: getitem_index items' i'
  | _ :: _, [] => []
  end.

Definition getitem {A} (t : tensor A) (items : list index_item) : result (tensor A) :=
  match getitem_shape items (shape t) with
  | Some s => Ok (Tensor s (fun i => data t (getitem_index items i)))
  | None => Raise (IndexError "too many indices for tensor")
  end.

(** *** Slices, selection, concatenation, expansion and sums along an axis *)

Definition set_nth (d : nat) (v : nat) (i : list nat) : list nat :=
  take d i ++ v :: drop (S d) i.

Definition insert_nth (d : nat) (v : nat) (i : list nat) : list nat :=
  take d i ++ v :: drop d i.

(** [t[..., start:stop, ...]] on axis [d]; [stop = None] is an open end.
    Bounds are clamped to the extent, as Python slices are. *)
Definition slice_dim {A} (t : tensor A) (d : nat) (start : nat) (stop : option nat)
  : result (tensor A) :=
  match shape t !! d with
  | Some n =>
      let a := Nat.min start n in
      let b := Nat.min (default n stop) n in
      Ok (Tensor (<[d := b - a]> (shape t))
            (fun i => data t (set_nth d (a + nth d i 0) i)))
  | None => Raise (IndexError "too many indices for tensor")
  end.

(** [t[..., indices, ...]] with a list of positions on axis [d]. *)
Definition index_select {A} (t : tensor A) (d : nat) (indices : list nat)
  : result (tensor A) :=
  match shape t !! d with
  | Some n =>
      if forallb (fun j => j <? n) indices
      then Ok (Tensor (<[d := length indices]> (shape t))
                 (fun i => data t (set_nth d (nth (nth d i 0) indices 0) i)))
      else Raise (IndexError "index out of range")
  | None => Raise (IndexError "too many indices for tensor")
  end.

Definition same_except (d : nat) (s1 s2 : list nat) : bool :=
  bool_decide (length s1 = length s2 /\ <[d := 0]> s1 = <[d := 0]> s2).

Definition cat2 {A} (t1 t2 : tensor A) (d : nat) : result (tensor A) :=
  match shape t1 !! d, shape t2 !! d with
  | Some n1, Some n2 =>
      if same_except d (shape t1) (shape t2)
      then Ok (Tensor (<[d := n1 + n2]> (shape t1))
                 (fun i => let j := nth d i 0 in
                           if j <? n1 then data t1 i
                           else data t2 (set_nth d (j - n1) i)))
      else Raise (RuntimeError "Sizes of tensors must match except in the cat dimension")
  | _, _ => Raise (IndexError "Dimension out of range")
  end.

(** [torch.cat((t1, t2, t3), dim=d)]. *)
Definition cat3 {A} (t1 t2 t3 : tensor A) (d : nat) : result (tensor A) :=
  let? t12 := cat2 t1 t2 d in
  cat2 t12 t3 d.

(** One axis of [expand]: the requested size [-1] keeps the extent, a size
    below [-1] is refused, any other size must be the extent or stretch a
    unit axis. *)
Definition expand_dim (d : nat) (size : Z) : option nat :=
  if (size =? -1)%Z then Some d
  else if (size <? 0)%Z then None
  else if Z.to_nat size =? d then Some d
  else if d =? 1 then Some (Z.to_nat size)
  else None.

Fixpoint expand_dims (s : list nat) (sizes : list Z) : option (list nat) :=
  match s, sizes with
  | [], [] => Some []
  | d :: s', z :: sizes' =>
      match expand_dim d z, expand_dims s' sizes' with
      | Some d', Some r => Some (d' :: r)
      | _, _ => None
      end
  | _, _ => None
  end.

(** [t.expand(sizes...)] for as many sizes as [t] has axes. *)
Definition expand {A} (t : tensor A) (sizes : list Z) : result (tensor A) :=
  match expand_dims (shape t) sizes with
  | Some s => Ok (Tensor s (fun i => data t (bindex_dims (shape t) i)))
  | None => Raise (RuntimeError "The expanded size of the tensor must match the existing size")
  end.

(** [t.sum(dim=d)]. *)
Definition sum_dim (t : Rtensor) (d : nat) : result Rtensor :=
  match shape t !! d with
  | Some n =>
      Ok (Tensor (take d (shape t) ++ drop (S d) (shape t))
            (fun i => Rsum n (fun j => data t (insert_nth d j i))))
  | None => Raise (IndexError "Dimension out of range")
  end.

(** [t.sum(dim=[d1, ..., dk])] for increasing axes: the last is summed
    first, so that the remaining axes keep their positions. *)
Fixpoint sum_dims (t : Rtensor) (ds : list nat) : result Rtensor :=
  match ds with
  | [] => Ok t
  | d :: ds' => let? t' := sum_dims t ds' in sum_dim t' d
  end.

(** ** Modules of the network *)

(** The classes of [torch.nn] that the canonizers tell apart. *)
Inductive torch_class : Type :=
| nn_Linear
| nn_Conv1d | nn_Conv2d | nn_Conv3d
| nn_ConvTranspose1d | nn_ConvTranspose2d | nn_ConvTranspose3d
| nn_BatchNorm1d | nn_BatchNorm2d | nn_BatchNorm3d
| nn_ReLU
| nn_AdaptiveAvgPool2d
| nn_Other.

#[global] Instance torch_class_eq_dec : EqDecision torch_class.
Proof. solve_decision. Defined.

(** Modelled from the spec: [zennit/types.py] is not part of the sources;
    the glossary gives Linear-kind as fully-connected or convolutional,
    transposed convolution included, and Normalization as batch norm. *)
Definition ConvolutionTranspose (c : torch_class) : bool :=
  match c with
  | nn_ConvTranspose1d | nn_ConvTranspose2d | nn_ConvTranspose3d => true
  | _ => false
  end.

Definition Linear (c : torch_class) : bool :=
  match c with
  | nn_Linear | nn_Conv1d | nn_Conv2d | nn_Conv3d => true
  | _ => ConvolutionTranspose c
  end.

Definition BatchNorm (c : torch_class) : bool :=
  match c with
  | nn_BatchNorm1d | nn_BatchNorm2d | nn_BatchNorm3d => true
  | _ => false
  end.

(** The functions this file installs as hooks. *)
Inductive hook : Type :=
| convhook_fn
| prehook_fn
| fwdhook_fn.

#[global] Instance hook_eq_dec : EqDecision hook.
Proof. solve_decision. Defined.

(** A module object: its class and the attributes the canonizers read or
    write.  [weight], [bias], [running_mean] and [running_var] hold the
    [.data] of the parameter or buffer and are [None] when the attribute
    is [None]; [canonization_params] is [None] when the attribute does not
    exist.  The hook dictionaries are kept in insertion order, keyed by
    the id of their handle. *)
Record nn_module : Type := NNModule {
  cls : torch_class;
  weight : option Rtensor;
  bias : option Rtensor;
  running_mean : option Rtensor;
  running_var : option Rtensor;
  eps : option R;
  padding : list nat;
  stride : list nat;
  canonization_params : option (gmap string Rtensor);
  forward_pre_hooks : list (nat * hook);
  forward_hooks : list (nat * hook)
}.

Definition set_weight (w : option Rtensor) (m : nn_module) : nn_module :=
  NNModule (cls m) w (bias m) (running_mean m) (running_var m) (eps m)
    (padding m) (stride m) (canonization_params m) (forward_pre_hooks m) (forward_hooks m).
Definition set_bias (b : option Rtensor) (m : nn_module) : nn_module :=
  NNModule (cls m) (weight m) b (running_mean m) (running_var m) (eps m)
    (padding m) (stride m) (canonization_params m) (forward_pre_hooks m) (forward_hooks m).
Definition set_running_mean (t : option Rtensor) (m : nn_module) : nn_module :=
  NNModule (cls m) (weight m) (bias m) t (running_var m) (eps m)
    (padding m) (stride m) (canonization_params m) (forward_pre_hooks m) (forward_hooks m).
Definition set_running_var (t : option Rtensor) (m : nn_module) : nn_module :=
  NNModule (cls m) (weight m) (bias m) (running_mean m) t (eps m)
    (padding m) (stride m) (canonization_params m) (forward_pre_hooks m) (forward_hooks m).
Definition set_eps (e : option R) (m : nn_module) : nn_module :=
  NNModule (cls m) (weight m) (bias m) (running_mean m) (running_var m) e
    (padding m) (stride m) (canonization_params m) (forward_pre_hooks m) (forward_hooks m).
Definition set_canonization_params (p : option (gmap string Rtensor)) (m : nn_module)
  : nn_module :=
  NNModule (cls m) (weight m) (bias m) (running_mean m) (running_var m) (eps m)
    (padding m) (stride m) p (forward_pre_hooks m) (forward_hooks m).
Definition set_forward_pre_hooks (h : list (nat * hook)) (m : nn_module) : nn_module :=
  NNModule (cls m) (weight m) (bias m) (running_mean m) (running_var m) (eps m)
    (padding m) (stride m) (canonization_params m) h (forward_hooks m).
Definition set_forward_hooks (h : list (nat * hook)) (m : nn_module) : nn_module :=
  NNModule (cls m) (weight m) (bias m) (running_mean m) (running_var m) (eps m)
    (padding m) (stride m) (canonization_params m) (forward_pre_hooks m) h.

(** [module.out_channels]: an attribute of the convolution classes only,
    the extent of the output-channel axis of the weight. *)
Definition out_channels (m : nn_module) : result nat :=
  match cls m, weight m with
  | (nn_Conv1d | nn_Conv2d | nn_Conv3d), Some w =>
      of_option (shape w !! 0) (AttributeError "out_channels")
  | (nn_ConvTranspose1d | nn_ConvTranspose2d | nn_ConvTranspose3d), Some w =>
      of_option (shape w !! 1) (AttributeError "out_channels")
  | _, _ => Raise (AttributeError "out_channels")
  end.

(** ** The store and the monad of the methods *)

(** The named modules of the root module, and the counter from which
    [RemovableHandle] draws its ids. *)
Record store : Type := Store {
  modules : gmap string nn_module;
  next_id : nat
}.

(** A method runs on the store and returns a value or raises; the store
    it leaves is the second component in both cases. *)
Definition M (A : Type) : Type := store -> result A * store.

Definition ret {A} (a : A) : M A := fun s => (Ok a, s).
Definition raise {A} (e : exn) : M A := fun s => (Raise e, s).
Definition bindM {A B} (c : M A) (k : A -> M B) : M B :=
  fun s =>
    match c s with
    | (Ok a, s') => k a s'
    | (Raise e, s') => (Raise e, s')
    end.
Definition lift {A} (r : result A) : M A := fun s => (r, s).

Notation "'let!' x ':=' c1 'in' c2" := (bindM c1 (fun x => c2))
  (at level 10, x name, c1 at level 100, c2 at level 200).
Notation "c1 ';;' c2" := (bindM c1 (fun _ => c2))
  (at level 100, c2 at level 200, right associativity).

(** The module object a name refers to. *)
Definition get_module (name : string) : M nn_module :=
  fun s => (of_option (modules s !! name) (DanglingReference name), s).

(** In-place update of the module object [name]. *)
Definition update_module (name : string) (f : nn_module -> nn_module) : M unit :=
  fun s =>
    match modules s !! name with
    | Some m => (Ok tt, Store (<[name := f m]> (modules s)) (next_id s))
    | None => (Raise (DanglingReference name), s)
    end.

(** [getattr(module, key).data] for a parameter or buffer. *)
Definition param (key : string) (m : nn_module) : option Rtensor :=
  if bool_decide (key = "weight") then weight m
  else if bool_decide (key = "bias") then bias m
  else if bool_decide (key = "running_mean") then running_mean m
  else if bool_decide (key = "running_var") then running_var m
  else None.

Definition set_param (key : string) (t : option Rtensor) (m : nn_module) : nn_module :=
  if bool_decide (key = "weight") then set_weight t m
  else if bool_decide (key = "bias") then set_bias t m
  else if bool_decide (key = "running_mean") then set_running_mean t m
  else if bool_decide (key = "running_var") then set_running_var t m
  else m.

Definition get_data (name key : string) : M Rtensor :=
  let! m := get_module name in
  lift (of_option (param key m) (AttributeError "data")).

(** [getattr(module, key)] used as an operand of tensor arithmetic. *)
Definition get_tensor (name key : string) : M Rtensor :=
  let! m := get_module name in
  lift (of_option (param key m) (TypeError "unsupported operand type: NoneType")).

(** [getattr(module, key).data = t]: the parameter must exist. *)
Definition set_data (name key : string) (t : Rtensor) : M unit :=
  let! _ := get_data name key in
  update_module name (set_param key (Some t)).

Definition get_eps (name : string) : M R :=
  let! m := get_module name in
  lift (of_option (eps m) (AttributeError "eps")).

(** ** Hook handles *)

Inductive hook_dict : Type :=
| ForwardPreHooks
| ForwardHooks.

(** A [RemovableHandle]: the dictionary it was issued for and its id. *)
Record handle : Type := Handle {
  h_module : string;
  h_dict : hook_dict;
  h_id : nat
}.

Definition fresh_id : M nat :=
  fun s => (Ok (next_id s), Store (modules s) (S (next_id s))).

Definition register_forward_hook (name : string) (f : hook) : M handle :=
  let! _ := get_module name in
  let! id := fresh_id in
  update_module name (fun m => set_forward_hooks (forward_hooks m ++ [(id, f)]) m) ;;
  ret (Handle name ForwardHooks id).

Definition register_forward_pre_hook (name : string) (f : hook) : M handle :=
  let! _ := get_module name in
  let! id := fresh_id in
  update_module name (fun m => set_forward_pre_hooks (forward_pre_hooks m ++ [(id, f)]) m) ;;
  ret (Handle name ForwardPreHooks id).

Definition drop_id (id : nat) (hooks : list (nat * hook)) : list (nat * hook) :=
  filter (fun e => fst e <> id) hooks.

(** [handle.remove()]: deletes the entry of the handle's id if it is
    still there. *)
Definition handle_remove (h : handle) : M unit :=
  update_module (h_module h)
    (fun m =>
       match h_dict h with
       | ForwardPreHooks => set_forward_pre_hooks (drop_id (h_id h) (forward_pre_hooks m)) m
       | ForwardHooks => set_forward_hooks (drop_id (h_id h) (forward_hooks m)) m
       end).

(** A loop [for x in l: body(x)]. *)
Fixpoint for_each {A} (l : list A) (body : A -> M unit) : M unit :=
  match l with
  | [] => ret tt
  | x :: l' => body x ;; for_each l' body
  end.

(** ** Forward evaluation of the modules (what [torch.nn] computes)

    The inputs of convolutions and batch norms are batches: batch axis
    first, channels second.  A fully-connected module takes its features
    on the last axis, whatever the rank.  Convolutions have one group, no
    dilation and pad with zeros; batch norm is evaluated with its running
    statistics, the affine map of the data model:
    [(x - mean) * weight / sqrt(var + eps) + bias]. *)

Definition bias_at (b : option Rtensor) (o : nat) : R :=
  match b with
  | Some t => data t [o]
  | None => 0%R
  end.

Definition bias_fits (b : option Rtensor) (cout : nat) : bool :=
  match b with
  | Some t => bool_decide (shape t = [cout])
  | None => true
  end.

(** The input coordinate under kernel offset [k] for the output position
    [pos], if it is not in the padding. *)
Definition conv_coord (s p h pos k : nat) : option nat :=
  let a := pos * s + k in
  if (p <=? a) && (a - p <? h) then Some (a - p) else None.

Fixpoint conv_coords (ss ps hs pos ks : list nat) : option (list nat) :=
  match ss, ps, hs, pos, ks with
  | [], [], [], [], [] => Some []
  | s :: ss', p :: ps', h :: hs', q :: pos', k :: ks' =>
      match conv_coord s p h q k, conv_coords ss' ps' hs' pos' ks' with
      | Some c, Some r => Some (c :: r)
      | _, _ => None
      end
  | _, _, _, _, _ => None
  end.

Definition conv_extent (s p h k : nat) : option nat :=
  if (1 <=? s) && (k <=? h + 2 * p) then Some ((h + 2 * p - k) / s + 1) else None.

Fixpoint conv_extents (ss ps hs ks : list nat) : option (list nat) :=
  match ss, ps, hs, ks with
  | [], [], [], [] => Some []
  | s :: ss', p :: ps', h :: hs', k :: ks' =>
      match conv_extent s p h k, conv_extents ss' ps' hs' ks' with
      | Some e, Some r => Some (e :: r)
      | _, _ => None
      end
  | _, _, _, _ => None
  end.

(** [F.conv1d], [F.conv2d], [F.conv3d]: weight [(out, in, k...)]. *)
Definition conv_forward (d : nat) (w : Rtensor) (b : option Rtensor)
    (ss ps : list nat) (x : Rtensor) : result Rtensor :=
  match shape w, shape x with
  | cout :: cin :: ks, n :: cin' :: hs =>
      match conv_extents ss ps hs ks with
      | Some es =>
          if (length ks =? d) && (cin =? cin') && bias_fits b cout
          then Ok (Tensor (n :: cout :: es)
                     (fun i =>
                        match i with
                        | bi :: o :: pos =>
                            (Rsum cin (fun c =>
                               Rsum_box ks (fun k =>
                                 data w (o :: c :: k) *
                                 match conv_coords ss ps hs pos k with
                                 | Some z => data x (bi :: c :: z)
                                 | None => 0
                                 end))
                             + bias_at b o)%R
                        | _ => 0%R
                        end))
          else Raise (RuntimeError "convolution: shapes do not match")
      | None => Raise (RuntimeError "convolution: kernel larger than padded input")
      end
  | _, _ => Raise (RuntimeError "convolution: expected a batched input")
  end.

(** The input coordinate that kernel offset [k] sends to the output
    position [pos] of a transposed convolution, if there is one. *)
Definition convT_coord (s p h pos k : nat) : option nat :=
  let a := pos + p in
  if (k <=? a) && ((a - k) mod s =? 0) && ((a - k) / s <? h)
  then Some ((a - k) / s) else None.

Fixpoint convT_coords (ss ps hs pos ks : list nat) : option (list nat) :=
  match ss, ps, hs, pos, ks with
  | [], [], [], [], [] => Some []
  | s :: ss', p :: ps', h :: hs', q :: pos', k :: ks' =>
      match convT_coord s p h q k, convT_coords ss' ps' hs' pos' ks' with
      | Some c, Some r => Some (c :: r)
      | _, _ => None
      end
  | _, _, _, _, _ => None
  end.

Definition convT_extent (s p h k : nat) : option nat :=
  if (1 <=? s) && (1 <=? h) && (2 * p <? (h - 1) * s + k)
  then Some ((h - 1) * s + k - 2 * p) else None.

Fixpoint convT_extents (ss ps hs ks : list nat) : option (list nat) :=
  match ss, ps, hs, ks with
  | [], [], [], [] => Some []
  | s :: ss', p :: ps', h :: hs', k :: ks' =>
      match convT_extent s p h k, convT_extents ss' ps' hs' ks' with
      | Some e, Some r => Some (e :: r)
      | _, _ => None
      end
  | _, _, _, _ => None
  end.

(** [F.conv_transpose1d/2d/3d]: weight [(in, out, k...)]. *)
Definition convT_forward (d : nat) (w : Rtensor) (b : option Rtensor)
    (ss ps : list nat) (x : Rtensor) : result Rtensor :=
  match shape w, shape x with
  | cin :: cout :: ks, n :: cin' :: hs =>
      match convT_extents ss ps hs ks with
      | Some es =>
          if (length ks =? d) && (cin =? cin') && bias_fits b cout
          then Ok (Tensor (n :: cout :: es)
                     (fun i =>
                        match i with
                        | bi :: o :: pos =>
                            (Rsum cin (fun c =>
                               Rsum_box ks (fun k =>
                                 data w (c :: o :: k) *
                                 match convT_coords ss ps hs pos k with
                                 | Some z => data x (bi :: c :: z)
                                 | None => 0
                                 end))
                             + bias_at b o)%R
                        | _ => 0%R
                        end))
          else Raise (RuntimeError "transposed convolution: shapes do not match")
      | None => Raise (RuntimeError "transposed convolution: empty output")
      end
  | _, _ => Raise (RuntimeError "transposed convolution: expected a batched input")
  end.

(** [F.linear]: weight [(out, in)], input [( *, in)] of any rank from 1
    on.  The features are the last axis of the input; the axes before it
    are kept as they are. *)
Definition linear_forward (w : Rtensor) (b : option Rtensor) (x : Rtensor)
  : result Rtensor :=
  match shape w, shape x with
  | [fout; fin], _ :: _ =>
      if (fin =? List.last (shape x) 0) && bias_fits b fout
      then Ok (Tensor (removelast (shape x) ++ [fout])
                 (fun i =>
                    let o := List.last i 0 in
                    (Rsum fin (fun c => data w [o; c] * data x (removelast i ++ [c]))
                     + bias_at b o)%R))
      else Raise (RuntimeError "linear: shapes do not match")
  | _, _ => Raise (RuntimeError "linear: expected a weight matrix and an input of features")
  end.

(** The ranks a batch norm class accepts. *)
Definition batch_norm_rank (c : torch_class) (r : nat) : bool :=
  match c with
  | nn_BatchNorm1d => (r =? 2) || (r =? 3)
  | nn_BatchNorm2d => r =? 4
  | nn_BatchNorm3d => r =? 5
  | _ => false
  end.

Definition batch_norm_forward (c : torch_class) (g be mu var : Rtensor) (e : R)
    (x : Rtensor) : result Rtensor :=
  match shape x with
  | n :: ch :: sp =>
      if batch_norm_rank c (length (shape x))
         && bool_decide (shape g = [ch] /\ shape be = [ch] /\ shape mu = [ch] /\ shape var = [ch])
      then Ok (Tensor (shape x)
                 (fun i =>
                    let k := [nth 1 i 0] in
                    ((data x i - data mu k) * data g k / sqrt (data var k + e) + data be k)%R))
      else Raise (RuntimeError "batch norm: shapes do not match")
  | _ => Raise (RuntimeError "batch norm: expected a batched input")
  end.

Definition relu_forward (x : Rtensor) : Rtensor := tmap (Rmax 0) x.

Definition conv_dim (c : torch_class) : nat :=
  match c with
  | nn_Conv1d | nn_ConvTranspose1d => 1
  | nn_Conv2d | nn_ConvTranspose2d => 2
  | nn_Conv3d | nn_ConvTranspose3d => 3
  | _ => 0
  end.

(** [module.forward(x)]. *)
Definition forward (m : nn_module) (x : Rtensor) : result Rtensor :=
  match cls m with
  | nn_Linear =>
      let? w := of_option (weight m) (AttributeError "weight") in
      linear_forward w (bias m) x
  | nn_Conv1d | nn_Conv2d | nn_Conv3d =>
      let? w := of_option (weight m) (AttributeError "weight") in
      conv_forward (conv_dim (cls m)) w (bias m) (stride m) (padding m) x
  | nn_ConvTranspose1d | nn_ConvTranspose2d | nn_ConvTranspose3d =>
      let? w := of_option (weight m) (AttributeError "weight") in
      convT_forward (conv_dim (cls m)) w (bias m) (stride m) (padding m) x
  | nn_BatchNorm1d | nn_BatchNorm2d | nn_BatchNorm3d =>
      let? g := of_option (weight m) (AttributeError "weight") in
      let? be := of_option (bias m) (AttributeError "bias") in
      let? mu := of_option (running_mean m) (AttributeError "running_mean") in
      let? var := of_option (running_var m) (AttributeError "running_var") in
      let? e := of_option (eps m) (AttributeError "eps") in
      batch_norm_forward (cls m) g be mu var e x
  | nn_ReLU => Ok (relu_forward x)
  | nn_AdaptiveAvgPool2d | nn_Other =>
      Raise (RuntimeError "forward of this class is not modelled")
  end.

(** ** Canonizer instances *)

Definition name_map_t : Type := list (list string * string).

Inductive canonizer_class : Type :=
| K_SequentialMergeBatchNorm
| K_MergeBatchNormtoRight
| K_ThreshReLUMergeBatchNorm
| K_NamedMergeBatchNorm (name_map : name_map_t).

(** The attributes of a canonizer object once [register] has returned.
    Modules are referred to by name. *)
Record instance : Type := Instance {
  i_class : canonizer_class;
  linears : list string;
  batch_norm : string;
  batch_norm_eps : R;
  linear_params : list (Rtensor * option Rtensor);
  batch_norm_params : list (string * Rtensor);
  handles : list handle;
  relu : option string
}.

Fixpoint map_M {A B} (f : A -> M B) (l : list A) : M (list B) :=
  match l with
  | [] => ret []
  | x :: l' =>
      let! y := f x in
      let! ys := map_M f l' in
      ret (y :: ys)
  end.

(** [(linear.weight.data, getattr(linear.bias, 'data', None))] *)
Definition linear_param (linear : string) : M (Rtensor * option Rtensor) :=
  let! w := get_data linear "weight" in
  let! m := get_module linear in
  ret (w, bias m).

(** [{key: getattr(batch_norm, key).data for key in (...)}] *)
Definition snapshot_batch_norm (batch_norm : string) : M (list (string * Rtensor)) :=
  map_M (fun key => let! t := get_data batch_norm key in ret (key, t))
    ["weight"; "bias"; "running_mean"; "running_var"].

(** The last five statements of both [merge_batch_norm] methods. *)
Definition reset_batch_norm (batch_norm : string) : M unit :=
  (let! t := get_data batch_norm "running_mean" in
   set_data batch_norm "running_mean" (zeros_like t)) ;;
  (let! t := get_data batch_norm "running_var" in
   set_data batch_norm "running_var" (ones_like t)) ;;
  (let! t := get_data batch_norm "bias" in
   set_data batch_norm "bias" (zeros_like t)) ;;
  (let! t := get_data batch_norm "weight" in
   set_data batch_norm "weight" (ones_like t)) ;;
  let! _ := get_module batch_norm in
  update_module batch_norm (set_eps (Some 0%R)).

(** [scale = batch_norm.weight / (batch_norm.running_var + batch_norm.eps) ** .5] *)
Definition batch_norm_scale (batch_norm : string) : M Rtensor :=
  let! var := get_tensor batch_norm "running_var" in
  let! e := get_eps batch_norm in
  let denominator := tsqrt (tadd_scalar var e) in
  let! g := get_tensor batch_norm "weight" in
  lift (tdiv g denominator).

(** [shift = batch_norm.bias - batch_norm.running_mean * scale] *)
Definition batch_norm_shift (batch_norm : string) (scale : Rtensor) : M Rtensor :=
  let! be := get_tensor batch_norm "bias" in
  let! mu := get_tensor batch_norm "running_mean" in
  let! ms := lift (tmul mu scale) in
  lift (tsub be ms).

(** [isinstance(obj, T)] for a module or [None]. *)
Definition is_instance (obj : option string) (T : torch_class -> bool) : M bool :=
  match obj with
  | None => ret false
  | Some name => let! m := get_module name in ret (T (cls m))
  end.

(** [obj.weight.shape[0]] *)
Definition weight_shape0 (name : string) : M nat :=
  let! m := get_module name in
  let! w := lift (of_option (weight m) (AttributeError "shape")) in
  lift (of_option (shape w !! 0) (IndexError "tuple index out of range")).

Module MergeBatchNorm.

(** The body of the loop of [merge_batch_norm] for one linear module. *)
Definition merge_batch_norm_body (scale : Rtensor) (batch_norm : string)
    (module : string) : M unit :=
  let! original_weight := get_data module "weight" in
  let! m := get_module module in
  (match bias m with
   | None => update_module module (set_bias (Some (zeros [1])))
   | Some _ => ret tt
   end) ;;
  let! original_bias := get_data module "bias" in
  let index :=
    if ConvolutionTranspose (cls m)
    then INone :: ISlice :: replicate (ndim original_weight - 2) INone
    else ISlice :: replicate (ndim original_weight - 1) INone in
  let! scale_i := lift (getitem scale index) in
  let! w' := lift (tmul original_weight scale_i) in
  set_data module "weight" w' ;;
  let! mu := get_tensor batch_norm "running_mean" in
  let! d := lift (tsub original_bias mu) in
  let! ds := lift (tmul d scale) in
  let! be := get_tensor batch_norm "bias" in
  let! b' := lift (tadd ds be) in
  set_data module "bias" b'.

Definition merge_batch_norm (modules_ : list string) (batch_norm : string) : M unit :=
  let! scale := batch_norm_scale batch_norm in
  for_each modules_ (merge_batch_norm_body scale batch_norm) ;;
  reset_batch_norm batch_norm.

Definition register (k : canonizer_class) (linears_ : list string) (batch_norm_ : string)
  : M instance :=
  let! lp := map_M linear_param linears_ in
  let! bp := snapshot_batch_norm batch_norm_ in
  let! e := get_eps batch_norm_ in
  merge_batch_norm linears_ batch_norm_ ;;
  ret (Instance k linears_ batch_norm_ e lp bp [] None).

(** The body of the first loop of [remove]. *)
Definition remove_body (lw : string * (Rtensor * option Rtensor)) : M unit :=
  let linear := fst lw in
  set_data linear "weight" (fst (snd lw)) ;;
  match snd (snd lw) with
  | None => update_module linear (set_bias None)
  | Some b => set_data linear "bias" b
  end.

Definition remove (self : instance) : M unit :=
  for_each (zip (linears self) (linear_params self)) remove_body ;;
  for_each (batch_norm_params self) (fun kv =>
    set_data (batch_norm self) (fst kv) (snd kv)) ;;
  update_module (batch_norm self) (set_eps (Some (batch_norm_eps self))).

End MergeBatchNorm.

(** What [collect_leaves(root_module)] yields: the names of the leaves of
    the root module in evaluation order. *)
Record root : Type := Root { collect_leaves : list string }.

Module SequentialMergeBatchNorm.

Fixpoint apply_loop (leaves : list string) (last_leaf : option string)
    (instances : list instance) : M (list instance) :=
  match leaves with
  | [] => ret instances
  | leaf :: rest =>
      let! a := is_instance last_leaf Linear in
      let! b := if a then is_instance (Some leaf) BatchNorm else ret false in
      let! instances' :=
        match b, last_leaf with
        | true, Some last =>
            let! c1 := weight_shape0 last in
            let! c2 := weight_shape0 leaf in
            if c1 =? c2 then
              let! inst := MergeBatchNorm.register K_SequentialMergeBatchNorm [last] leaf in
              ret (instances ++ [inst])
            else ret instances
        | _, _ => ret instances
        end in
      apply_loop rest (Some leaf) instances'
  end.

Definition apply (root_module : root) : M (list instance) :=
  apply_loop (collect_leaves root_module) None [].

End SequentialMergeBatchNorm.

(** [t.shape[i]] and [t.shape[-i]]. *)
Definition shape_at {A} (t : tensor A) (i : nat) : result nat :=
  of_option (shape t !! i) (IndexError "tuple index out of range").

Definition shape_from_end {A} (t : tensor A) (i : nat) : result nat :=
  if (1 <=? i) && (i <=? ndim t)
  then of_option (shape t !! (ndim t - i)) (IndexError "tuple index out of range")
  else Raise (IndexError "tuple index out of range").

(** An index expression with [k] entries needs a tensor of [k] axes or
    more. *)
Definition check_rank {A} (t : tensor A) (k : nat) : result unit :=
  if k <=? ndim t then Ok tt else Raise (IndexError "too many indices for tensor").

(** [[i for i in range(0, n) if i % s == 0]] *)
Definition multiples_below (n s : nat) : result (list nat) :=
  if (s =? 0) && (1 <=? n) then Raise ZeroDivisionError
  else Ok (List.filter (fun i => i mod s =? 0) (seq 0 n)).

Definition get_canonization_params (name : string) : M (gmap string Rtensor) :=
  let! m := get_module name in
  lift (of_option (canonization_params m) (AttributeError "canonization_params")).

Definition get_canonization_param (name key : string) : M Rtensor :=
  let! cp := get_canonization_params name in
  lift (of_option (cp !! key) (KeyError key)).

(** [module.canonization_params[key] = t] *)
Definition set_canonization_param (name key : string) (t : Rtensor) : M unit :=
  let! cp := get_canonization_params name in
  update_module name (set_canonization_params (Some (<[key := t]> cp))).

(** [delattr(module, "canonization_params")] *)
Definition del_canonization_params (name : string) : M unit :=
  let! _ := get_canonization_params name in
  update_module name (set_canonization_params None).

Module MergeBatchNormtoRight.

Definition convhook (module : string) (x y : Rtensor) : M Rtensor :=
  let! bias_kernel := get_canonization_param module "bias_kernel" in
  let! m := get_module module in
  match padding m with
  | [pad1; pad2] =>
      let! bias_kernel :=
        if 0 <? pad1 then
          lift (
            let? _ := check_rank bias_kernel 4 in
            let? left_margin := slice_dim bias_kernel 2 0 (Some pad1) in
            let? right_margin := slice_dim bias_kernel 2 (pad1 + 1) None in
            let? mid := slice_dim bias_kernel 2 pad1 (Some (pad1 + 1)) in
            let? c := shape_at bias_kernel 1 in
            let? xh := shape_at x 2 in
            let? w := of_option (weight m) (AttributeError "shape") in
            let? kh := shape_at w 2 in
            let? l := shape_from_end bias_kernel 1 in
            let? middle := expand mid
              [1%Z; Z.of_nat c; (Z.of_nat xh - Z.of_nat kh + 1)%Z; Z.of_nat l] in
            cat3 left_margin middle right_margin 2)
        else ret bias_kernel in
      let! bias_kernel :=
        if 0 <? pad2 then
          lift (
            let? _ := check_rank bias_kernel 4 in
            let? left_margin := slice_dim bias_kernel 3 0 (Some pad2) in
            let? right_margin := slice_dim bias_kernel 3 (pad2 + 1) None in
            let? mid := slice_dim bias_kernel 3 pad2 (Some (pad2 + 1)) in
            let? c := shape_at bias_kernel 1 in
            let? l := shape_from_end bias_kernel 2 in
            let? xw := shape_at x 3 in
            let? w := of_option (weight m) (AttributeError "shape") in
            let? kw := shape_at w 3 in
            let? middle := expand mid
              [1%Z; Z.of_nat c; Z.of_nat l; (Z.of_nat xw - Z.of_nat kw + 1)%Z] in
            cat3 left_margin middle right_margin 3)
        else ret bias_kernel in
      let! s0 := lift (of_option (stride m !! 0) (IndexError "tuple index out of range")) in
      let! strided :=
        if 1 <? s0 then ret true
        else
          let! s1 := lift (of_option (stride m !! 1) (IndexError "tuple index out of range")) in
          ret (1 <? s1) in
      let! bias_kernel :=
        if (strided : bool) then
          let! s1 := lift (of_option (stride m !! 1) (IndexError "tuple index out of range")) in
          lift (
            let? n2 := shape_at bias_kernel 2 in
            let? indices1 := multiples_below n2 s0 in
            let? n3 := shape_at bias_kernel 3 in
            let? indices2 := multiples_below n3 s1 in
            let? _ := check_rank bias_kernel 4 in
            let? bk := index_select bias_kernel 2 indices1 in
            index_select bk 3 indices2)
        else ret bias_kernel in
      lift (tadd y bias_kernel)
  | _ => raise (ValueError "not enough or too many values to unpack (expected 2)")
  end.

(** The body of the loop of [merge_batch_norm] for one linear module; it
    returns the handles the iteration appends to [return_handles]. *)
Definition merge_batch_norm_body (scale shift : Rtensor) (module : string)
  : M (list handle) :=
  let! original_weight := get_data module "weight" in
  let! m := get_module module in
  (match bias m with
   | None =>
       let! oc := lift (out_channels m) in
       update_module module (set_bias (Some (zeros [oc])))
   | Some _ => ret tt
   end) ;;
  let! original_bias := get_data module "bias" in
  let index :=
    if ConvolutionTranspose (cls m)
    then ISlice :: replicate (ndim original_weight - 1) INone
    else INone :: ISlice :: replicate (ndim original_weight - 2) INone in
  let! scale_i := lift (getitem scale index) in
  let! w' := lift (tmul original_weight scale_i) in
  set_data module "weight" w' ;;
  if bool_decide (cls m = nn_Conv2d) then
    if bool_decide (padding m = [0; 0]) then
      let! shift_i := lift (getitem shift index) in
      let! ws := lift (tmul original_weight shift_i) in
      let! sm := lift (sum_dims ws [1; 2; 3]) in
      let! b' := lift (tadd sm original_bias) in
      set_data module "bias" b' ;;
      ret []
    else
      let! shift_i := lift (getitem shift index) in
      let sizes := take (ndim shift_i - 2) (shape shift_i)
                   ++ drop (ndim original_weight - 2) (shape original_weight) in
      let! patch := lift (expand shift_i (Z.of_nat <$> sizes)) in
      let! bias_kernel :=
        lift (conv_forward 2 original_weight None [1; 1] (padding m) patch) in
      update_module module (set_canonization_params (Some ∅)) ;;
      set_canonization_param module "bias_kernel" bias_kernel ;;
      let! h := register_forward_hook module convhook_fn in
      ret [h]
  else if bool_decide (cls m = nn_Linear) then
    let! ws := lift (tmul original_weight shift) in
    let! sm := lift (sum_dim ws 1) in
    let! b' := lift (tadd sm original_bias) in
    set_data module "bias" b' ;;
    ret []
  else ret [].

Definition merge_batch_norm (modules_ : list string) (batch_norm : string)
  : M (list handle) :=
  let! scale := batch_norm_scale batch_norm in
  let! shift := batch_norm_shift batch_norm scale in
  let! return_handles := map_M (merge_batch_norm_body scale shift) modules_ in
  reset_batch_norm batch_norm ;;
  ret (concat return_handles).

(** [self.handles] is empty when [register] is entered: the object was
    just made by [copy]. *)
Definition register (k : canonizer_class) (linears_ : list string)
    (batch_norm_ : string) : M instance :=
  let! e := get_eps batch_norm_ in
  let! lp := map_M linear_param linears_ in
  let! bp := snapshot_batch_norm batch_norm_ in
  let! returned_handles := merge_batch_norm linears_ batch_norm_ in
  ret (Instance k linears_ batch_norm_ e lp bp ([] ++ returned_handles) None).

Definition remove (self : instance) : M unit :=
  MergeBatchNorm.remove self ;;
  for_each (handles self) handle_remove ;;
  for_each (linears self) (fun module =>
    let! m := get_module module in
    if bool_decide (cls m = nn_Conv2d) then
      if bool_decide (padding m <> [0; 0])
      then del_canonization_params module
      else ret tt
    else ret tt).

Fixpoint apply_loop (leaves : list string) (last_leaf : option string)
    (instances : list instance) : M (list instance) :=
  match leaves with
  | [] => ret instances
  | leaf :: rest =>
      let! a := is_instance last_leaf BatchNorm in
      let! b := if a then is_instance (Some leaf) Linear else ret false in
      let! instances' :=
        match b, last_leaf with
        | true, Some last =>
            let! inst := register K_MergeBatchNormtoRight [leaf] last in
            ret (instances ++ [inst])
        | _, _ => ret instances
        end in
      apply_loop rest (Some leaf) instances'
  end.

Definition apply (root_module : root) : M (list instance) :=
  apply_loop (collect_leaves root_module) None [].

End MergeBatchNormtoRight.

(** The names bound at the top level of [canonizers.py] that denote
    module types: those of its one import from [.types]. *)
Definition globals : Type := gmap string (torch_class -> bool).

Definition canonizers_globals : globals :=
  <["Linear" := Linear]>
    (<["BatchNorm" := BatchNorm]>
       (<["ConvolutionTranspose" := ConvolutionTranspose]> ∅)).

(** The same names with [ReLU] and [AdaptiveAvgPool2d] of [torch.nn]
    bound as well. *)
Definition globals_with_torch_nn : globals :=
  <["ReLU" := fun c => bool_decide (c = nn_ReLU)]>
    (<["AdaptiveAvgPool2d" := fun c => bool_decide (c = nn_AdaptiveAvgPool2d)]>
       canonizers_globals).

(** Evaluation of a global name. *)
Definition load_global (g : globals) (name : string) : M (torch_class -> bool) :=
  lift (of_option (g !! name) (NameError name)).

Module ThreshReLUMergeBatchNorm.

Definition prehook (module : string) (x : Rtensor) : M unit :=
  set_canonization_param module "original_x" x.

Definition fwdhook (module : string) (x y : Rtensor) : M Rtensor :=
  let! x := get_canonization_param module "original_x" in
  let! weights := get_canonization_param module "weights" in
  let index := INone :: ISlice :: replicate (ndim weights + 1) INone in
  let! biases := get_canonization_param module "biases" in
  lift (
    let? w_i := getitem weights index in
    let? wx := tmul w_i x in
    let? b_i := getitem biases index in
    let? y := tadd wx b_i in
    let? q := tdiv biases weights in
    let? q_i := getitem q index in
    let baseline_vals := tscale (-1) q_i in
    where_ (tgt0 y) x baseline_vals).

Definition register (linears_ : list string) (batch_norm_ : string) (relu_ : string)
  : M instance :=
  let! scale := batch_norm_scale batch_norm_ in
  let! shift := batch_norm_shift batch_norm_ scale in
  let! _ := get_module relu_ in
  update_module relu_ (set_canonization_params (Some ∅)) ;;
  set_canonization_param relu_ "weights" scale ;;
  set_canonization_param relu_ "biases" shift ;;
  let! self := MergeBatchNormtoRight.register K_ThreshReLUMergeBatchNorm
                 linears_ batch_norm_ in
  let! h1 := register_forward_pre_hook relu_ prehook_fn in
  let! h2 := register_forward_hook relu_ fwdhook_fn in
  ret (Instance (i_class self) (linears self) (batch_norm self) (batch_norm_eps self)
         (linear_params self) (batch_norm_params self)
         (handles self ++ [h1] ++ [h2]) (Some relu_)).

Definition remove (self : instance) : M unit :=
  MergeBatchNormtoRight.remove self ;;
  match relu self with
  | Some r => del_canonization_params r
  | None => raise (TypeError "delattr on None")
  end.

(** The loop of [apply], with the global names it evaluates looked up
    in [g]. *)
Fixpoint apply_loop (g : globals) (leaves : list string)
    (oldest_leaf old_leaf mid_leaf : option string)
    (instances : list instance) : M (list instance) :=
  match leaves with
  | [] => ret instances
  | leaf :: rest =>
      let! first :=
        let! a := is_instance old_leaf BatchNorm in
        if a then
          let! ReLU := load_global g "ReLU" in
          let! b := is_instance mid_leaf ReLU in
          if b then is_instance (Some leaf) Linear else ret false
        else ret false in
      let! instances' :=
        if (first : bool) then
          match old_leaf, mid_leaf with
          | Some bn, Some act =>
              let! inst := register [leaf] bn act in
              ret (instances ++ [inst])
          | _, _ => ret instances
          end
        else
          let! second :=
            let! a := is_instance oldest_leaf BatchNorm in
            if a then
              let! ReLU := load_global g "ReLU" in
              let! b := is_instance old_leaf ReLU in
              if b then
                let! AdaptiveAvgPool2d := load_global g "AdaptiveAvgPool2d" in
                let! c := is_instance mid_leaf AdaptiveAvgPool2d in
                if c then is_instance (Some leaf) Linear else ret false
              else ret false
            else ret false in
          if (second : bool) then
            match oldest_leaf, old_leaf with
            | Some bn, Some act =>
                let! inst := register [leaf] bn act in
                ret (instances ++ [inst])
            | _, _ => ret instances
            end
          else ret instances in
      apply_loop g rest old_leaf mid_leaf (Some leaf) instances'
  end.

Definition apply_in (g : globals) (root_module : root) : M (list instance) :=
  apply_loop g (collect_leaves root_module) None None None [].

Definition apply (root_module : root) : M (list instance) :=
  apply_in canonizers_globals root_module.

End ThreshReLUMergeBatchNorm.

Module NamedMergeBatchNorm.

(** [lookup[name]] in the dictionary of the named modules. *)
Definition lookup_name (lookup : gmap string nn_module) (name : string) : M string :=
  match lookup !! name with
  | Some _ => ret name
  | None => raise (KeyError name)
  end.

Fixpoint apply_loop (self_name_map : name_map_t) (lookup : gmap string nn_module)
    (pairs : name_map_t) (instances : list instance) : M (list instance) :=
  match pairs with
  | [] => ret instances
  | (linear_names, batch_norm_name) :: rest =>
      let! ls := map_M (lookup_name lookup) linear_names in
      let! bn := lookup_name lookup batch_norm_name in
      let! inst := MergeBatchNorm.register (K_NamedMergeBatchNorm self_name_map) ls bn in
      apply_loop self_name_map lookup rest (instances ++ [inst])
  end.

Definition apply (name_map : name_map_t) (root_module : root) : M (list instance) :=
  fun s => apply_loop name_map (modules s) name_map [] s.

End NamedMergeBatchNorm.

(** [instance.remove()], resolved by the class of the instance. *)
Definition remove (self : instance) : M unit :=
  match i_class self with
  | K_SequentialMergeBatchNorm | K_NamedMergeBatchNorm _ => MergeBatchNorm.remove self
  | K_MergeBatchNormtoRight => MergeBatchNormtoRight.remove self
  | K_ThreshReLUMergeBatchNorm => ThreshReLUMergeBatchNorm.remove self
  end.

Module CompositeCanonizer.

(** The constituents are any objects with an [apply] method. *)
Definition canonizer : Type := root -> M (list instance).

Fixpoint apply_loop (canonizers : list canonizer) (root_module : root)
    (instances : list instance) : M (list instance) :=
  match canonizers with
  | [] => ret instances
  | c :: rest =>
      let! new := c root_module in
      apply_loop rest root_module (instances ++ new)
  end.

Definition apply (canonizers : list canonizer) (root_module : root)
  : M (list instance) :=
  let! instances := apply_loop canonizers root_module [] in
  ret (rev instances).

Definition register : M unit := ret tt.

Definition remove : M unit := ret tt.

End CompositeCanonizer.

(** ** Calling a module: [Module.__call__] with its hooks *)

Definition run_forward_pre_hook (f : hook) (module : string) (x : Rtensor)
  : M (option Rtensor) :=
  match f with
  | prehook_fn => ThreshReLUMergeBatchNorm.prehook module x ;; ret None
  | convhook_fn | fwdhook_fn =>
      raise (TypeError "missing 1 required positional argument: 'y'")
  end.

Definition run_forward_hook (f : hook) (module : string) (x y : Rtensor)
  : M (option Rtensor) :=
  match f with
  | convhook_fn => let! r := MergeBatchNormtoRight.convhook module x y in ret (Some r)
  | fwdhook_fn => let! r := ThreshReLUMergeBatchNorm.fwdhook module x y in ret (Some r)
  | prehook_fn => raise (TypeError "prehook() takes 2 positional arguments but 3 were given")
  end.

Fixpoint run_forward_pre_hooks (hooks : list (nat * hook)) (module : string)
    (x : Rtensor) : M Rtensor :=
  match hooks with
  | [] => ret x
  | (_, f) :: rest =>
      let! r := run_forward_pre_hook f module x in
      run_forward_pre_hooks rest module (default x r)
  end.

Fixpoint run_forward_hooks (hooks : list (nat * hook)) (module : string)
    (x y : Rtensor) : M Rtensor :=
  match hooks with
  | [] => ret y
  | (_, f) :: rest =>
      let! r := run_forward_hook f module x y in
      run_forward_hooks rest module x (default y r)
  end.

Definition call (module : string) (x : Rtensor) : M Rtensor :=
  let! m := get_module module in
  let! x' := run_forward_pre_hooks (forward_pre_hooks m) module x in
  let! m' := get_module module in
  let! y := lift (forward m' x') in
  run_forward_hooks (forward_hooks m') module x' y.

(** ** Matches *)

(** The nodes a matcher hands to [register]. *)
Inductive pattern : Type :=
| SequentialPattern (linear batch_norm : string)
| NamedPattern (name_map : name_map_t) (linear_names : list string) (batch_norm : string)
| RightPattern (batch_norm linear : string)
| ThreshPattern (batch_norm relu_ linear : string).

(** [instance = self.copy(); instance.register(...)] for a match. *)
Definition register (p : pattern) : M instance :=
  match p with
  | SequentialPattern l bn =>
      MergeBatchNorm.register K_SequentialMergeBatchNorm [l] bn
  | NamedPattern name_map ls bn =>
      MergeBatchNorm.register (K_NamedMergeBatchNorm name_map) ls bn
  | RightPattern bn l =>
      MergeBatchNormtoRight.register K_MergeBatchNormtoRight [l] bn
  | ThreshPattern bn r l => ThreshReLUMergeBatchNorm.register [l] bn r
  end.

Definition has_class (s : store) (T : torch_class -> bool) (name : string) : Prop :=
  exists m, modules s !! name = Some m /\ T (cls m) = true.

(** No canonizer has left anything on the node: it has no
    [canonization_params], and the ids of its hooks are older than the
    next handle. *)
Definition untouched (s : store) (name : string) : Prop :=
  forall m, modules s !! name = Some m ->
    canonization_params m = None
    /\ Forall (fun e : nat * hook => fst e < next_id s) (forward_pre_hooks m)
    /\ Forall (fun e : nat * hook => fst e < next_id s) (forward_hooks m).

(** The nodes of the match are of the kinds the matcher asks for, and the
    nodes that will receive hooks or attributes are untouched. *)
Definition matched (p : pattern) (s : store) : Prop :=
  match p with
  | SequentialPattern l bn => has_class s Linear l /\ has_class s BatchNorm bn
  | NamedPattern _ ls bn => Forall (has_class s Linear) ls /\ has_class s BatchNorm bn
  | RightPattern bn l =>
      has_class s BatchNorm bn /\ has_class s Linear l /\ untouched s l
  | ThreshPattern bn r l =>
      has_class s BatchNorm bn
      /\ has_class s (fun c => bool_decide (c = nn_ReLU)) r
      /\ has_class s Linear l
      /\ untouched s r /\ untouched s l
  end.

(** ** Concrete networks used to run the methods *)

(** [torch.full(shape, v)] and a vector given by its entries. *)
Definition full (s : list nat) (v : R) : Rtensor := Tensor s (fun _ => v).
Definition vec (l : list R) : Rtensor :=
  Tensor [length l] (fun i => nth (nth 0 i 0) l 0%R).

Definition mk_linear (c : torch_class) (w : Rtensor) (b : option Rtensor)
    (strides pads : list nat) : nn_module :=
  NNModule c (Some w) b None None None pads strides None [] [].

Definition mk_batch_norm (c : torch_class) (g be mu var : Rtensor) (e : R) : nn_module :=
  NNModule c (Some g) (Some be) (Some mu) (Some var) (Some e) [] [] None [] [].

Definition mk_plain (c : torch_class) : nn_module :=
  NNModule c None None None None None [] [] None [] [].

Definition mk_store (l : list (string * nn_module)) : store :=
  Store (list_to_map l) 0.

(** [ConvTranspose2d(3, 5, 1)] followed by [BatchNorm2d(5)]. *)
Definition ex_transposed : store :=
  mk_store
    [("deconv", mk_linear nn_ConvTranspose2d (full [3; 5; 1; 1] 1) None [1; 1] [0; 0]);
     ("bn", mk_batch_norm nn_BatchNorm2d (full [5] 2) (full [5] 0) (full [5] 0)
              (full [5] 1) 0)].

(** [Linear(2, 1, bias=False)] followed by [BatchNorm1d(1)]. *)
Definition ex_named : store :=
  mk_store
    [("fc", mk_linear nn_Linear (full [1; 2] 1) None [] []);
     ("bn", mk_batch_norm nn_BatchNorm1d (full [1] 2) (full [1] 0) (full [1] 0)
              (full [1] 1) 0)].

(** [BatchNorm2d(1)], [ReLU], [Conv2d(1, 1, 1)]. *)
Definition ex_thresh : store :=
  mk_store
    [("bn", mk_batch_norm nn_BatchNorm2d (full [1] 2) (full [1] 0) (full [1] 0)
              (full [1] 1) 0);
     ("relu", mk_plain nn_ReLU);
     ("conv", mk_linear nn_Conv2d (full [1; 1; 1; 1] 1) None [1; 1] [0; 0])].

(** BatchNorm2d(1), ReLU, Conv2d(1, 1, 3, padding=1, bias=False). *)
Definition ex_thresh_padded : store :=
  mk_store
    [("bn", mk_batch_norm nn_BatchNorm2d (full [1] 2) (full [1] 1) (full [1] 0)
              (full [1] 1) 0);
     ("relu", mk_plain nn_ReLU);
     ("conv", mk_linear nn_Conv2d (full [1; 1; 3; 3] 1) None [1; 1] [1; 1])].

(** [BatchNorm1d(2)], [ReLU], [Linear(2, 1)]. *)
Definition ex_thresh_linear : store :=
  mk_store
    [("bn", mk_batch_norm nn_BatchNorm1d (full [2] 2) (full [2] 1) (full [2] 0)
              (full [2] 1) 0);
     ("relu", mk_plain nn_ReLU);
     ("fc", mk_linear nn_Linear (full [1; 2] 1) (Some (full [1] 0)) [] [])].

(** [BatchNorm1d(2)] followed by [Linear(2, 1, bias=False)]. *)
Definition ex_right_linear : store :=
  mk_store
    [("bn", mk_batch_norm nn_BatchNorm1d (full [2] 2) (full [2] 1) (full [2] 0)
              (full [2] 1) 0);
     ("fc", mk_linear nn_Linear (full [1; 2] 1) None [] [])].

(** [BatchNorm2d(1)] followed by [Conv2d(1, 1, 1, bias=False)]. *)
Definition ex_right_conv : store :=
  mk_store
    [("bn", mk_batch_norm nn_BatchNorm2d (full [1] 2) (full [1] 1) (full [1] 0)
              (full [1] 1) 0);
     ("conv", mk_linear nn_Conv2d (full [1; 1; 1; 1] 1) None [1; 1] [0; 0])].

(** [BatchNorm2d(1)] followed by [Conv2d(1, 1, 3, padding=1, bias=False)]. *)
Definition ex_right_padded : store :=
  mk_store
    [("bn", mk_batch_norm nn_BatchNorm2d (full [1] 2) (full [1] 1) (full [1] 0)
              (full [1] 1) 0);
     ("conv", mk_linear nn_Conv2d (full [1; 1; 3; 3] 1) None [1; 1] [1; 1])].

(** [BatchNorm2d(1)] with bias 1 followed by
    [ConvTranspose2d(1, 1, 1, bias=False)]. *)
Definition ex_right_transposed : store :=
  mk_store
    [("bn", mk_batch_norm nn_BatchNorm2d (full [1] 1) (full [1] 1) (full [1] 0)
              (full [1] 1) 0);
     ("deconv", mk_linear nn_ConvTranspose2d (full [1; 1; 1; 1] 1) None [1; 1] [0; 0])].

(** [BatchNorm2d(1)] with the given parameters followed by
    [Conv2d(1, 1, 3, padding=1, bias=False)] with the given weight and
    stride. *)
Definition padded_pair (g be mu var e : R) (w : list nat -> R) (strides : list nat)
  : store :=
  mk_store
    [("bn", mk_batch_norm nn_BatchNorm2d (full [1] g) (full [1] be) (full [1] mu)
              (full [1] var) e);
     ("conv", mk_linear nn_Conv2d (Tensor [1; 1; 3; 3] w) None strides [1; 1])].


(** [BatchNorm1d(2)] with bias [(2, 3)] followed by [Linear(2, 1)] with a
    bias of zero. *)
Definition ex_right_linear_bias : store :=
  mk_store
    [("bn", mk_batch_norm nn_BatchNorm1d (full [2] 1) (vec [2; 3]%R) (full [2] 0)
              (full [2] 1) 0);
     ("fc", mk_linear nn_Linear (full [1; 2] 1) (Some (full [1] 0)) [] [])].

(** ** Runs and what they return *)

(** [second(first(x))], both modules called with their hooks. *)
Definition two_stage (first second : string) (x : Rtensor) : M Rtensor :=
  let! z := call first x in
  call second z.

(** The shape of the tensor a run returns. *)
Definition result_shape (r : result Rtensor * store) : result (list nat) :=
  match fst r with
  | Ok t => Ok (shape t)
  | Raise e => Raise e
  end.

(** The entry at index [i] of the tensor a run returns. *)
Definition result_at (r : result Rtensor * store) (i : list nat) : result R :=
  match fst r with
  | Ok t => Ok (data t i)
  | Raise e => Raise e
  end.

(** The indices of a tensor of shape [(1, 1, h, w)]. *)
Definition positions (h w : nat) : list (list nat) :=
  i ← seq 0 h; j ← seq 0 w; [[0; 0; i; j]].

(** On the input [x], the module [l] alone after the right merge returns
    what [bn] followed by [l] returned before it: a tensor of shape
    [(1, 1, h, w)] with the same entries. *)
Definition reproduces (s : store) (bn l : string) (x : Rtensor) (h w : nat) : Prop :=
  let before := two_stage bn l x s in
  let after := (register (RightPattern bn l) ;; call l x) s in
  result_shape before = Ok [1; 1; h; w]
  /\ result_shape after = Ok [1; 1; h; w]
  /\ Forall (fun i => result_at after i = result_at before i) (positions h w).

(** The first of [names] that is not a key of [lookup]. *)
Definition first_missing (lookup : gmap string nn_module) (names : list string)
  : option string :=
  List.find (fun n => bool_decide (lookup !! n = None)) names.

(** ** Footprints of the merges

    The merges overwrite a few attributes of a module and leave the others
    alone.  The functions below blank, or put back, the attributes a merge
    may overwrite, so that what is left can be compared. *)

(** The attributes a merge may overwrite, blanked. *)
Definition strip_wb (m : nn_module) : nn_module := set_bias None (set_weight None m).

Definition strip_bn (m : nn_module) : nn_module :=
  set_eps None (set_running_var None (set_running_mean None (strip_wb m))).

(** What a merge does to a linear module: weight and bias end up set,
    every other attribute is as before. *)
Definition rewritten (L L' : nn_module) : Prop :=
  strip_wb L' = strip_wb L /\ is_Some (weight L') /\ is_Some (bias L').

(** The module [L1] with the weight and bias of [L]. *)
Definition restore_wb (L L1 : nn_module) : nn_module :=
  set_bias (bias L) (set_weight (weight L) L1).

(** The module [N1] with the parameters and [eps] of [N]. *)
Definition restore_bn (N N1 : nn_module) : nn_module :=
  set_eps (eps N)
    (set_running_var (running_var N)
       (set_running_mean (running_mean N)
          (set_bias (bias N) (set_weight (weight N) N1)))).

(** The attributes the right merge may overwrite, blanked. *)
Definition strip_right (m : nn_module) : nn_module :=
  set_forward_hooks [] (set_canonization_params None (strip_wb m)).

(** The modules for which the right merge registers [convhook]. *)
Definition padded_conv (m : nn_module) : bool :=
  bool_decide (cls m = nn_Conv2d) && negb (bool_decide (padding m = [0; 0])).

(** ** The closed forms of the merges *)

(** The axis of the weight of a linear module on which its output channels
    lie. *)
Definition out_axis (c : torch_class) : nat := if ConvolutionTranspose c then 1 else 0.

(** The axis of the weight of a linear module on which its input channels
    lie. *)
Definition in_axis (c : torch_class) : nat := if ConvolutionTranspose c then 0 else 1.

(** [N.weight / sqrt(N.var + eps)] at channel [o]. *)
Definition channel_scale (g var : Rtensor) (e : R) (o : nat) : R :=
  (data g [o] / sqrt (data var [o] + e))%R.

(** [N.bias - N.mean * scale] at channel [o]. *)
Definition channel_shift (g be mu var : Rtensor) (e : R) (o : nat) : R :=
  (data be [o] - data mu [o] * channel_scale g var e o)%R.

(** The feature map of the shape of [x] that holds [f c] at every position
    of channel [c]. *)
Definition channel_map (f : nat -> R) (x : Rtensor) : Rtensor :=
  Tensor (shape x) (fun i => f (nth 1 i 0)).

(** The batch norm [N] once [reset_batch_norm] has run on it. *)
Definition identity_batch_norm (N : nn_module) (g be mu var : Rtensor) : nn_module :=
  set_eps (Some 0%R)
    (set_weight (Some (ones_like g))
       (set_bias (Some (zeros_like be))
          (set_running_var (Some (ones_like var))
             (set_running_mean (Some (zeros_like mu)) N)))).

(** The inputs of the linear module [L] that are batches: a batch axis,
    a channel axis and the spatial axes of a convolution; a batch axis and
    a feature axis for [torch.nn.Linear].  On these the channels that [L]
    reads and writes are on axis 1, the axis a batch norm normalises. *)
Definition batched (L : nn_module) (x : Rtensor) : bool :=
  length (shape x) =? conv_dim (cls L) + 2.

(** What the post-hook of the activation is to return at one entry: the
    entry [v] of the input where [scale * v + shift] is positive, the
    baseline [- shift / scale] elsewhere. *)
Definition thresh_value (scale shift v : R) : R :=
  if Rlt_dec 0 (scale * v + shift) then v else (-1 * (shift / scale))%R.

(** ** Undoing a list of instances *)

(** [for instance in instances: instance.remove()] *)
Definition remove_all (instances : list instance) : M unit :=
  for_each instances remove.

(** The instances that left merges have registered one after the other
    from the store [s], oldest first, and the store they leave. *)
Inductive left_registered : store -> list instance -> store -> Prop :=
| left_registered_nil s : left_registered s [] s
| left_registered_snoc s insts s1 k ls bn inst s2 :
    left_registered s insts s1 ->
    k = K_SequentialMergeBatchNorm \/ (exists nm, k = K_NamedMergeBatchNorm nm) ->
    bn ∉ ls ->
    MergeBatchNorm.register k ls bn s1 = (Ok inst, s2) ->
    left_registered s (insts ++ [inst]) s2.

(** The constituents of a composite that merge to the left: the sequential
    matcher, or a name map none of whose entries lists its batch norm among
    its own linear modules. *)
Definition left_canonizer (c : CompositeCanonizer.canonizer) : Prop :=
  c = SequentialMergeBatchNorm.apply
  \/ exists nm, c = NamedMergeBatchNorm.apply nm /\ Forall (fun p => p.2 ∉ p.1) nm.

(** ** The pairs a matcher is to find *)

(** [isinstance(n, T)] read off the store [s]; false for [None] and for a
    name the store does not hold. *)
Definition class_is (s : store) (T : torch_class -> bool) (n : option string) : bool :=
  match n with
  | Some n =>
      match modules s !! n with
      | Some m => T (cls m)
      | None => false
      end
  | None => false
  end.

(** The pairs of a leaf and its successor in [leaves] ([last] being the
    leaf before the first) whose first is of a class of [T1] and whose
    second is of a class of [T2], in the order of the leaves. *)
Fixpoint adjacent_pairs (T1 T2 : torch_class -> bool) (s : store)
    (last : option string) (leaves : list string) : list (string * string) :=
  match leaves with
  | [] => []
  | leaf :: rest =>
      match last with
      | Some l =>
          if class_is s T1 (Some l) && class_is s T2 (Some leaf)
          then (l, leaf) :: adjacent_pairs T1 T2 s (Some leaf) rest
          else adjacent_pairs T1 T2 s (Some leaf) rest
      | None => adjacent_pairs T1 T2 s (Some leaf) rest
      end
  end.

(** The handle [h] refers to a module of [s] whose hook dictionary does not
    hold the id of the handle. *)
Definition stale (s : store) (h : handle) : Prop :=
  exists m, modules s !! h_module h = Some m
    /\ match h_dict h with
       | ForwardPreHooks => Forall (fun e : nat * hook => fst e <> h_id h) (forward_pre_hooks m)
       | ForwardHooks => Forall (fun e : nat * hook => fst e <> h_id h) (forward_hooks m)
       end.

(** ** Overloading attributes: [AttributeCanonizer] *)

Module AttributeCanonizer.

Section Objects.

(** The values of the overloaded attributes are Python objects that are
    no parameter, buffer or submodule, under names that are none of
    those and no property of the class: for these
    [Module.__setattr__] and [Module.__delattr__] are those of
    [object]. *)
Context {V : Type}.

(** A module as [setattr], [delattr] and [getattr] see it: the
    attributes of the instance, and those of its class (its methods),
    which a lookup finds when the instance has none of that name. *)
Record object : Type := Object {
  instance_dict : gmap string V;
  class_dict : gmap string V
}.

(** A method runs on the modules of the model, a map from their names in
    [named_modules()], and returns a value or raises. *)
Definition MA (A : Type) : Type :=
  gmap string object -> result A * gmap string object.

Definition hret {A} (a : A) : MA A := fun h => (Ok a, h).
Definition hraise {A} (e : exn) : MA A := fun h => (Raise e, h).
Definition hbind {A B} (c : MA A) (k : A -> MA B) : MA B :=
  fun h =>
    match c h with
    | (Ok a, h') => k a h'
    | (Raise e, h') => (Raise e, h')
    end.

Local Notation "'let*' x ':=' c1 'in' c2" := (hbind c1 (fun x => c2))
  (at level 10, x name, c1 at level 100, c2 at level 200).

Fixpoint hfor_each {A} (l : list A) (body : A -> MA unit) : MA unit :=
  match l with
  | [] => hret tt
  | x :: l' => let* _ := body x in hfor_each l' body
  end.

Definition get_object (name : string) : MA object :=
  fun h => (of_option (h !! name) (DanglingReference name), h).

(** [getattr(module, key)] *)
Definition getattr (h : gmap string object) (module key : string) : result V :=
  let? o := of_option (h !! module) (DanglingReference module) in
  match instance_dict o !! key with
  | Some v => Ok v
  | None => of_option (class_dict o !! key) (AttributeError key)
  end.

(** [setattr(module, key, value)] *)
Definition setattr (module key : string) (value : V) : MA unit :=
  fun h =>
    match h !! module with
    | Some o =>
        (Ok tt,
         <[module := Object (<[key := value]> (instance_dict o)) (class_dict o)]> h)
    | None => (Raise (DanglingReference module), h)
    end.

(** [delattr(module, key)]: only an attribute of the instance can be
    deleted. *)
Definition delattr (module key : string) : MA unit :=
  fun h =>
    match h !! module with
    | Some o =>
        match instance_dict o !! key with
        | Some _ =>
            (Ok tt,
             <[module := Object (delete key (instance_dict o)) (class_dict o)]> h)
        | None => (Raise (AttributeError key), h)
        end
    | None => (Raise (DanglingReference module), h)
    end.

(** The fields of an [AttributeCanonizer]. A dict of attributes is the
    list of its items in insertion order. *)
Record canonizer : Type := Canonizer {
  attribute_map : string -> object -> option (list (string * V));
  attribute_keys : option (list string);
  module : option string
}.

(** [__init__] *)
Definition init (attribute_map : string -> object -> option (list (string * V)))
  : canonizer :=
  Canonizer attribute_map None None.

Definition copy (self : canonizer) : canonizer := init (attribute_map self).

(** [register] assigns two fields of [self]: the canonizer it returns is
    [self] afterwards. *)
Definition register (self : canonizer) (module : string)
    (attributes : list (string * V)) : MA canonizer :=
  let self := Canonizer (attribute_map self) (Some (map fst attributes))
                (Some module) in
  let* _ := hfor_each attributes (fun kv => setattr module (fst kv) (snd kv)) in
  hret self.

Definition remove (self : canonizer) : MA unit :=
  match attribute_keys self with
  | None => hraise (TypeError "'NoneType' object is not iterable")
  | Some keys =>
      hfor_each keys (fun key =>
        match module self with
        | Some m => delattr m key
        | None => hraise (AttributeError key)
        end)
  end.

(** The loop of [apply] over [root_module.named_modules()]. *)
Fixpoint apply_loop (self : canonizer) (named_modules : list string)
    (instances : list canonizer) : MA (list canonizer) :=
  match named_modules with
  | [] => hret instances
  | name :: rest =>
      let* module := get_object name in
      match attribute_map self name module with
      | Some attributes =>
          let instance := copy self in
          let* instance := register instance name attributes in
          apply_loop self rest (instances ++ [instance])
      | None => apply_loop self rest instances
      end
  end.

(** [apply], with what [root_module.named_modules()] yields. *)
Definition apply (self : canonizer) (named_modules : list string)
  : MA (list canonizer) :=
  apply_loop self named_modules [].

(** [for instance in instances: instance.remove()] *)
Definition remove_all (instances : list canonizer) : MA unit :=
  hfor_each instances remove.

End Objects.

Arguments object : clear implicits.
Arguments canonizer : clear implicits.
Arguments MA : clear implicits.

End AttributeCanonizer.

(** ** Footprints of the attribute overloading *)

(** The module [o] with the attributes set on the instance. *)
Definition overload {V} (attributes : list (string * V))
    (o : AttributeCanonizer.object V) : AttributeCanonizer.object V :=
  AttributeCanonizer.Object
    (foldl (fun d kv => <[fst kv := snd kv]> d)
       (AttributeCanonizer.instance_dict o) attributes)
    (AttributeCanonizer.class_dict o).

(** The module [o] without the instance attributes [keys]. *)
Definition strip {V} (keys : list string)
    (o : AttributeCanonizer.object V) : AttributeCanonizer.object V :=
  AttributeCanonizer.Object
    (foldl (fun d k => delete k d) (AttributeCanonizer.instance_dict o) keys)
    (AttributeCanonizer.class_dict o).

(** The keys [attribute_map] gives for the module [name] of [h], if any. *)
Definition overloaded_keys {V} (self : AttributeCanonizer.canonizer V)
    (h : gmap string (AttributeCanonizer.object V)) (name : string) : option (list (string * V)) :=
  match h !! name with
  | Some o => AttributeCanonizer.attribute_map self name o
  | None => None
  end.

(** The instance [apply] registers for the module [name] of [h], if
    any. *)
Definition applied_instance {V} (self : AttributeCanonizer.canonizer V)
    (h : gmap string (AttributeCanonizer.object V)) (name : string)
  : option (AttributeCanonizer.canonizer V) :=
  match overloaded_keys self h name with
  | Some attributes =>
      Some (AttributeCanonizer.Canonizer (AttributeCanonizer.attribute_map self)
              (Some (map fst attributes)) (Some name))
  | None => None
  end.

(** A model of three modules, with the names of the functions as
    attribute values: the root, a block whose instance already has an
    attribute [forward], and a layer of another class. *)
Definition ex_attr_block : AttributeCanonizer.object string :=
  AttributeCanonizer.Object (<["forward" := "patched"]> ∅)
    (<["forward" := "Block.forward"]> ∅).

Definition ex_attr_modules : gmap string (AttributeCanonizer.object string) :=
  <["net" := AttributeCanonizer.Object ∅ (<["forward" := "Net.forward"]> ∅)]>
  (<["net.block" := ex_attr_block]>
  (<["net.fc" := AttributeCanonizer.Object ∅ (<["forward" := "Linear.forward"]> ∅)]>
   ∅)).

Definition ex_attrs : list (string * string) :=
  [("forward", "canonized"); ("tag", "1")].

(** Overloads [forward] and sets [tag] on the modules whose class
    [forward] is [Block.forward]. *)
Definition ex_attr_canonizer : AttributeCanonizer.canonizer string :=
  AttributeCanonizer.init (fun name o =>
    if bool_decide (AttributeCanonizer.class_dict o !! "forward" = Some "Block.forward")
    then Some ex_attrs
    else None).

(** * Theorems *)

(** ** The monad *)

Lemma bindM_ok {A B} (c : M A) (k : A -> M B) s a s' :
  c s = (Ok a, s') -> bindM c k s = k a s'.
Proof. intros H. unfold bindM. now rewrite H. Qed.

Lemma bindM_raise {A B} (c : M A) (k : A -> M B) s e s' :
  c s = (Raise e, s') -> bindM c k s = (Raise e, s').
Proof. intros H. unfold bindM. now rewrite H. Qed.

Lemma bindM_inv_ok {A B} (c : M A) (k : A -> M B) s b s2 :
  bindM c k s = (Ok b, s2) ->
  exists a s1, c s = (Ok a, s1) /\ k a s1 = (Ok b, s2).
Proof.
  unfold bindM. destruct (c s) as [[a|e] s1]; intros H.
  - exists a, s1. auto.
  - discriminate.
Qed.

Lemma bindM_assoc {A B C} (c : M A) (k : A -> M B) (h : B -> M C) s :
  bindM (bindM c k) h s = bindM c (fun a => bindM (k a) h) s.
Proof. unfold bindM. destruct (c s) as [[a|e] s1]; reflexivity. Qed.

(** ** CompositeCanonizer *)

Lemma composite_apply_loop canonizers root_module : forall instances s,
  CompositeCanonizer.apply_loop canonizers root_module instances s =
  bindM (map_M (fun c => c root_module) canonizers)
        (fun ls => ret (instances ++ concat ls)) s.
Proof.
  induction canonizers as [|c rest IH]; intros instances s; simpl.
  - unfold bindM, ret. simpl. now rewrite app_nil_r.
  - rewrite bindM_assoc.
    destruct (c root_module s) as [[l|e] s1] eqn:E.
    + rewrite !(bindM_ok _ _ _ _ _ E), IH, bindM_assoc.
      destruct (map_M (fun c0 : CompositeCanonizer.canonizer => c0 root_module) rest s1)
        as [[ls|e] s2] eqn:E2.
      * rewrite !(bindM_ok _ _ _ _ _ E2). unfold bindM, ret. simpl.
        now rewrite app_assoc.
      * now rewrite !(bindM_raise _ _ _ _ _ E2).
    + now rewrite !(bindM_raise _ _ _ _ _ E).
Qed.

(** C9: [CompositeCanonizer.apply] runs the [apply] of every constituent in
    the order of the list, each on the store the previous one left, and
    returns the reverse of the concatenation of their instance lists; it
    stops at the first constituent that raises.  [register] and [remove]
    of the composite return without touching the store. *)
Theorem composite_apply_reversed canonizers root_module s :
  CompositeCanonizer.apply canonizers root_module s =
    bindM (map_M (fun c => c root_module) canonizers)
          (fun ls => ret (rev (concat ls))) s
  /\ CompositeCanonizer.register s = (Ok tt, s)
  /\ CompositeCanonizer.remove s = (Ok tt, s).
Proof.
  split; [|split; reflexivity].
  unfold CompositeCanonizer.apply.
  unfold bindM at 1. rewrite composite_apply_loop.
  destruct (map_M (fun c : CompositeCanonizer.canonizer => c root_module) canonizers s)
    as [[ls|e] s1] eqn:E.
  - now rewrite !(bindM_ok _ _ _ _ _ E).
  - now rewrite !(bindM_raise _ _ _ _ _ E).
Qed.

Lemma bindM_ret {A B} (a : A) (k : A -> M B) s : bindM (ret a) k s = k a s.
Proof. reflexivity. Qed.

(** ** ThreshReLUMergeBatchNorm.apply *)

Lemma is_instance_cases obj T s :
  (exists b, is_instance obj T s = (Ok b, s)) \/
  (exists n, is_instance obj T s = (Raise (DanglingReference n), s)).
Proof.
  destruct obj as [name|]; simpl.
  - unfold bindM, get_module, ret. destruct (modules s !! name); simpl; eauto.
  - left. exists false. reflexivity.
Qed.

Lemma load_ReLU_unbound s :
  load_global canonizers_globals "ReLU" s = (Raise (NameError "ReLU"), s).
Proof. reflexivity. Qed.

Lemma thresh_loop_without_names : forall leaves oldest old mid s,
  is_instance oldest BatchNorm s = (Ok false, s) ->
  let r := ThreshReLUMergeBatchNorm.apply_loop canonizers_globals leaves oldest old mid [] s in
  r = (Ok [], s) \/ r = (Raise (NameError "ReLU"), s)
  \/ exists n, r = (Raise (DanglingReference n), s).
Proof.
  induction leaves as [|leaf rest IH]; intros oldest old mid s Hold; simpl.
  - left. reflexivity.
  - rewrite bindM_assoc.
    destruct (is_instance_cases old BatchNorm s) as [[b E]|[n E]].
    + rewrite (bindM_ok _ _ _ _ _ E). destruct b.
      * right. left. rewrite bindM_assoc, (bindM_raise _ _ _ _ _ (load_ReLU_unbound s)).
        reflexivity.
      * rewrite bindM_ret. cbv beta iota.
        rewrite !bindM_assoc, (bindM_ok _ _ _ _ _ Hold). rewrite !bindM_ret.
        cbv beta iota. rewrite ?bindM_ret. apply IH. exact E.
    + right. right. exists n. now rewrite (bindM_raise _ _ _ _ _ E).
Qed.

(** X5: whatever the leaves and the store are, [apply] registers nothing
    and leaves the store as it was: it returns the empty list, or raises
    [NameError] on the name [ReLU], or fails on a leaf name the store does
    not hold. *)
Theorem thresh_apply_without_names root_module s :
  let r := ThreshReLUMergeBatchNorm.apply root_module s in
  r = (Ok [], s) \/ r = (Raise (NameError "ReLU"), s)
  \/ exists n, r = (Raise (DanglingReference n), s).
Proof.
  apply thresh_loop_without_names. reflexivity.
Qed.

(** C6: on the leaves BatchNorm2d, ReLU, Conv2d, which form the 3-wide
    pattern, [apply] registers nothing: evaluating the name [ReLU], which
    the file never binds, raises [NameError], and the store is left as it
    was. *)
Theorem thresh_apply_raises_NameError :
  ThreshReLUMergeBatchNorm.apply (Root ["bn"; "relu"; "conv"]) ex_thresh
  = (Raise (NameError "ReLU"), ex_thresh).
Proof. vm_compute. reflexivity. Qed.

(** ** SequentialMergeBatchNorm.apply *)

(** C7: a transposed convolution with 3 input and 5 output channels
    followed by a batch norm over 5 channels is Linear-kind followed by
    Normalization-kind with equal channel counts, yet [apply] compares
    axis 0 of the weight (the 3 input channels) with 5 and registers
    nothing. *)
Theorem sequential_apply_skips_transposed :
  (exists m n g,
      modules ex_transposed !! "deconv" = Some m /\ modules ex_transposed !! "bn" = Some n
      /\ Linear (cls m) = true /\ ConvolutionTranspose (cls m) = true
      /\ BatchNorm (cls n) = true
      /\ out_channels m = Ok 5 /\ weight n = Some g /\ shape g = [5])
  /\ SequentialMergeBatchNorm.apply (Root ["deconv"; "bn"]) ex_transposed
     = (Ok [], ex_transposed).
Proof.
  split.
  - eexists _, _, _. repeat split; reflexivity.
  - vm_compute. reflexivity.
Qed.

(** ** NamedMergeBatchNorm.apply *)

Lemma register_retag k k' ls bn s :
  MergeBatchNorm.register k' ls bn s =
  match MergeBatchNorm.register k ls bn s with
  | (Ok i, s') =>
      (Ok (Instance k' (linears i) (batch_norm i) (batch_norm_eps i) (linear_params i)
             (batch_norm_params i) (handles i) (relu i)), s')
  | (Raise e, s') => (Raise e, s')
  end.
Proof.
  unfold MergeBatchNorm.register, bindM, ret.
  destruct (map_M linear_param ls s) as [[lp|e] s1]; [|reflexivity].
  destruct (snapshot_batch_norm bn s1) as [[bp|e] s2]; [|reflexivity].
  destruct (get_eps bn s2) as [[ep|e] s3]; [|reflexivity].
  destruct (MergeBatchNorm.merge_batch_norm ls bn s3) as [[[]|e] s4]; reflexivity.
Qed.

Lemma named_loop_app nm lookup pre rest : forall acc s,
  NamedMergeBatchNorm.apply_loop nm lookup (pre ++ rest) acc s =
  bindM (NamedMergeBatchNorm.apply_loop nm lookup pre acc)
        (fun acc' => NamedMergeBatchNorm.apply_loop nm lookup rest acc') s.
Proof.
  induction pre as [|[lns bn] pre IH]; intros acc s; simpl.
  - reflexivity.
  - rewrite !bindM_assoc.
    destruct (map_M (NamedMergeBatchNorm.lookup_name lookup) lns s) as [[ls|e] s1] eqn:E1;
      [|now rewrite !(bindM_raise _ _ _ _ _ E1)].
    rewrite !(bindM_ok _ _ _ _ _ E1), !bindM_assoc.
    destruct (NamedMergeBatchNorm.lookup_name lookup bn s1) as [[b|e] s2] eqn:E2;
      [|now rewrite !(bindM_raise _ _ _ _ _ E2)].
    rewrite !(bindM_ok _ _ _ _ _ E2), !bindM_assoc.
    destruct (MergeBatchNorm.register (K_NamedMergeBatchNorm nm) ls b s2)
      as [[i|e] s3] eqn:E3; [|now rewrite !(bindM_raise _ _ _ _ _ E3)].
    rewrite !(bindM_ok _ _ _ _ _ E3). apply IH.
Qed.

Lemma named_loop_retag nm nm' lookup pairs : forall acc acc' s insts s1,
  NamedMergeBatchNorm.apply_loop nm lookup pairs acc s = (Ok insts, s1) ->
  exists insts', NamedMergeBatchNorm.apply_loop nm' lookup pairs acc' s = (Ok insts', s1).
Proof.
  induction pairs as [|[lns bn] pairs IH]; intros acc acc' s insts s1; simpl.
  - unfold ret. intros [= _ <-]. eauto.
  - intros H.
    apply bindM_inv_ok in H as (ls & sa & E1 & H).
    apply bindM_inv_ok in H as (b & sb & E2 & H).
    apply bindM_inv_ok in H as (i & sc & E3 & H).
    rewrite (bindM_ok _ _ _ _ _ E1), (bindM_ok _ _ _ _ _ E2).
    assert (E3' := register_retag (K_NamedMergeBatchNorm nm) (K_NamedMergeBatchNorm nm') ls b sb).
    rewrite E3 in E3'. rewrite (bindM_ok _ _ _ _ _ E3').
    eapply IH. exact H.
Qed.

Lemma lookup_names_missing lookup bn x {A} : forall lns (k : list string -> string -> M A) s,
  first_missing lookup (lns ++ [bn]) = Some x ->
  bindM (map_M (NamedMergeBatchNorm.lookup_name lookup) lns)
        (fun ls => bindM (NamedMergeBatchNorm.lookup_name lookup bn)
                     (fun b => k ls b)) s = (Raise (KeyError x), s).
Proof.
  unfold first_missing.
  induction lns as [|n lns IH]; intros k s; simpl.
  - case_bool_decide as Hn; [|discriminate]. intros [= <-].
    unfold bindM, ret, NamedMergeBatchNorm.lookup_name. now rewrite Hn.
  - case_bool_decide as Hn.
    + intros [= <-]. unfold bindM, NamedMergeBatchNorm.lookup_name. now rewrite Hn.
    + intros H. rewrite !bindM_assoc.
      unfold NamedMergeBatchNorm.lookup_name at 1.
      destruct (lookup !! n) eqn:En; [|congruence].
      rewrite bindM_ret, !bindM_assoc.
      specialize (IH (fun ls b => k (n :: ls) b) s H). revert IH. unfold bindM, ret.
      destruct (map_M (NamedMergeBatchNorm.lookup_name lookup) lns s) as [[ls|e] s1];
        [|now intros].
      simpl. now intros.
Qed.

(** C8, as amended: when the pairs before a pair with an absent name
    register without error, [apply] on the whole map raises [KeyError] with
    the first absent name of that pair (its linear names in order, then
    its batch norm name), and the store it leaves is the one those earlier
    registrations produced: they are not undone, and neither the failing
    pair nor a later one is touched. *)
Theorem named_apply_missing_name pre lns bn post root_module s insts s1 x :
  NamedMergeBatchNorm.apply pre root_module s = (Ok insts, s1) ->
  first_missing (modules s) (lns ++ [bn]) = Some x ->
  NamedMergeBatchNorm.apply (pre ++ (lns, bn) :: post) root_module s
  = (Raise (KeyError x), s1).
Proof.
  unfold NamedMergeBatchNorm.apply. intros Hpre Hx.
  destruct (named_loop_retag pre (pre ++ (lns, bn) :: post) _ _ _ [] _ _ _ Hpre)
    as [insts' Hpre'].
  rewrite named_loop_app, (bindM_ok _ _ _ _ _ Hpre'). simpl.
  apply (lookup_names_missing (modules s) bn x lns
           (fun ls bn0 =>
              let! inst := MergeBatchNorm.register
                             (K_NamedMergeBatchNorm (pre ++ (lns, bn) :: post)) ls bn0 in
              NamedMergeBatchNorm.apply_loop (pre ++ (lns, bn) :: post) (modules s) post
                (insts' ++ [inst]))).
  exact Hx.
Qed.

Lemma named_apply_missing_name_witness :
  first_missing (modules ex_named) (["nope"] ++ ["bn"]) = Some "nope" /\
  NamedMergeBatchNorm.apply ([(["fc"], "bn")] ++ (["nope"], "bn") :: []) (Root []) ex_named
  = (Raise (KeyError "nope"),
     snd (NamedMergeBatchNorm.apply [(["fc"], "bn")] (Root []) ex_named)).
Proof.
  split; [reflexivity|].
  apply (named_apply_missing_name [(["fc"], "bn")] ["nope"] "bn" [] (Root []) ex_named
           (match fst (NamedMergeBatchNorm.apply [(["fc"], "bn")] (Root []) ex_named) with
            | Ok l => l | Raise _ => [] end)).
  - vm_compute. reflexivity.
  - reflexivity.
Defined.

(** C8, as stated, fails: with the map [fc -> bn] followed by a pair that
    names a missing module, [apply] raises [KeyError] and the node [fc] of
    the first pair stays merged. *)
Lemma named_apply_partial_registration :
  let s' := snd (NamedMergeBatchNorm.apply [(["fc"], "bn"); (["nope"], "bn")] (Root []) ex_named) in
  fst (NamedMergeBatchNorm.apply [(["fc"], "bn"); (["nope"], "bn")] (Root []) ex_named)
    = Raise (KeyError "nope")
  /\ modules s' !! "fc" <> modules ex_named !! "fc".
Proof.
  split.
  - vm_compute. reflexivity.
  - intros H. apply (f_equal (fun o => bias <$> o)) in H. vm_compute in H. discriminate.
Qed.
(** ** Inversion and evaluation of the primitive operations *)

Lemma ret_ok {A} (a b : A) s s' : ret a s = (Ok b, s') -> b = a /\ s' = s.
Proof. unfold ret. now intros [= <- <-]. Qed.

Lemma lift_ok {A} (r : result A) a s s' : lift r s = (Ok a, s') -> s' = s /\ r = Ok a.
Proof. unfold lift. now intros [= -> <-]. Qed.

Lemma of_option_ok {A} (o : option A) e a : of_option o e = Ok a -> o = Some a.
Proof. destruct o; simpl; now intros [= <-]. Qed.

Lemma get_module_ok n s m s' :
  get_module n s = (Ok m, s') -> s' = s /\ modules s !! n = Some m.
Proof.
  unfold get_module. intros [= H <-]. split; [reflexivity|]. eapply of_option_ok, H.
Qed.

Lemma get_module_eval n s m : modules s !! n = Some m -> get_module n s = (Ok m, s).
Proof. unfold get_module. now intros ->. Qed.

Lemma get_data_ok n k s t s' :
  get_data n k s = (Ok t, s') ->
  s' = s /\ exists m, modules s !! n = Some m /\ param k m = Some t.
Proof.
  unfold get_data. intros H.
  apply bindM_inv_ok in H as (m & s1 & H1 & H).
  apply get_module_ok in H1 as [-> H1]. apply lift_ok in H as [-> H].
  split; [reflexivity|]. exists m. split; [assumption|]. eapply of_option_ok, H.
Qed.

Lemma get_data_eval n k s m t :
  modules s !! n = Some m -> param k m = Some t -> get_data n k s = (Ok t, s).
Proof.
  intros Hm Hp. unfold get_data. rewrite (bindM_ok _ _ _ _ _ (get_module_eval _ _ _ Hm)).
  unfold lift. now rewrite Hp.
Qed.

Lemma get_tensor_ok n k s t s' :
  get_tensor n k s = (Ok t, s') ->
  s' = s /\ exists m, modules s !! n = Some m /\ param k m = Some t.
Proof.
  unfold get_tensor. intros H.
  apply bindM_inv_ok in H as (m & s1 & H1 & H).
  apply get_module_ok in H1 as [-> H1]. apply lift_ok in H as [-> H].
  split; [reflexivity|]. exists m. split; [assumption|]. eapply of_option_ok, H.
Qed.

Lemma get_eps_ok n s e s' :
  get_eps n s = (Ok e, s') -> s' = s /\ exists m, modules s !! n = Some m /\ eps m = Some e.
Proof.
  unfold get_eps. intros H.
  apply bindM_inv_ok in H as (m & s1 & H1 & H).
  apply get_module_ok in H1 as [-> H1]. apply lift_ok in H as [-> H].
  split; [reflexivity|]. exists m. split; [assumption|]. eapply of_option_ok, H.
Qed.

Lemma update_module_ok n f s u s' :
  update_module n f s = (Ok u, s') ->
  exists m, modules s !! n = Some m /\ s' = Store (<[n := f m]> (modules s)) (next_id s).
Proof.
  unfold update_module. destruct (modules s !! n) as [m|]; [|discriminate].
  intros [= _ <-]. eauto.
Qed.

Lemma update_module_eval n f s m :
  modules s !! n = Some m ->
  update_module n f s = (Ok tt, Store (<[n := f m]> (modules s)) (next_id s)).
Proof. unfold update_module. now intros ->. Qed.

Lemma set_data_ok n k t s u s' :
  set_data n k t s = (Ok u, s') ->
  exists m, modules s !! n = Some m /\ is_Some (param k m)
            /\ s' = Store (<[n := set_param k (Some t) m]> (modules s)) (next_id s).
Proof.
  unfold set_data. intros H.
  apply bindM_inv_ok in H as (t0 & s1 & H1 & H).
  apply get_data_ok in H1 as [-> (m & Hm & Hp)].
  apply update_module_ok in H as (m' & Hm' & ->).
  rewrite Hm in Hm'. injection Hm' as <-. exists m. repeat split; eauto.
Qed.

Lemma set_data_eval n k t s m :
  modules s !! n = Some m -> is_Some (param k m) ->
  set_data n k t s =
    (Ok tt, Store (<[n := set_param k (Some t) m]> (modules s)) (next_id s)).
Proof.
  intros Hm [t0 Hp]. unfold set_data.
  rewrite (bindM_ok _ _ _ _ _ (get_data_eval _ _ _ _ _ Hm Hp)).
  now apply update_module_eval.
Qed.

(** Decomposes a successful run into the runs of its steps. *)
Ltac minv H :=
  lazymatch type of H with
  | bindM _ _ _ = (Ok _, _) =>
      let a := fresh "v" in
      let s := fresh "s" in
      let H1 := fresh "E" in
      apply bindM_inv_ok in H as (a & s & H1 & H); cbv beta zeta in H;
      minv H1; minv H
  | ret _ _ = (Ok _, _) => apply ret_ok in H as [? ?]; subst
  | lift _ _ = (Ok _, _) =>
      apply lift_ok in H as [? H]; subst; try apply of_option_ok in H
  | get_module _ _ = (Ok _, _) => apply get_module_ok in H as [? H]; subst
  | get_data _ _ _ = (Ok _, _) => apply get_data_ok in H as [? (? & ? & H)]; subst
  | get_tensor _ _ _ = (Ok _, _) => apply get_tensor_ok in H as [? (? & ? & H)]; subst
  | get_eps _ _ = (Ok _, _) => apply get_eps_ok in H as [? (? & ? & H)]; subst
  | update_module _ _ _ = (Ok _, _) => apply update_module_ok in H as (? & ? & ?); subst
  | set_data _ _ _ _ = (Ok _, _) => apply set_data_ok in H as (? & ? & ? & ?); subst
  | _ => idtac
  end.


Lemma strip_wb_eq m m' :
  strip_wb m' = strip_wb m -> weight m' = weight m -> bias m' = bias m -> m' = m.
Proof. destruct m, m'. unfold strip_wb. simpl. intros [= -> -> -> -> -> -> -> -> ->] -> ->. reflexivity. Qed.

Lemma strip_bn_eq m m' :
  strip_bn m' = strip_bn m -> weight m' = weight m -> bias m' = bias m ->
  running_mean m' = running_mean m -> running_var m' = running_var m -> eps m' = eps m ->
  m' = m.
Proof.
  destruct m, m'. unfold strip_bn, strip_wb. simpl.
  intros [= -> -> -> -> -> ->] -> -> -> -> ->. reflexivity.
Qed.


(** ** The footprint of the left merge *)


Lemma rewritten_trans L1 L2 L3 : rewritten L1 L2 -> rewritten L2 L3 -> rewritten L1 L3.
Proof. intros (H1 & _ & _) (H2 & Hw & Hb). repeat split; congruence. Qed.

Ltac map_simpl :=
  repeat (simpl in *;
          match goal with
          | H : <[?k := _]> _ !! ?k = Some _ |- _ =>
              rewrite lookup_insert_eq in H; injection H as H; try subst
          | H : ?m !! ?k = Some ?a, H' : ?m !! ?k = Some ?b |- _ =>
              rewrite H in H'; injection H' as H'; try subst
          end).

Lemma left_body_effect scale bn l s u s' :
  MergeBatchNorm.merge_batch_norm_body scale bn l s = (Ok u, s') ->
  exists L L', modules s !! l = Some L
    /\ s' = Store (<[l := L']> (modules s)) (next_id s)
    /\ rewritten L L'.
Proof.
  unfold MergeBatchNorm.merge_batch_norm_body. intros H. minv H.
  destruct (bias v0) eqn:Eb; minv E1; map_simpl;
    (eexists _, _; split; [eassumption|]; split;
     [rewrite ?insert_insert_eq; reflexivity|]; split_and!; eauto).
Qed.

(** The store after the loop over the linear modules: the modules of the
    list are rewritten, the others are the same objects. *)
Lemma left_loop_effect scale bn : forall ls s u s',
  for_each ls (MergeBatchNorm.merge_batch_norm_body scale bn) s = (Ok u, s') ->
  next_id s' = next_id s
  /\ (forall n, n ∉ ls -> modules s' !! n = modules s !! n)
  /\ (forall n, n ∈ ls -> exists L L',
        modules s !! n = Some L /\ modules s' !! n = Some L' /\ rewritten L L').
Proof.
  induction ls as [|l ls IH]; intros s u s' H; simpl in H.
  - apply ret_ok in H as [_ ->].
    split; [reflexivity|]. split; [reflexivity|]. intros n Hn. inversion Hn.
  - apply bindM_inv_ok in H as (u1 & s1 & H1 & H).
    apply left_body_effect in H1 as (L & L' & HL & -> & HLL').
    apply IH in H as (Hid & Hout & Hin). simpl in *.
    split; [assumption|]. split.
    + intros n Hn. apply not_elem_of_cons in Hn as [Hne Hn].
      rewrite (Hout n Hn). now rewrite lookup_insert_ne.
    + intros n Hn. destruct (decide (n ∈ ls)) as [Hls|Hls].
      * destruct (Hin n Hls) as (L1 & L2 & H1 & H2 & H12).
        destruct (decide (n = l)) as [->|Hne].
        -- rewrite lookup_insert_eq in H1. injection H1 as <-.
           exists L, L2. split; [assumption|]. split; [assumption|].
           eapply rewritten_trans; eassumption.
        -- rewrite lookup_insert_ne in H1 by congruence. eauto.
      * apply elem_of_cons in Hn as [->|Hn]; [|contradiction].
        exists L, L'. rewrite (Hout l Hls), lookup_insert_eq. auto.
Qed.

Lemma batch_norm_scale_pure bn s t s' : batch_norm_scale bn s = (Ok t, s') -> s' = s.
Proof. unfold batch_norm_scale. intros H. minv H. reflexivity. Qed.

Lemma batch_norm_shift_pure bn sc s t s' : batch_norm_shift bn sc s = (Ok t, s') -> s' = s.
Proof. unfold batch_norm_shift. intros H. minv H. reflexivity. Qed.

(** [reset_batch_norm] overwrites the four parameters and [eps] of the
    batch norm and nothing else. *)
Lemma reset_batch_norm_effect bn s u s' :
  reset_batch_norm bn s = (Ok u, s') ->
  exists N N', modules s !! bn = Some N
    /\ s' = Store (<[bn := N']> (modules s)) (next_id s)
    /\ strip_bn N' = strip_bn N
    /\ is_Some (weight N') /\ is_Some (bias N')
    /\ is_Some (running_mean N') /\ is_Some (running_var N').
Proof.
  unfold reset_batch_norm. intros H. minv H. map_simpl.
  eexists _, _. split; [eassumption|]. split; [rewrite ?insert_insert_eq; reflexivity|].
  split_and!; eauto.
Qed.

Lemma linear_param_ok l s p s' :
  linear_param l s = (Ok p, s') ->
  s' = s /\ exists L, modules s !! l = Some L /\ weight L = Some (fst p) /\ bias L = snd p.
Proof.
  unfold linear_param. intros H. minv H. map_simpl. split; [reflexivity|]. eauto.
Qed.

Lemma linear_params_ok : forall ls s lp s',
  map_M linear_param ls s = (Ok lp, s') ->
  s' = s /\ Forall2 (fun l p => exists L, modules s !! l = Some L
                                  /\ weight L = Some (fst p) /\ bias L = snd p) ls lp.
Proof.
  induction ls as [|l ls IH]; intros s lp s' H; simpl in H.
  - apply ret_ok in H as [-> ->]. auto.
  - apply bindM_inv_ok in H as (p & s1 & H1 & H).
    apply linear_param_ok in H1 as [-> HL].
    apply bindM_inv_ok in H as (ps & s2 & H2 & H).
    apply IH in H2 as [-> Hps]. apply ret_ok in H as [-> ->]. auto.
Qed.

Lemma snapshot_batch_norm_ok bn s bp s' :
  snapshot_batch_norm bn s = (Ok bp, s') ->
  s' = s /\ exists N g be mu var,
    modules s !! bn = Some N /\ weight N = Some g /\ bias N = Some be
    /\ running_mean N = Some mu /\ running_var N = Some var
    /\ bp = [("weight", g); ("bias", be); ("running_mean", mu); ("running_var", var)].
Proof.
  unfold snapshot_batch_norm. simpl. intros H. minv H. map_simpl.
  split; [reflexivity|]. eexists _, _, _, _, _. split_and!; eauto.
Qed.

(** ** Evaluation of [remove] *)



Lemma restore_wb_rewritten L L' : rewritten L L' -> restore_wb L L' = L.
Proof.
  intros (H & _ & _). apply strip_wb_eq; [|reflexivity..].
  destruct L, L'. unfold strip_wb, restore_wb in *. simpl in *.
  injection H as -> -> -> -> -> -> -> -> ->. reflexivity.
Qed.

Lemma restore_bn_stripped N N' : strip_bn N' = strip_bn N -> restore_bn N N' = N.
Proof.
  intros H. apply strip_bn_eq; [|reflexivity..].
  destruct N, N'. unfold strip_bn, strip_wb, restore_bn in *. simpl in *.
  injection H as -> -> -> -> -> ->. reflexivity.
Qed.

(** The first loop of [remove] puts the recorded weight and bias back on
    every linear module and touches nothing else. *)
Lemma remove_loop_eval (orig : gmap string nn_module) : forall ls lp s1,
  Forall2 (fun l p => exists L, orig !! l = Some L
                       /\ weight L = Some (fst p) /\ bias L = snd p) ls lp ->
  (forall n, n ∈ ls -> exists L L1,
      orig !! n = Some L /\ modules s1 !! n = Some L1
      /\ is_Some (weight L1) /\ (is_Some (bias L) -> is_Some (bias L1))) ->
  exists s2,
    for_each (zip ls lp) MergeBatchNorm.remove_body s1 = (Ok tt, s2)
    /\ next_id s2 = next_id s1
    /\ (forall n, n ∉ ls -> modules s2 !! n = modules s1 !! n)
    /\ (forall n, n ∈ ls -> exists L L1,
          orig !! n = Some L /\ modules s1 !! n = Some L1
          /\ modules s2 !! n = Some (restore_wb L L1)).
Proof.
  intros ls lp s1 HF. revert s1.
  induction HF as [|l [W b] ls lp (L & HL & HW & Hb) HF IH]; intros s1 Hinv.
  - exists s1. simpl. split; [reflexivity|]. split; [reflexivity|].
    split; [reflexivity|]. intros n Hn. inversion Hn.
  - simpl in HW, Hb.
    destruct (Hinv l) as (L0 & L1 & HL0 & HL1 & Hw1 & Hb1); [left|].
    rewrite HL in HL0. injection HL0 as <-.
    set (s1' := Store (<[l := restore_wb L L1]> (modules s1)) (next_id s1)).
    assert (Hbody : MergeBatchNorm.remove_body (l, (W, b)) s1 = (Ok tt, s1')).
    { unfold MergeBatchNorm.remove_body. simpl.
      rewrite (bindM_ok _ _ _ _ _ (set_data_eval l "weight" W s1 L1 HL1 Hw1)).
      destruct b as [b|].
      - erewrite set_data_eval; [|simpl; apply lookup_insert_eq|].
        + unfold s1', restore_wb. simpl. rewrite insert_insert_eq, HW, Hb. reflexivity.
        + simpl. apply Hb1. rewrite Hb. eauto.
      - erewrite update_module_eval; [|simpl; apply lookup_insert_eq].
        unfold s1', restore_wb. simpl. rewrite insert_insert_eq, HW, Hb. reflexivity. }
    destruct (IH s1') as (s2 & Hrun & Hid & Hout & Hin).
    { intros n Hn. destruct (Hinv n) as (La & Lb & Ha & Hb' & Hwa & Hba); [now right|].
      unfold s1'. simpl. destruct (decide (n = l)) as [->|Hne].
      - rewrite HL in Ha. injection Ha as <-. rewrite HL1 in Hb'. injection Hb' as <-.
        exists L, (restore_wb L L1). rewrite lookup_insert_eq.
        split_and!; eauto.
      - exists La, Lb. rewrite lookup_insert_ne by congruence. auto. }
    exists s2. simpl. rewrite (bindM_ok _ _ _ _ _ Hbody).
    split; [exact Hrun|]. split; [rewrite Hid; reflexivity|]. split.
    + intros n Hn. apply not_elem_of_cons in Hn as [Hne Hn].
      rewrite (Hout n Hn). unfold s1'. simpl. now rewrite lookup_insert_ne.
    + intros n Hn. destruct (decide (n ∈ ls)) as [Hls|Hls].
      * destruct (Hin n Hls) as (La & Lb & Ha & Hb' & Hc).
        unfold s1' in Hb'. simpl in Hb'.
        destruct (decide (n = l)) as [->|Hne].
        -- rewrite lookup_insert_eq in Hb'. injection Hb' as <-.
           rewrite HL in Ha. injection Ha as <-.
           exists L, L1. split_and!; auto.
        -- rewrite lookup_insert_ne in Hb' by congruence. eauto.
      * apply elem_of_cons in Hn as [->|Hn]; [|contradiction].
        exists L, L1. split_and!; auto.
        rewrite (Hout l Hls). unfold s1'. simpl. now rewrite lookup_insert_eq.
Qed.

(** The second loop of [remove] and the assignment of [eps]. *)
Lemma remove_batch_norm_eval bn N N1 g be mu var e s1 :
  modules s1 !! bn = Some N1 ->
  weight N = Some g -> bias N = Some be -> running_mean N = Some mu ->
  running_var N = Some var -> eps N = Some e ->
  is_Some (weight N1) -> is_Some (bias N1) ->
  is_Some (running_mean N1) -> is_Some (running_var N1) ->
  (for_each [("weight", g); ("bias", be); ("running_mean", mu); ("running_var", var)]
     (fun kv => set_data bn (fst kv) (snd kv)) ;;
   update_module bn (set_eps (Some e))) s1
  = (Ok tt, Store (<[bn := restore_bn N N1]> (modules s1)) (next_id s1)).
Proof.
  intros H1 Hg Hbe Hmu Hvar He Hw Hb Hm Hv. simpl.
  rewrite !bindM_assoc.
  erewrite bindM_ok; [|apply set_data_eval; [eassumption|exact Hw]].
  rewrite !bindM_assoc.
  erewrite bindM_ok; [|apply set_data_eval; [simpl; apply lookup_insert_eq|exact Hb]].
  rewrite !bindM_assoc.
  erewrite bindM_ok; [|apply set_data_eval; [simpl; apply lookup_insert_eq|exact Hm]].
  rewrite !bindM_assoc.
  erewrite bindM_ok; [|apply set_data_eval; [simpl; apply lookup_insert_eq|exact Hv]].
  rewrite bindM_ret.
  erewrite update_module_eval; [|simpl; apply lookup_insert_eq].
  simpl. rewrite !insert_insert_eq. unfold restore_bn.
  rewrite Hg, Hbe, Hmu, Hvar, He. reflexivity.
Qed.

(** ** Hooks and canonization attributes *)

Lemma register_forward_hook_ok n f s h s' :
  register_forward_hook n f s = (Ok h, s') ->
  exists m, modules s !! n = Some m
    /\ h = Handle n ForwardHooks (next_id s)
    /\ s' = Store (<[n := set_forward_hooks (forward_hooks m ++ [(next_id s, f)]) m]>
                     (modules s)) (S (next_id s)).
Proof.
  unfold register_forward_hook, fresh_id. intros H. minv H.
  injection E0 as <- <-. minv E1. map_simpl. eauto.
Qed.

Lemma register_forward_pre_hook_ok n f s h s' :
  register_forward_pre_hook n f s = (Ok h, s') ->
  exists m, modules s !! n = Some m
    /\ h = Handle n ForwardPreHooks (next_id s)
    /\ s' = Store (<[n := set_forward_pre_hooks (forward_pre_hooks m ++ [(next_id s, f)]) m]>
                     (modules s)) (S (next_id s)).
Proof.
  unfold register_forward_pre_hook, fresh_id. intros H. minv H.
  injection E0 as <- <-. minv E1. map_simpl. eauto.
Qed.

Lemma set_canonization_param_ok n k t s u s' :
  set_canonization_param n k t s = (Ok u, s') ->
  exists m cp, modules s !! n = Some m /\ canonization_params m = Some cp
    /\ s' = Store (<[n := set_canonization_params (Some (<[k := t]> cp)) m]> (modules s))
              (next_id s).
Proof.
  unfold set_canonization_param, get_canonization_params. intros H. minv H.
  map_simpl. eauto.
Qed.

Lemma del_canonization_params_eval n s m :
  modules s !! n = Some m -> is_Some (canonization_params m) ->
  del_canonization_params n s
  = (Ok tt, Store (<[n := set_canonization_params None m]> (modules s)) (next_id s)).
Proof.
  intros Hm [cp Hcp]. unfold del_canonization_params, get_canonization_params.
  rewrite !bindM_assoc, (bindM_ok _ _ _ _ _ (get_module_eval _ _ _ Hm)).
  unfold bindM, lift. rewrite Hcp. simpl.
  now apply update_module_eval.
Qed.

Lemma handle_remove_eval h s m :
  modules s !! h_module h = Some m ->
  handle_remove h s
  = (Ok tt,
     Store (<[h_module h :=
               match h_dict h with
               | ForwardPreHooks =>
                   set_forward_pre_hooks (drop_id (h_id h) (forward_pre_hooks m)) m
               | ForwardHooks => set_forward_hooks (drop_id (h_id h) (forward_hooks m)) m
               end]> (modules s)) (next_id s)).
Proof. intros Hm. unfold handle_remove, update_module. now rewrite Hm. Qed.

(** Removing a fresh id from a dictionary extended with it gives the
    dictionary back. *)
Lemma drop_id_fresh id f hooks bound :
  Forall (fun e : nat * hook => fst e < bound) hooks -> bound <= id ->
  drop_id id (hooks ++ [(id, f)]) = hooks.
Proof.
  intros H Hle. unfold drop_id.
  induction H as [|e hooks He H IH]; simpl.
  - rewrite filter_cons. destruct (decide (fst (id, f) <> id)) as [Hd|Hd]; [|reflexivity].
    now contradiction Hd.
  - rewrite filter_cons. destruct (decide (fst e <> id)) as [Hd|Hd].
    + now rewrite IH.
    + exfalso. apply Hd. lia.
Qed.

Ltac minv2 H :=
  lazymatch type of H with
  | bindM _ _ _ = (Ok _, _) =>
      let a := fresh "v" in
      let s := fresh "s" in
      let H1 := fresh "E" in
      apply bindM_inv_ok in H as (a & s & H1 & H); cbv beta zeta in H;
      minv2 H1; minv2 H
  | register_forward_hook _ _ _ = (Ok _, _) =>
      apply register_forward_hook_ok in H as (? & ? & ? & ?); subst
  | register_forward_pre_hook _ _ _ = (Ok _, _) =>
      apply register_forward_pre_hook_ok in H as (? & ? & ? & ?); subst
  | set_canonization_param _ _ _ _ = (Ok _, _) =>
      apply set_canonization_param_ok in H as (? & ? & ? & ? & ?); subst
  | _ => minv H
  end.



Lemma right_body_effect scale shift l s hs s' :
  MergeBatchNormtoRight.merge_batch_norm_body scale shift l s = (Ok hs, s') ->
  exists L L', modules s !! l = Some L
    /\ modules s' = <[l := L']> (modules s)
    /\ strip_right L' = strip_right L
    /\ is_Some (weight L') /\ is_Some (bias L')
    /\ if padded_conv L
       then hs = [Handle l ForwardHooks (next_id s)]
            /\ next_id s' = S (next_id s)
            /\ forward_hooks L' = forward_hooks L ++ [(next_id s, convhook_fn)]
            /\ is_Some (canonization_params L')
       else hs = [] /\ next_id s' = next_id s
            /\ forward_hooks L' = forward_hooks L
            /\ canonization_params L' = canonization_params L.
Proof.
  unfold MergeBatchNormtoRight.merge_batch_norm_body, padded_conv. intros H. minv H.
  match goal with
  | H1 : modules s !! l = Some ?a, H2 : modules s !! l = Some ?b |- _ =>
      assert (b = a) by congruence; subst b; clear H2; rename a into L
  end.
  assert (Hs0 : exists L0, modules s0 !! l = Some L0 /\ next_id s0 = next_id s
                  /\ modules s0 = <[l := L0]> (modules s)
                  /\ strip_wb L0 = strip_wb L /\ is_Some (bias L0)
                  /\ weight L0 = weight L).
  { destruct (bias L) eqn:Eb; minv E1; simpl in *.
    - exists L. split_and!; eauto. now rewrite insert_id.
    - match goal with
      | H1 : modules s !! l = Some ?a, H2 : modules s !! l = Some ?b |- _ =>
          assert (b = a) by congruence; subst b; clear H2
      end.
      eexists. rewrite lookup_insert_eq. split_and!; eauto. }
  clear E1. destruct Hs0 as (L0 & HL0 & Hid0 & Hmods0 & Hstrip0 & HbL0 & HwL0).
  repeat match goal with
         | H2 : modules s0 !! l = Some ?b |- _ =>
             lazymatch b with
             | L0 => fail
             | _ => assert (b = L0) by congruence; subst b; clear H2
             end
         end.
  exists L.
  assert (Hsame : forward_hooks L0 = forward_hooks L
                  /\ canonization_params L0 = canonization_params L).
  { destruct L, L0. unfold strip_wb in Hstrip0. simpl in *.
    injection Hstrip0 as -> -> -> -> -> -> -> -> ->. auto. }
  destruct Hsame as [Hfh Hcp].
  destruct (bool_decide (cls L = nn_Conv2d)) eqn:Hc;
    [destruct (bool_decide (padding L = [0; 0])) eqn:Hp
    |destruct (bool_decide (cls L = nn_Linear)) eqn:Hl];
    simpl; minv2 H; map_simpl; rewrite ?Hmods0, ?insert_insert_eq, ?Hid0;
    (eexists; split_and!;
     [eassumption | reflexivity
     | clear -Hstrip0; destruct L, L0; unfold strip_right, strip_wb in *; simpl in *;
       injection Hstrip0 as -> -> -> -> -> -> -> -> ->; reflexivity
     | simpl; rewrite ?Hfh, ?Hcp; eauto ..]).
Qed.

(** ** Register followed by remove *)

Lemma left_merge_effect ls bn s u s' :
  bn ∉ ls ->
  MergeBatchNorm.merge_batch_norm ls bn s = (Ok u, s') ->
  next_id s' = next_id s
  /\ (forall n, n ∉ ls -> n <> bn -> modules s' !! n = modules s !! n)
  /\ (forall n, n ∈ ls -> exists L L',
        modules s !! n = Some L /\ modules s' !! n = Some L' /\ rewritten L L')
  /\ (exists N N', modules s !! bn = Some N /\ modules s' !! bn = Some N'
        /\ strip_bn N' = strip_bn N
        /\ is_Some (weight N') /\ is_Some (bias N')
        /\ is_Some (running_mean N') /\ is_Some (running_var N')).
Proof.
  intros Hbn H. unfold MergeBatchNorm.merge_batch_norm in H.
  apply bindM_inv_ok in H as (scale & s0 & Hsc & H).
  apply batch_norm_scale_pure in Hsc as ->.
  apply bindM_inv_ok in H as (u1 & s1 & Hloop & H).
  apply left_loop_effect in Hloop as (Hid & Hout & Hin).
  apply reset_batch_norm_effect in H as (N & N' & HN & -> & HNN'). simpl.
  split; [assumption|]. split; [|split].
  - intros n Hn Hne. rewrite lookup_insert_ne by congruence. auto.
  - intros n Hn. destruct (Hin n Hn) as (L & L' & HL & HL' & HLL').
    exists L, L'. rewrite lookup_insert_ne by (intros ->; contradiction). auto.
  - exists N, N'. rewrite lookup_insert_eq, <- (Hout bn Hbn). auto.
Qed.

Lemma left_roundtrip k ls bn s inst s' :
  bn ∉ ls ->
  MergeBatchNorm.register k ls bn s = (Ok inst, s') ->
  exists s'', MergeBatchNorm.remove inst s' = (Ok tt, s'')
    /\ modules s'' = modules s /\ next_id s'' = next_id s.
Proof.
  intros Hbn H. unfold MergeBatchNorm.register in H.
  apply bindM_inv_ok in H as (lp & s1 & Hlp & H).
  apply linear_params_ok in Hlp as [-> Hlp].
  apply bindM_inv_ok in H as (bp & s1 & Hbp & H).
  apply snapshot_batch_norm_ok in Hbp
    as [-> (N & g & be & mu & var & HN & Hg & Hbe & Hmu & Hvar & ->)].
  apply bindM_inv_ok in H as (e & s1 & He & H).
  apply get_eps_ok in He as [-> (N0 & HN0 & He)].
  rewrite HN in HN0. injection HN0 as <-.
  apply bindM_inv_ok in H as (u & s1 & Hmerge & H).
  apply ret_ok in H as [-> ->].
  apply (left_merge_effect _ _ _ _ _ Hbn) in Hmerge
    as (Hid & Hout & Hin & (N1 & N' & HN1 & HN' & HNN' & Hw & Hb & Hm & Hv)).
  rewrite HN in HN1. injection HN1 as <-.
  unfold MergeBatchNorm.remove.
  cbn [linears linear_params batch_norm batch_norm_params batch_norm_eps].
  destruct (remove_loop_eval (modules s) ls lp s1 Hlp) as (s2 & Hrun & Hid2 & Hout2 & Hin2).
  { intros n Hn. destruct (Hin n Hn) as (L & L' & HL & HL' & _ & HwL & HbL). eauto 10. }
  rewrite (bindM_ok _ _ _ _ _ Hrun).
  assert (HN2 : modules s2 !! bn = Some N') by (rewrite (Hout2 bn Hbn); exact HN').
  rewrite (remove_batch_norm_eval bn N N' g be mu var e s2 HN2 Hg Hbe Hmu Hvar He Hw Hb Hm Hv).
  eexists. split; [reflexivity|]. simpl. split; [|congruence].
  apply map_eq. intros n. destruct (decide (n = bn)) as [->|Hne].
  - rewrite lookup_insert_eq, HN. f_equal. now apply restore_bn_stripped.
  - rewrite lookup_insert_ne by congruence.
    destruct (decide (n ∈ ls)) as [Hn|Hn].
    + destruct (Hin2 n Hn) as (L & L1 & HL & HL1 & ->).
      destruct (Hin n Hn) as (La & Lb & HLa & HLb & Hab).
      rewrite HL in HLa. injection HLa as <-. rewrite HL1 in HLb. injection HLb as <-.
      rewrite HL. f_equal. now apply restore_wb_rewritten.
    + rewrite (Hout2 n Hn). auto.
Qed.

Lemma for_each_app {A} (body : A -> M unit) l1 l2 s :
  for_each (l1 ++ l2) body s = bindM (for_each l1 body) (fun _ => for_each l2 body) s.
Proof.
  revert s. induction l1 as [|x l1 IH]; intros s; simpl.
  - reflexivity.
  - rewrite bindM_assoc.
    destruct (body x s) as [[[]|e] s1] eqn:E.
    + rewrite !(bindM_ok _ _ _ _ _ E). apply IH.
    + now rewrite !(bindM_raise _ _ _ _ _ E).
Qed.

Lemma for_each_app_bind {A B} (body : A -> M unit) (k : unit -> M B) l1 l2 s :
  bindM (for_each (l1 ++ l2) body) k s
  = bindM (for_each l1 body) (fun _ => bindM (for_each l2 body) k) s.
Proof.
  unfold bindM at 1 2. rewrite for_each_app. unfold bindM at 1.
  destruct (for_each l1 body s) as [[[]|e] s1]; reflexivity.
Qed.

(** What [MergeBatchNormtoRight.register] does for one linear module. *)
Lemma right_register_effect k l bn s inst s' :
  l <> bn ->
  MergeBatchNormtoRight.register k [l] bn s = (Ok inst, s') ->
  exists L L' N N' W g be mu var e,
    modules s !! l = Some L /\ modules s !! bn = Some N
    /\ modules s' = <[bn := N']> (<[l := L']> (modules s))
    /\ weight L = Some W
    /\ weight N = Some g /\ bias N = Some be
    /\ running_mean N = Some mu /\ running_var N = Some var /\ eps N = Some e
    /\ strip_bn N' = strip_bn N
    /\ is_Some (weight N') /\ is_Some (bias N')
    /\ is_Some (running_mean N') /\ is_Some (running_var N')
    /\ strip_right L' = strip_right L
    /\ is_Some (weight L') /\ is_Some (bias L')
    /\ inst = Instance k [l] bn e [(W, bias L)]
                [("weight", g); ("bias", be); ("running_mean", mu); ("running_var", var)]
                (handles inst) None
    /\ if padded_conv L
       then handles inst = [Handle l ForwardHooks (next_id s)]
            /\ next_id s' = S (next_id s)
            /\ forward_hooks L' = forward_hooks L ++ [(next_id s, convhook_fn)]
            /\ is_Some (canonization_params L')
       else handles inst = [] /\ next_id s' = next_id s
            /\ forward_hooks L' = forward_hooks L
            /\ canonization_params L' = canonization_params L.
Proof.
  intros Hne H. unfold MergeBatchNormtoRight.register in H.
  apply bindM_inv_ok in H as (e & s1 & He & H).
  apply get_eps_ok in He as [-> (N & HN & He)].
  apply bindM_inv_ok in H as (lp & s1 & Hlp & H).
  apply linear_params_ok in Hlp as [-> Hlp].
  apply Forall2_cons_inv_l in Hlp as ([W b] & lp' & (L & HL & HW & Hb) & Hnil & ->).
  apply Forall2_nil_inv_l in Hnil as ->. simpl in HW, Hb. subst b.
  apply bindM_inv_ok in H as (bp & s1 & Hbp & H).
  apply snapshot_batch_norm_ok in Hbp
    as [-> (N0 & g & be & mu & var & HN0 & Hg & Hbe & Hmu & Hvar & ->)].
  rewrite HN in HN0. injection HN0 as <-.
  apply bindM_inv_ok in H as (hs & s1 & Hmerge & H).
  apply ret_ok in H as [-> ->]. simpl.
  unfold MergeBatchNormtoRight.merge_batch_norm in Hmerge.
  apply bindM_inv_ok in Hmerge as (scale & s0 & Hsc & Hmerge).
  apply batch_norm_scale_pure in Hsc as ->.
  apply bindM_inv_ok in Hmerge as (shift & s0 & Hsh & Hmerge).
  apply batch_norm_shift_pure in Hsh as ->.
  apply bindM_inv_ok in Hmerge as (rh & s2 & Hbody & Hmerge).
  simpl in Hbody.
  apply bindM_inv_ok in Hbody as (hs1 & s3 & Hbody & Hret).
  minv Hret.
  apply right_body_effect in Hbody
    as (L0 & L' & HL0 & Hmods & Hstrip & HwL' & HbL' & Hcase).
  rewrite HL in HL0. injection HL0 as <-.
  apply bindM_inv_ok in Hmerge as (u & s4 & Hreset & Hret).
  apply ret_ok in Hret as [-> ->].
  apply reset_batch_norm_effect in Hreset
    as (N1 & N' & HN1 & -> & HNN' & Hw & Hb & Hm & Hv).
  rewrite Hmods, lookup_insert_ne, HN in HN1 by congruence. injection HN1 as <-.
  exists L, L', N, N', W, g, be, mu, var, e. simpl. rewrite Hmods, app_nil_r.
  split_and!; auto.
Qed.

(** Evaluation of [MergeBatchNormtoRight.remove] on a store in which the
    linear module and the batch norm are as [register] left them; the
    handles [extra] and the names other than the two are accounted for by
    [E]. *)
Lemma right_remove_eval k l bn e W g be mu var L L' N N' hs extra rl s3 id0
    (E : string -> option nn_module) :
  l <> bn ->
  modules s3 !! l = Some L' -> modules s3 !! bn = Some N' ->
  weight L = Some W ->
  weight N = Some g -> bias N = Some be ->
  running_mean N = Some mu -> running_var N = Some var -> eps N = Some e ->
  strip_bn N' = strip_bn N ->
  is_Some (weight N') -> is_Some (bias N') ->
  is_Some (running_mean N') -> is_Some (running_var N') ->
  strip_right L' = strip_right L ->
  is_Some (weight L') -> is_Some (bias L') ->
  canonization_params L = None ->
  Forall (fun e : nat * hook => fst e < id0) (forward_hooks L) ->
  (if padded_conv L
   then hs = [Handle l ForwardHooks id0]
        /\ forward_hooks L' = forward_hooks L ++ [(id0, convhook_fn)]
        /\ is_Some (canonization_params L')
   else hs = [] /\ forward_hooks L' = forward_hooks L
        /\ canonization_params L' = canonization_params L) ->
  (forall sx, (forall n, n <> l -> n <> bn -> modules sx !! n = modules s3 !! n) ->
     exists sy, for_each extra handle_remove sx = (Ok tt, sy)
       /\ next_id sy = next_id sx
       /\ modules sy !! l = modules sx !! l /\ modules sy !! bn = modules sx !! bn
       /\ forall n, n <> l -> n <> bn -> modules sy !! n = E n) ->
  exists s4,
    MergeBatchNormtoRight.remove
      (Instance k [l] bn e [(W, bias L)]
         [("weight", g); ("bias", be); ("running_mean", mu); ("running_var", var)]
         (hs ++ extra) rl) s3 = (Ok tt, s4)
    /\ next_id s4 = next_id s3
    /\ modules s4 !! l = Some L /\ modules s4 !! bn = Some N
    /\ forall n, n <> l -> n <> bn -> modules s4 !! n = E n.
Proof.
  intros Hne HL' HN' HW Hg Hbe Hmu Hvar He HNN' Hw Hb Hm Hv Hstrip HwL' HbL' Hcp Hfresh
    Hcase Hextra.
  set (inst := Instance k [l] bn e [(W, bias L)]
         [("weight", g); ("bias", be); ("running_mean", mu); ("running_var", var)]
         (hs ++ extra) rl).
  (* the two loops of the base class *)
  assert (Hbase : exists s2, MergeBatchNorm.remove inst s3 = (Ok tt, s2)
             /\ next_id s2 = next_id s3
             /\ modules s2 !! l = Some (restore_wb L L')
             /\ modules s2 !! bn = Some N
             /\ forall n, n <> l -> n <> bn -> modules s2 !! n = modules s3 !! n).
  { unfold MergeBatchNorm.remove, inst.
    cbn [linears linear_params batch_norm batch_norm_params batch_norm_eps handles].
    destruct (remove_loop_eval {[l := L]} [l] [(W, bias L)] s3)
      as (s1 & Hrun & Hid1 & Hout1 & Hin1).
    { constructor; [|constructor]. exists L. now rewrite lookup_singleton_eq. }
    { intros n Hn. apply list_elem_of_singleton in Hn as ->.
      exists L, L'. rewrite lookup_singleton_eq. auto. }
    rewrite (bindM_ok _ _ _ _ _ Hrun).
    destruct (Hin1 l) as (La & Lb & HLa & HLb & Hl1); [left|].
    rewrite lookup_singleton_eq in HLa. injection HLa as <-.
    rewrite HL' in HLb. injection HLb as <-.
    assert (HN1 : modules s1 !! bn = Some N').
    { rewrite Hout1; [exact HN'|].
      intros Hin. apply list_elem_of_singleton in Hin. congruence. }
    rewrite (remove_batch_norm_eval bn N N' g be mu var e s1 HN1 Hg Hbe Hmu Hvar He
               Hw Hb Hm Hv).
    rewrite (restore_bn_stripped _ _ HNN').
    eexists. split; [reflexivity|]. simpl. split; [assumption|].
    split; [now rewrite lookup_insert_ne by congruence|].
    split; [apply lookup_insert_eq|].
    intros n Hnl Hnb. rewrite lookup_insert_ne by congruence.
    apply Hout1. intros Hin. apply list_elem_of_singleton in Hin. congruence. }
  destruct Hbase as (s2 & Hbase & Hid2 & Hl2 & Hbn2 & Hother2).
  unfold MergeBatchNormtoRight.remove.
  rewrite (bindM_ok _ _ _ _ _ Hbase). unfold inst.
  cbn [linears linear_params batch_norm batch_norm_params batch_norm_eps handles].
  (* the handles *)
  rewrite for_each_app_bind.
  assert (Hhs : exists Lh,
             for_each hs handle_remove s2
             = (Ok tt, Store (<[l := Lh]> (modules s2)) (next_id s2))
             /\ cls Lh = cls L /\ padding Lh = padding L
             /\ (if padded_conv L
                 then is_Some (canonization_params Lh)
                      /\ set_canonization_params None Lh = L
                 else Lh = L)).
  { destruct (padded_conv L) eqn:Hpad.
    - destruct Hcase as (-> & Hfh & HcpL'). simpl.
      erewrite (bindM_ok (handle_remove _)); [|apply handle_remove_eval; exact Hl2].
      simpl. eexists. split; [reflexivity|].
      rewrite Hfh, (drop_id_fresh _ _ _ _ Hfresh) by lia.
      clear -Hstrip Hcp HcpL'. destruct L, L'.
      unfold strip_right, strip_wb, restore_wb in *. simpl in *.
      injection Hstrip as -> -> -> -> -> ->. subst. auto.
    - destruct Hcase as (-> & Hfh & HcpL'). simpl. exists L.
      unfold ret. rewrite insert_id.
      + split; [now destruct s2|]. auto.
      + rewrite Hl2. f_equal.
        clear -Hstrip Hfh HcpL'. destruct L, L'.
        unfold strip_right, strip_wb, restore_wb in *. simpl in *.
        injection Hstrip as -> -> -> -> -> ->. subst. reflexivity. }
  destruct Hhs as (Lh & Hrunh & Hcls & Hpadding & Hfinal).
  rewrite (bindM_ok _ _ _ _ _ Hrunh).
  set (s2' := Store (<[l := Lh]> (modules s2)) (next_id s2)) in *.
  destruct (Hextra s2') as (sy & Hrune & Hidy & Hly & Hbny & Hothery).
  { intros n Hnl Hnb. unfold s2'. simpl. rewrite lookup_insert_ne by congruence. auto. }
  rewrite (bindM_ok _ _ _ _ _ Hrune).
  assert (HLy : modules sy !! l = Some Lh).
  { rewrite Hly. unfold s2'. simpl. apply lookup_insert_eq. }
  assert (HNy : modules sy !! bn = Some N).
  { rewrite Hbny. unfold s2'. simpl. now rewrite lookup_insert_ne by congruence. }
  (* the attribute of the padded convolution *)
  simpl. rewrite !bindM_assoc, (bindM_ok _ _ _ _ _ (get_module_eval _ _ _ HLy)).
  rewrite Hcls, Hpadding. unfold padded_conv in Hfinal.
  destruct (bool_decide (cls L = nn_Conv2d)) eqn:Hc; simpl in Hfinal.
  - destruct (decide (padding L = [0; 0])) as [Hp|Hp].
    + rewrite (bool_decide_eq_true_2 _ Hp) in Hfinal. simpl in Hfinal. subst Lh.
      rewrite bool_decide_eq_false_2 by (intros H'; exact (H' Hp)).
      rewrite !bindM_ret. unfold ret.
      eexists. split; [reflexivity|].
      split; [unfold s2' in Hidy; simpl in Hidy; congruence|]. auto.
    + rewrite (bool_decide_eq_false_2 _ Hp) in Hfinal. simpl in Hfinal.
      destruct Hfinal as [HcpLh Hrestored].
      rewrite bool_decide_eq_true_2 by exact Hp.
      erewrite (bindM_ok (del_canonization_params _));
        [|apply del_canonization_params_eval; eassumption].
      rewrite Hrestored. unfold ret. eexists. split; [reflexivity|]. simpl.
      split; [unfold s2' in Hidy; simpl in Hidy; congruence|].
      rewrite lookup_insert_eq. split; [reflexivity|].
      split; [now rewrite lookup_insert_ne by congruence|].
      intros n Hnl Hnb. rewrite lookup_insert_ne by congruence. auto.
  - subst Lh. rewrite !bindM_ret. unfold ret.
    eexists. split; [reflexivity|].
    split; [unfold s2' in Hidy; simpl in Hidy; congruence|]. auto.
Qed.

Lemma classes_differ s T1 T2 n1 n2 :
  (forall c, T1 c = true -> T2 c = true -> False) ->
  has_class s T1 n1 -> has_class s T2 n2 -> n1 <> n2.
Proof.
  intros Hdis (m1 & H1 & Hc1) (m2 & H2 & Hc2) ->.
  rewrite H1 in H2. injection H2 as <-. eauto.
Qed.

Lemma Linear_not_BatchNorm c : Linear c = true -> BatchNorm c = true -> False.
Proof. destruct c; discriminate. Qed.

Lemma ReLU_not_Linear c : bool_decide (c = nn_ReLU) = true -> Linear c = true -> False.
Proof. destruct c; discriminate. Qed.

Lemma ReLU_not_BatchNorm c : bool_decide (c = nn_ReLU) = true -> BatchNorm c = true -> False.
Proof. destruct c; discriminate. Qed.

Lemma right_roundtrip l bn s inst s' :
  l <> bn -> untouched s l ->
  MergeBatchNormtoRight.register K_MergeBatchNormtoRight [l] bn s = (Ok inst, s') ->
  exists s'', remove inst s' = (Ok tt, s'') /\ modules s'' = modules s.
Proof.
  intros Hne Hclean H.
  destruct (right_register_effect _ _ _ _ _ _ Hne H)
    as (L & L' & N & N' & W & g & be & mu & var & e & HL & HN & Hmods & HW & Hg & Hbe
        & Hmu & Hvar & He & HNN' & Hw & Hb & Hm & Hv & Hstrip & HwL' & HbL' & Hinst & Hcase).
  destruct (Hclean L HL) as (Hcp & _ & Hfresh).
  rewrite Hinst. unfold remove. cbn [i_class].
  rewrite <- (app_nil_r (handles inst)).
  destruct (right_remove_eval K_MergeBatchNormtoRight l bn e W g be mu var L L' N N'
              (handles inst) [] None s' (next_id s) (fun n => modules s !! n))
    as (s4 & Hrun & _ & Hl4 & Hbn4 & Hother4); auto.
  - rewrite Hmods. rewrite lookup_insert_ne by congruence. apply lookup_insert_eq.
  - rewrite Hmods. apply lookup_insert_eq.
  - destruct (padded_conv L); tauto.
  - intros sx Hsx. exists sx. simpl. split; [reflexivity|]. split_and!; auto.
    intros n Hnl Hnb. rewrite (Hsx n Hnl Hnb), Hmods.
    now rewrite !lookup_insert_ne by congruence.
  - exists s4. split; [exact Hrun|]. apply map_eq. intros n.
    destruct (decide (n = l)) as [->|Hnl]; [congruence|].
    destruct (decide (n = bn)) as [->|Hnb]; [congruence|]. auto.
Qed.

Lemma thresh_roundtrip l bn r s inst s' :
  l <> bn -> r <> l -> r <> bn -> untouched s l -> untouched s r ->
  ThreshReLUMergeBatchNorm.register [l] bn r s = (Ok inst, s') ->
  exists s'', remove inst s' = (Ok tt, s'') /\ modules s'' = modules s.
Proof.
  intros Hne Hrl Hrb Hcleanl Hcleanr H.
  unfold ThreshReLUMergeBatchNorm.register in H.
  apply bindM_inv_ok in H as (scale & s0 & Hsc & H).
  apply batch_norm_scale_pure in Hsc as ->.
  apply bindM_inv_ok in H as (shift & s0 & Hsh & H).
  apply batch_norm_shift_pure in Hsh as ->.
  apply bindM_inv_ok in H as (R & s0 & HR & H).
  apply get_module_ok in HR as [-> HR].
  apply bindM_inv_ok in H as (u1 & s1 & H1 & H).
  apply update_module_ok in H1 as (R0 & HR0 & ->).
  rewrite HR in HR0. injection HR0 as <-.
  apply bindM_inv_ok in H as (u2 & s2 & H2 & H).
  apply set_canonization_param_ok in H2 as (R1 & cp1 & HR1 & Hcp1 & ->).
  simpl in HR1. rewrite lookup_insert_eq in HR1. injection HR1 as <-.
  simpl in Hcp1. injection Hcp1 as <-.
  apply bindM_inv_ok in H as (u3 & s3 & H3 & H).
  apply set_canonization_param_ok in H3 as (R2 & cp2 & HR2 & Hcp2 & ->).
  simpl in HR2. rewrite lookup_insert_eq in HR2. injection HR2 as <-.
  simpl in Hcp2. injection Hcp2 as <-.
  simpl in H. rewrite !insert_insert_eq in H.
  set (Ra := set_canonization_params
               (Some (<["biases" := shift]> (<["weights" := scale]> ∅)))
               (set_canonization_params (Some (<["weights" := scale]> ∅))
                  (set_canonization_params (Some ∅) R))) in *.
  set (sa := Store (<[r := Ra]> (modules s)) (next_id s)) in *.
  apply bindM_inv_ok in H as (self & sb & Hreg & H).
  destruct (right_register_effect _ _ _ _ _ _ Hne Hreg)
    as (L & L' & N & N' & W & g & be & mu & var & e & HL & HN & Hmods & HW & Hg & Hbe
        & Hmu & Hvar & He & HNN' & Hw & Hb & Hm & Hv & Hstrip & HwL' & HbL' & Hinst & Hcase).
  unfold sa in HL, HN, Hmods, Hcase. simpl in HL, HN, Hmods, Hcase.
  rewrite lookup_insert_ne in HL by congruence.
  rewrite lookup_insert_ne in HN by congruence.
  destruct (Hcleanl L HL) as (HcpL & _ & HfreshL).
  destruct (Hcleanr R HR) as (HcpR & HfreshRp & HfreshRf).
  assert (Hidb : next_id s <= next_id sb).
  { destruct (padded_conv L); destruct Hcase as (_ & -> & _); lia. }
  apply bindM_inv_ok in H as (h1 & sc & Hh1 & H).
  apply register_forward_pre_hook_ok in Hh1 as (Rb & HRb & -> & ->).
  rewrite Hmods in HRb. rewrite !lookup_insert_ne in HRb by congruence.
  rewrite lookup_insert_eq in HRb. injection HRb as <-.
  apply bindM_inv_ok in H as (h2 & sd & Hh2 & H).
  apply register_forward_hook_ok in Hh2 as (Rc & HRc & -> & ->).
  simpl in HRc. rewrite lookup_insert_eq in HRc. injection HRc as <-.
  apply ret_ok in H as [-> ->]. simpl.
  rewrite Hinst. cbn [i_class linears batch_norm batch_norm_eps linear_params
                        batch_norm_params handles].
  unfold remove. cbn [i_class]. unfold ThreshReLUMergeBatchNorm.remove. cbn [relu].
  set (Rd := set_forward_hooks (forward_hooks R) (set_forward_pre_hooks (forward_pre_hooks R) Ra)).
  destruct (right_remove_eval K_ThreshReLUMergeBatchNorm l bn e W g be mu var L L' N N'
              (handles self)
              ([Handle r ForwardPreHooks (next_id sb)]
               ++ [Handle r ForwardHooks (S (next_id sb))])
              (Some r)
              (Store (<[r := set_forward_hooks
                              (forward_hooks Ra ++ [(S (next_id sb), fwdhook_fn)])
                              (set_forward_pre_hooks
                                 (forward_pre_hooks Ra ++ [(next_id sb, prehook_fn)]) Ra)]>
                        (<[r := set_forward_pre_hooks
                                  (forward_pre_hooks Ra ++ [(next_id sb, prehook_fn)]) Ra]>
                           (modules sb))) (S (S (next_id sb))))
              (next_id s)
              (fun n => if decide (n = r) then Some Rd else modules s !! n))
    as (s4 & Hrun & _ & Hl4 & Hbn4 & Hother4); auto.
  - simpl. rewrite !lookup_insert_ne by congruence. rewrite Hmods.
    rewrite lookup_insert_ne by congruence. apply lookup_insert_eq.
  - simpl. rewrite !lookup_insert_ne by congruence. rewrite Hmods.
    apply lookup_insert_eq.
  - destruct (padded_conv L); tauto.
  - intros sx Hsx. simpl.
    assert (Hrx : modules sx !! r
                  = Some (set_forward_hooks
                            (forward_hooks Ra ++ [(S (next_id sb), fwdhook_fn)])
                            (set_forward_pre_hooks
                               (forward_pre_hooks Ra ++ [(next_id sb, prehook_fn)]) Ra))).
    { rewrite Hsx by congruence. simpl. apply lookup_insert_eq. }
    erewrite (bindM_ok (handle_remove _)); [|apply handle_remove_eval; exact Hrx].
    erewrite (bindM_ok (handle_remove _));
      [|apply handle_remove_eval; simpl; apply lookup_insert_eq].
    simpl. unfold ret. eexists. split; [reflexivity|]. simpl.
    rewrite insert_insert_eq.
    split; [reflexivity|].
    split; [now rewrite lookup_insert_ne by congruence|].
    split; [now rewrite lookup_insert_ne by congruence|].
    intros n Hnl Hnb. destruct (decide (n = r)) as [->|Hnr].
    + rewrite lookup_insert_eq. f_equal. unfold Rd.
      change (forward_pre_hooks Ra) with (forward_pre_hooks R).
      change (forward_hooks Ra) with (forward_hooks R).
      rewrite (drop_id_fresh _ _ _ _ HfreshRp) by lia.
      rewrite (drop_id_fresh _ _ _ _ HfreshRf) by lia.
      reflexivity.
    + rewrite lookup_insert_ne by congruence.
      rewrite (Hsx n Hnl Hnb). simpl.
      rewrite !lookup_insert_ne by congruence. rewrite Hmods.
      now rewrite !lookup_insert_ne by congruence.
  - rewrite (bindM_ok _ _ _ _ _ Hrun).
    assert (Hr4 : modules s4 !! r = Some Rd).
    { rewrite Hother4 by congruence. now rewrite decide_True. }
    erewrite del_canonization_params_eval; [|exact Hr4|unfold Rd, Ra; simpl; eauto].
    eexists. split; [reflexivity|]. simpl.
    apply map_eq. intros n. destruct (decide (n = r)) as [->|Hnr].
    + rewrite lookup_insert_eq, HR. f_equal.
      clear -HcpR. destruct R. unfold Rd, Ra. simpl in *. now subst.
    + rewrite lookup_insert_ne by congruence.
      destruct (decide (n = l)) as [->|Hnl]; [congruence|].
      destruct (decide (n = bn)) as [->|Hnb]; [congruence|].
      rewrite Hother4 by assumption. now rewrite decide_False.
Qed.

(** C1: for every match of a merge canonizer, of any of its classes, on
    nodes that no canonizer has touched yet, whenever [register] returns,
    [remove] called at once returns too and leaves the named modules exactly
    as they were before [register]: every weight, bias (also when it was
    [None]), normalization parameter and [eps], every hook dictionary and
    every attribute.  Only the counter of the handle ids has advanced. *)
Theorem register_remove_roundtrip p s inst s' :
  matched p s ->
  register p s = (Ok inst, s') ->
  exists s'', remove inst s' = (Ok tt, s'') /\ modules s'' = modules s.
Proof.
  destruct p as [l bn|nm ls bn|bn l|bn r l]; simpl.
  - intros [Hl Hbn] H.
    destruct (left_roundtrip K_SequentialMergeBatchNorm [l] bn s inst s')
      as (s'' & Hrun & Hmods & _); auto.
    + intros Hin. apply list_elem_of_singleton in Hin as ->.
      exact (classes_differ _ _ _ _ _ Linear_not_BatchNorm Hl Hbn eq_refl).
    + unfold MergeBatchNorm.register in H. minv H. exists s''. unfold remove. auto.
  - intros [Hls Hbn] H.
    destruct (left_roundtrip (K_NamedMergeBatchNorm nm) ls bn s inst s')
      as (s'' & Hrun & Hmods & _); auto.
    + intros Hin. rewrite Forall_forall in Hls.
      exact (classes_differ _ _ _ _ _ Linear_not_BatchNorm (Hls _ Hin) Hbn eq_refl).
    + unfold MergeBatchNorm.register in H. minv H. exists s''. unfold remove. auto.
  - intros (Hbn & Hl & Hclean) H.
    apply (right_roundtrip l bn); auto.
    exact (classes_differ _ _ _ _ _ Linear_not_BatchNorm Hl Hbn).
  - intros (Hbn & Hr & Hl & Hcr & Hcl) H.
    apply (thresh_roundtrip l bn r); auto.
    + exact (classes_differ _ _ _ _ _ Linear_not_BatchNorm Hl Hbn).
    + exact (classes_differ _ _ _ _ _ ReLU_not_Linear Hr Hl).
    + exact (classes_differ _ _ _ _ _ ReLU_not_BatchNorm Hr Hbn).
Qed.

Lemma ex_thresh_padded_matched :
  matched (ThreshPattern "bn" "relu" "conv") ex_thresh_padded.
Proof.
  repeat split.
  - eexists. split; reflexivity.
  - eexists. split; reflexivity.
  - eexists. split; reflexivity.
  - vm_compute in H. injection H as <-. reflexivity.
  - vm_compute in H. injection H as <-. constructor.
  - vm_compute in H. injection H as <-. constructor.
  - vm_compute in H. injection H as <-. reflexivity.
  - vm_compute in H. injection H as <-. constructor.
  - vm_compute in H. injection H as <-. constructor.
Qed.

(** The round trip on BatchNorm2d, ReLU, padded Conv2d: [register] succeeds
    there, and [remove] gives the modules back. *)
Lemma register_remove_roundtrip_witness :
  matched (ThreshPattern "bn" "relu" "conv") ex_thresh_padded
  /\ exists inst s',
       register (ThreshPattern "bn" "relu" "conv") ex_thresh_padded = (Ok inst, s')
       /\ exists s'', remove inst s' = (Ok tt, s'')
                      /\ modules s'' = modules ex_thresh_padded.
Proof.
  split; [exact ex_thresh_padded_matched|].
  destruct (register (ThreshPattern "bn" "relu" "conv") ex_thresh_padded)
    as [[inst|e] s'] eqn:E.
  - exists inst, s'. split; [reflexivity|].
    exact (register_remove_roundtrip _ _ _ _ ex_thresh_padded_matched E).
  - vm_compute in E. discriminate E.
Defined.

(** ** Sums *)

Lemma Rsum_ext n f g : (forall i, i < n -> f i = g i) -> Rsum n f = Rsum n g.
Proof.
  induction n as [|n IH]; intros H; simpl; [reflexivity|].
  rewrite IH, H by (intros; try apply H; lia). reflexivity.
Qed.


Lemma Rsum_box_ext ks : forall f g,
  (forall k, in_range ks k -> f k = g k) -> Rsum_box ks f = Rsum_box ks g.
Proof.
  induction ks as [|n ks IH]; intros f g H; simpl.
  - apply H. constructor.
  - apply Rsum_ext. intros i Hi. apply IH. intros k Hk. apply H.
    constructor; assumption.
Qed.


(** ** Broadcasting *)

Lemma in_range_length s i : in_range s i -> length i = length s.
Proof. apply Forall2_length. Qed.

Lemma bindex_dims_in_range s : forall i, in_range s i -> bindex_dims s i = i.
Proof.
  induction s as [|d s IH]; intros i H; inversion H; subst; simpl; [reflexivity|].
  rewrite IH by assumption.
  destruct (Nat.eqb_spec d 1); [f_equal; lia|reflexivity].
Qed.

Lemma bindex_in_range s i : in_range s i -> bindex s i = i.
Proof.
  intros H. unfold bindex. rewrite (in_range_length _ _ H), Nat.sub_diag. simpl.
  now apply bindex_dims_in_range.
Qed.

Lemma broadcast_dims_same s : broadcast_dims s s = Some s.
Proof. induction s as [|a s IH]; simpl; [reflexivity|]. now rewrite IH, Nat.eqb_refl. Qed.

Lemma left_pad_same s n : n = length s -> left_pad n s = s.
Proof. intros ->. unfold left_pad. now rewrite Nat.sub_diag. Qed.

Lemma broadcast_shapes_same s : broadcast_shapes s s = Some s.
Proof.
  unfold broadcast_shapes. rewrite Nat.max_id, left_pad_same by reflexivity.
  apply broadcast_dims_same.
Qed.

Lemma broadcast_dims_ones s : broadcast_dims s (replicate (length s) 1) = Some s.
Proof.
  induction s as [|a s IH]; simpl; [reflexivity|]. rewrite IH.
  destruct (Nat.eqb_spec a 1); reflexivity.
Qed.


(** A weight against the scale placed on axis 0. *)
Lemma broadcast_shapes_axis0 C rest :
  broadcast_shapes (C :: rest) (C :: replicate (length rest) 1) = Some (C :: rest).
Proof.
  unfold broadcast_shapes. simpl. rewrite length_replicate, Nat.max_id.
  rewrite !left_pad_same by (simpl; now rewrite ?length_replicate).
  simpl. now rewrite broadcast_dims_ones, Nat.eqb_refl.
Qed.

(** A weight against the scale placed on axis 1. *)
Lemma broadcast_shapes_axis1 cin C rest :
  broadcast_shapes (cin :: C :: rest) (1 :: C :: replicate (length rest) 1)
  = Some (cin :: C :: rest).
Proof.
  unfold broadcast_shapes. simpl. rewrite length_replicate, Nat.max_id.
  rewrite !left_pad_same by (simpl; now rewrite ?length_replicate).
  simpl. rewrite broadcast_dims_ones, Nat.eqb_refl.
  destruct (Nat.eqb_spec cin 1); [subst|]; reflexivity.
Qed.

Lemma getitem_shape_nones n : getitem_shape (replicate n INone) [] = Some (replicate n 1).
Proof. induction n as [|n IH]; simpl; [reflexivity|]. now rewrite IH. Qed.

Lemma getitem_index_nones n : forall i, length i <= n -> getitem_index (replicate n INone) i = [].
Proof.
  induction n as [|n IH]; intros [|j i] H; simpl in *; try reflexivity; try lia.
  apply IH. lia.
Qed.

Lemma length_bindex_dims s : forall i, length i = length s -> length (bindex_dims s i) = length s.
Proof.
  induction s as [|d s IH]; intros [|j i] H; simpl in *; try reflexivity; try discriminate.
  f_equal. apply IH. lia.
Qed.

(** ** The tensors of the left merge *)

Lemma in_range_1 C o : o < C -> in_range [C] [o].
Proof. intros H. repeat constructor. exact H. Qed.

Lemma scale_value g var e C :
  shape g = [C] -> shape var = [C] ->
  exists sc, tdiv g (tsqrt (tadd_scalar var e)) = Ok sc
    /\ shape sc = [C]
    /\ forall o, o < C -> data sc [o] = channel_scale g var e o.
Proof.
  intros Hg Hv. unfold tdiv, tmap2. simpl. rewrite Hg, Hv, broadcast_shapes_same.
  eexists. split; [reflexivity|]. split; [reflexivity|].
  intros o Ho. simpl. now rewrite (bindex_in_range [C] [o]) by now apply in_range_1.
Qed.

(** The weight times the scale placed on axis 1 ([t = true]) or on axis 0
    of as many axes as the weight has. *)
Lemma scaled_weight_value (t : bool) W sc C :
  shape W !! (if t then 1 else 0) = Some C -> shape sc = [C] ->
  let index :=
    if t
    then INone :: ISlice :: replicate (ndim W - 2) INone
    else ISlice :: replicate (ndim W - 1) INone in
  exists si W', getitem sc index = Ok si /\ tmul W si = Ok W'
    /\ shape W' = shape W
    /\ forall i, in_range (shape W) i ->
         data W' i = (data W i * data sc [nth (if t then 1 else 0) i 0%nat])%R.
Proof.
  intros HC Hsc index. subst index. unfold getitem, tmul, tmap2, ndim.
  rewrite Hsc. destruct t.
  - destruct (shape W) as [|cin [|C' rest]] eqn:HW; try discriminate.
    injection HC as ->. simpl. rewrite Nat.sub_0_r, getitem_shape_nones. simpl.
    eexists _, _. split; [reflexivity|]. simpl. rewrite broadcast_shapes_axis1.
    split; [reflexivity|]. split; [reflexivity|].
    intros i Hi. simpl. rewrite (bindex_in_range _ _ Hi).
    inversion Hi as [|a ? i1 ? Ha Hi1]; subst. inversion Hi1 as [|o ? i2 ? Ho Hi2]; subst.
    simpl. unfold bindex. simpl. rewrite length_replicate.
    rewrite (in_range_length _ _ Hi2), Nat.sub_diag. simpl.
    rewrite getitem_index_nones
      by (rewrite length_bindex_dims; rewrite length_replicate;
          [lia|now apply in_range_length]).
    destruct (Nat.eqb_spec C 1); [|reflexivity]. do 3 f_equal. lia.
  - destruct (shape W) as [|C' rest] eqn:HW; try discriminate.
    injection HC as ->. simpl. rewrite Nat.sub_0_r, getitem_shape_nones. simpl.
    eexists _, _. split; [reflexivity|]. simpl. rewrite broadcast_shapes_axis0.
    split; [reflexivity|]. split; [reflexivity|].
    intros i Hi. simpl. rewrite (bindex_in_range _ _ Hi).
    inversion Hi as [|o ? i2 ? Ho Hi2]; subst.
    simpl. unfold bindex. simpl. rewrite length_replicate.
    rewrite (in_range_length _ _ Hi2), Nat.sub_diag. simpl.
    rewrite getitem_index_nones
      by (rewrite length_bindex_dims; rewrite length_replicate;
          [lia|now apply in_range_length]).
    destruct (Nat.eqb_spec C 1); [|reflexivity]. do 3 f_equal. lia.
Qed.


(** ** Evaluation of the left merge *)

Lemma get_tensor_eval n k s m t :
  modules s !! n = Some m -> param k m = Some t -> get_tensor n k s = (Ok t, s).
Proof.
  intros Hm Hp. unfold get_tensor. rewrite (bindM_ok _ _ _ _ _ (get_module_eval _ _ _ Hm)).
  unfold lift. now rewrite Hp.
Qed.

Lemma get_eps_eval n s m e :
  modules s !! n = Some m -> eps m = Some e -> get_eps n s = (Ok e, s).
Proof.
  intros Hm Hp. unfold get_eps. rewrite (bindM_ok _ _ _ _ _ (get_module_eval _ _ _ Hm)).
  unfold lift. now rewrite Hp.
Qed.

Lemma bindM_lift {A B} (a : A) (r : result A) (k : A -> M B) s :
  r = Ok a -> bindM (lift r) k s = k a s.
Proof. now intros ->. Qed.

Lemma batch_norm_scale_eval bn s N g var e sc :
  modules s !! bn = Some N ->
  weight N = Some g -> running_var N = Some var -> eps N = Some e ->
  tdiv g (tsqrt (tadd_scalar var e)) = Ok sc ->
  batch_norm_scale bn s = (Ok sc, s).
Proof.
  intros HN Hg Hv He Hsc. unfold batch_norm_scale.
  rewrite (bindM_ok _ _ _ _ _ (get_tensor_eval bn "running_var" s N var HN Hv)).
  rewrite (bindM_ok _ _ _ _ _ (get_eps_eval bn s N e HN He)).
  rewrite (bindM_ok _ _ _ _ _ (get_tensor_eval bn "weight" s N g HN Hg)).
  unfold lift. now rewrite Hsc.
Qed.


Lemma reset_batch_norm_eval bn s N g be mu var :
  modules s !! bn = Some N ->
  weight N = Some g -> bias N = Some be ->
  running_mean N = Some mu -> running_var N = Some var ->
  reset_batch_norm bn s
  = (Ok tt, Store (<[bn := identity_batch_norm N g be mu var]> (modules s)) (next_id s)).
Proof.
  intros HN Hg Hbe Hmu Hvar. unfold reset_batch_norm.
  rewrite !bindM_assoc.
  rewrite (bindM_ok _ _ _ _ _ (get_data_eval bn "running_mean" s N mu HN Hmu)).
  erewrite (bindM_ok (set_data bn "running_mean" _));
    [|apply (set_data_eval _ _ _ _ N HN); exists mu; exact Hmu].
  rewrite !bindM_assoc.
  erewrite (bindM_ok (get_data bn "running_var"));
    [|eapply get_data_eval; [apply lookup_insert_eq|exact Hvar]].
  erewrite (bindM_ok (set_data bn "running_var" _));
    [|eapply set_data_eval; [apply lookup_insert_eq|exists var; exact Hvar]].
  rewrite !bindM_assoc.
  erewrite (bindM_ok (get_data bn "bias"));
    [|eapply get_data_eval; [apply lookup_insert_eq|exact Hbe]].
  erewrite (bindM_ok (set_data bn "bias" _));
    [|eapply set_data_eval; [apply lookup_insert_eq|exists be; exact Hbe]].
  rewrite !bindM_assoc.
  erewrite (bindM_ok (get_data bn "weight"));
    [|eapply get_data_eval; [apply lookup_insert_eq|exact Hg]].
  erewrite (bindM_ok (set_data bn "weight" _));
    [|eapply set_data_eval; [apply lookup_insert_eq|exists g; exact Hg]].
  erewrite (bindM_ok (get_module bn));
    [|eapply get_module_eval; apply lookup_insert_eq].
  erewrite update_module_eval; [|apply lookup_insert_eq].
  simpl. rewrite !insert_insert_eq. reflexivity.
Qed.

(** ** Forward evaluation with a weight scaled per output channel *)







(** ** Shapes of a pair that evaluates *)

Lemma forward_linear_shapes L W x z :
  Linear (cls L) = true -> weight L = Some W ->
  (cls L = nn_Linear -> length (shape x) = 2) -> forward L x = Ok z ->
  exists n C es, shape z = n :: C :: es
    /\ shape W !! out_axis (cls L) = Some C /\ bias_fits (bias L) C = true.
Proof.
  intros Hlin HW Hx H. unfold forward in H. rewrite HW in H. unfold out_axis.
  destruct (cls L); try discriminate; simpl in *.
  - unfold linear_forward in H. specialize (Hx eq_refl).
    destruct (shape W) as [|fout [|fin [|]]]; try discriminate.
    destruct (shape x) as [|n [|fin' [|]]]; try discriminate.
    cbn [List.last removelast app] in H.
    destruct (fin =? fin'); simpl in H; try discriminate.
    destruct (bias_fits (bias L) fout) eqn:Eb; try discriminate.
    injection H as <-. simpl. eexists _, _, _. split_and!; [reflexivity..|exact Eb].
  - unfold conv_forward in H.
    destruct (shape W) as [|cout [|cin ks]]; try discriminate.
    destruct (shape x) as [|n [|cin' hs]]; try discriminate.
    destruct (conv_extents _ _ _ _); try discriminate.
    destruct ((length _ =? _) && (_ =? _)); simpl in H; try discriminate.
    destruct (bias_fits (bias L) cout) eqn:Eb; try discriminate.
    injection H as <-. simpl. eexists _, _, _. split_and!; [reflexivity..|exact Eb].
  - unfold conv_forward in H.
    destruct (shape W) as [|cout [|cin ks]]; try discriminate.
    destruct (shape x) as [|n [|cin' hs]]; try discriminate.
    destruct (conv_extents _ _ _ _); try discriminate.
    destruct ((length _ =? _) && (_ =? _)); simpl in H; try discriminate.
    destruct (bias_fits (bias L) cout) eqn:Eb; try discriminate.
    injection H as <-. simpl. eexists _, _, _. split_and!; [reflexivity..|exact Eb].
  - unfold conv_forward in H.
    destruct (shape W) as [|cout [|cin ks]]; try discriminate.
    destruct (shape x) as [|n [|cin' hs]]; try discriminate.
    destruct (conv_extents _ _ _ _); try discriminate.
    destruct ((length _ =? _) && (_ =? _)); simpl in H; try discriminate.
    destruct (bias_fits (bias L) cout) eqn:Eb; try discriminate.
    injection H as <-. simpl. eexists _, _, _. split_and!; [reflexivity..|exact Eb].
  - unfold convT_forward in H.
    destruct (shape W) as [|cin [|cout ks]]; try discriminate.
    destruct (shape x) as [|n [|cin' hs]]; try discriminate.
    destruct (convT_extents _ _ _ _); try discriminate.
    destruct ((length _ =? _) && (_ =? _)); simpl in H; try discriminate.
    destruct (bias_fits (bias L) cout) eqn:Eb; try discriminate.
    injection H as <-. simpl. eexists _, _, _. split_and!; [reflexivity..|exact Eb].
  - unfold convT_forward in H.
    destruct (shape W) as [|cin [|cout ks]]; try discriminate.
    destruct (shape x) as [|n [|cin' hs]]; try discriminate.
    destruct (convT_extents _ _ _ _); try discriminate.
    destruct ((length _ =? _) && (_ =? _)); simpl in H; try discriminate.
    destruct (bias_fits (bias L) cout) eqn:Eb; try discriminate.
    injection H as <-. simpl. eexists _, _, _. split_and!; [reflexivity..|exact Eb].
  - unfold convT_forward in H.
    destruct (shape W) as [|cin [|cout ks]]; try discriminate.
    destruct (shape x) as [|n [|cin' hs]]; try discriminate.
    destruct (convT_extents _ _ _ _); try discriminate.
    destruct ((length _ =? _) && (_ =? _)); simpl in H; try discriminate.
    destruct (bias_fits (bias L) cout) eqn:Eb; try discriminate.
    injection H as <-. simpl. eexists _, _, _. split_and!; [reflexivity..|exact Eb].
Qed.

Lemma batch_norm_forward_inv c g be mu var e z y :
  batch_norm_forward c g be mu var e z = Ok y ->
  exists n ch sp, shape z = n :: ch :: sp
    /\ batch_norm_rank c (length (shape z)) = true
    /\ shape g = [ch] /\ shape be = [ch] /\ shape mu = [ch] /\ shape var = [ch]
    /\ shape y = shape z
    /\ forall i, data y i =
         ((data z i - data mu [nth 1 i 0%nat]) * data g [nth 1 i 0%nat]
            / sqrt (data var [nth 1 i 0%nat] + e) + data be [nth 1 i 0%nat])%R.
Proof.
  unfold batch_norm_forward. intros H.
  destruct (shape z) as [|n [|ch sp]] eqn:Hz; try discriminate.
  destruct (batch_norm_rank c _) eqn:Hr; simpl in H; try discriminate.
  destruct (bool_decide _) eqn:Hd; try discriminate.
  apply bool_decide_eq_true in Hd as (? & ? & ? & ?). injection H as <-.
  exists n, ch, sp. simpl. split_and!; auto.
Qed.

Lemma forward_batch_norm_inv N g be mu var e z y :
  BatchNorm (cls N) = true ->
  weight N = Some g -> bias N = Some be ->
  running_mean N = Some mu -> running_var N = Some var -> eps N = Some e ->
  forward N z = Ok y -> batch_norm_forward (cls N) g be mu var e z = Ok y.
Proof.
  intros Hc Hg Hbe Hmu Hvar He H. unfold forward in H.
  rewrite Hg, Hbe, Hmu, Hvar, He in H.
  destruct (cls N); try discriminate; exact H.
Qed.

(** A batch norm that [reset_batch_norm] has reset returns its input. *)
Lemma identity_batch_norm_forward_data N g be mu var z n ch sp :
  BatchNorm (cls N) = true ->
  shape z = n :: ch :: sp -> batch_norm_rank (cls N) (length (shape z)) = true ->
  shape g = [ch] -> shape be = [ch] -> shape mu = [ch] -> shape var = [ch] ->
  exists y, forward (identity_batch_norm N g be mu var) z = Ok y
    /\ shape y = shape z /\ forall i, data y i = data z i.
Proof.
  intros Hc Hz Hr Hg Hbe Hmu Hvar.
  assert (H : forward (identity_batch_norm N g be mu var) z
              = batch_norm_forward (cls N) (ones_like g) (zeros_like be) (zeros_like mu)
                  (ones_like var) 0 z).
  { unfold forward. simpl. destruct (cls N); try discriminate; reflexivity. }
  rewrite H. unfold batch_norm_forward. rewrite Hz in *. rewrite Hr. simpl.
  rewrite Hg, Hbe, Hmu, Hvar, bool_decide_eq_true_2 by auto.
  eexists. split; [reflexivity|]. split; [simpl; congruence|].
  intros i. simpl. replace (1 + 0)%R with 1%R by lra. rewrite sqrt_1. field.
Qed.



Lemma in_range_nth s : forall i d C, in_range s i -> s !! d = Some C -> nth d i 0 < C.
Proof.
  induction s as [|a s IH]; intros i d C Hi Hd; [discriminate|].
  inversion Hi as [|j ? i' ? Hj Hi']; subst.
  destruct d as [|d]; simpl in *.
  - injection Hd as <-. exact Hj.
  - eapply IH; eassumption.
Qed.

(** A batch of inputs of a [torch.nn.Linear] has rank 2. *)
Lemma batched_linear L x :
  batched L x = true -> cls L = nn_Linear -> length (shape x) = 2.
Proof.
  unfold batched. intros H Hc. rewrite Hc in H. now apply Nat.eqb_eq in H.
Qed.

(** ** The left merge *)



Lemma sqrt_1_0 : sqrt (1 + 0) = 1%R.
Proof. rewrite Rplus_0_r. exact sqrt_1. Qed.

(** After a computation, puts 1 for the [sqrt (1 + 0)] of a batch norm
    with variance 1 and eps 0. *)
Ltac unit_sqrt :=
  repeat match goal with
         | |- context [Rinv ?s] =>
             lazymatch s with
             | context [Rcase_abs] => replace s with 1%R by (symmetry; exact sqrt_1_0)
             end
         end.


(** ** Evaluation of the right merge *)

Lemma shift_value be mu sc C :
  shape be = [C] -> shape mu = [C] -> shape sc = [C] ->
  exists ms sh, tmul mu sc = Ok ms /\ tsub be ms = Ok sh
    /\ shape sh = [C]
    /\ forall o, o < C -> data sh [o] = (data be [o] - data mu [o] * data sc [o])%R.
Proof.
  intros Hbe Hmu Hsc. unfold tmul, tsub, tmap2.
  rewrite Hmu, Hsc, broadcast_shapes_same.
  eexists _, _. split; [reflexivity|]. simpl. rewrite Hbe, broadcast_shapes_same.
  split; [reflexivity|]. split; [reflexivity|].
  intros o Ho. simpl. now rewrite !(bindex_in_range [C] [o]) by now apply in_range_1.
Qed.

Lemma batch_norm_shift_eval bn s N be mu sc ms sh :
  modules s !! bn = Some N ->
  bias N = Some be -> running_mean N = Some mu ->
  tmul mu sc = Ok ms -> tsub be ms = Ok sh ->
  batch_norm_shift bn sc s = (Ok sh, s).
Proof.
  intros HN Hbe Hmu Hms Hsh. unfold batch_norm_shift.
  rewrite (bindM_ok _ _ _ _ _ (get_tensor_eval bn "bias" s N be HN Hbe)).
  rewrite (bindM_ok _ _ _ _ _ (get_tensor_eval bn "running_mean" s N mu HN Hmu)).
  rewrite (bindM_lift _ _ _ _ Hms). unfold lift. now rewrite Hsh.
Qed.

Lemma linear_param_eval l s L W :
  modules s !! l = Some L -> weight L = Some W ->
  linear_param l s = (Ok (W, bias L), s).
Proof.
  intros HL HW. unfold linear_param.
  rewrite (bindM_ok _ _ _ _ _ (get_data_eval l "weight" s L W HL HW)).
  now rewrite (bindM_ok _ _ _ _ _ (get_module_eval l s L HL)).
Qed.

Lemma snapshot_batch_norm_eval bn s N g be mu var :
  modules s !! bn = Some N ->
  weight N = Some g -> bias N = Some be ->
  running_mean N = Some mu -> running_var N = Some var ->
  snapshot_batch_norm bn s
  = (Ok [("weight", g); ("bias", be); ("running_mean", mu); ("running_var", var)], s).
Proof.
  intros HN Hg Hbe Hmu Hvar. unfold snapshot_batch_norm. simpl.
  rewrite ?bindM_assoc.
  rewrite (bindM_ok _ _ _ _ _ (get_data_eval bn "weight" s N g HN Hg)).
  rewrite ?bindM_ret, ?bindM_assoc.
  rewrite (bindM_ok _ _ _ _ _ (get_data_eval bn "bias" s N be HN Hbe)).
  rewrite ?bindM_ret, ?bindM_assoc.
  rewrite (bindM_ok _ _ _ _ _ (get_data_eval bn "running_mean" s N mu HN Hmu)).
  rewrite ?bindM_ret, ?bindM_assoc.
  rewrite (bindM_ok _ _ _ _ _ (get_data_eval bn "running_var" s N var HN Hvar)).
  reflexivity.
Qed.

(** The tensors [scale] and [shift] of a batch norm with [C] channels. *)
Lemma scale_shift_value g be mu var e C :
  shape g = [C] -> shape be = [C] -> shape mu = [C] -> shape var = [C] ->
  exists sc ms sh,
    tdiv g (tsqrt (tadd_scalar var e)) = Ok sc /\ tmul mu sc = Ok ms /\ tsub be ms = Ok sh
    /\ shape sc = [C] /\ shape sh = [C]
    /\ (forall o, o < C -> data sc [o] = channel_scale g var e o)
    /\ (forall o, o < C -> data sh [o] = channel_shift g be mu var e o).
Proof.
  intros Hg Hbe Hmu Hvar.
  destruct (scale_value g var e C Hg Hvar) as (sc & Hsc & Hssc & Hdsc).
  destruct (shift_value be mu sc C Hbe Hmu Hssc) as (ms & sh & Hms & Hsh & Hssh & Hdsh).
  exists sc, ms, sh. split_and!; auto.
  intros o Ho. rewrite (Hdsh o Ho), (Hdsc o Ho). reflexivity.
Qed.

Ltac mnorm := repeat (rewrite bindM_assoc || rewrite bindM_ret).

(** [register] of the right merge for one linear module, up to the body of
    the loop of [merge_batch_norm]. *)
Lemma right_register_unfold k l bn s L N W g be mu var e sc ms sh :
  modules s !! l = Some L -> modules s !! bn = Some N ->
  weight L = Some W ->
  weight N = Some g -> bias N = Some be ->
  running_mean N = Some mu -> running_var N = Some var -> eps N = Some e ->
  tdiv g (tsqrt (tadd_scalar var e)) = Ok sc -> tmul mu sc = Ok ms -> tsub be ms = Ok sh ->
  MergeBatchNormtoRight.register k [l] bn s
  = bindM (MergeBatchNormtoRight.merge_batch_norm_body sc sh l)
      (fun hs =>
         reset_batch_norm bn ;;
         ret (Instance k [l] bn e [(W, bias L)]
                [("weight", g); ("bias", be); ("running_mean", mu); ("running_var", var)]
                hs None)) s.
Proof.
  intros HL HN HW Hg Hbe Hmu Hvar He Hsc Hms Hsh.
  unfold MergeBatchNormtoRight.register.
  rewrite (bindM_ok _ _ _ _ _ (get_eps_eval bn s N e HN He)).
  simpl. mnorm.
  rewrite (bindM_ok _ _ _ _ _ (linear_param_eval l s L W HL HW)).
  mnorm.
  rewrite (bindM_ok _ _ _ _ _ (snapshot_batch_norm_eval bn s N g be mu var HN Hg Hbe Hmu Hvar)).
  unfold MergeBatchNormtoRight.merge_batch_norm. mnorm.
  rewrite (bindM_ok _ _ _ _ _ (batch_norm_scale_eval bn s N g var e sc HN Hg Hvar He Hsc)).
  mnorm.
  rewrite (bindM_ok _ _ _ _ _ (batch_norm_shift_eval bn s N be mu sc ms sh HN Hbe Hmu Hms Hsh)).
  simpl. mnorm.
  destruct (MergeBatchNormtoRight.merge_batch_norm_body sc sh l s) as [[hs|ex] s1] eqn:E.
  - rewrite !(bindM_ok _ _ _ _ _ E). mnorm.
    destruct (reset_batch_norm bn s1) as [[[]|ex] s2] eqn:E2.
    + rewrite !(bindM_ok _ _ _ _ _ E2). mnorm. simpl.
      now rewrite app_nil_r.
    + now rewrite !(bindM_raise _ _ _ _ _ E2).
  - now rewrite !(bindM_raise _ _ _ _ _ E).
Qed.

(** C3: on a batch norm followed by a fully-connected module that has no
    bias, [register] of the right merge raises [AttributeError]: the zero
    bias is sized by [module.out_channels], an attribute [torch.nn.Linear]
    does not have.  Nothing has been written when the exception leaves
    [register]: no weight is scaled, no bias is set and the batch norm is
    not reset. *)
Theorem right_merge_linear_without_bias l bn s L N W g be mu var e C :
  modules s !! l = Some L -> modules s !! bn = Some N ->
  cls L = nn_Linear -> weight L = Some W -> bias L = None ->
  BatchNorm (cls N) = true ->
  weight N = Some g -> bias N = Some be ->
  running_mean N = Some mu -> running_var N = Some var -> eps N = Some e ->
  shape g = [C] -> shape be = [C] -> shape mu = [C] -> shape var = [C] ->
  register (RightPattern bn l) s = (Raise (AttributeError "out_channels"), s).
Proof.
  intros HL HN Hcls HW Hb Hbn Hg Hbe Hmu Hvar He Hsg Hsbe Hsmu Hsvar.
  destruct (scale_shift_value g be mu var e C Hsg Hsbe Hsmu Hsvar)
    as (sc & ms & sh & Hsc & Hms & Hsh & _).
  unfold register.
  rewrite (right_register_unfold _ l bn s L N W g be mu var e sc ms sh) by assumption.
  unfold MergeBatchNormtoRight.merge_batch_norm_body. mnorm.
  rewrite (bindM_ok _ _ _ _ _ (get_data_eval l "weight" s L W HL HW)). mnorm.
  rewrite (bindM_ok _ _ _ _ _ (get_module_eval l s L HL)). mnorm.
  rewrite Hb. mnorm. unfold out_channels. rewrite Hcls. reflexivity.
Qed.

(** The right merge on BatchNorm1d(2) followed by Linear(2, 1, bias=False). *)
Lemma right_merge_linear_without_bias_witness :
  matched (RightPattern "bn" "fc") ex_right_linear
  /\ register (RightPattern "bn" "fc") ex_right_linear
     = (Raise (AttributeError "out_channels"), ex_right_linear).
Proof.
  split.
  - split; [eexists; split; reflexivity|]. split; [eexists; split; reflexivity|].
    intros m Hm. vm_compute in Hm. injection Hm as <-. repeat constructor.
  - eapply (right_merge_linear_without_bias "fc" "bn" ex_right_linear _ _ _ _ _ _ _ _ 2);
      reflexivity.
Defined.

(** ** The body of the right merge *)

Lemma out_channels_value L W O :
  Linear (cls L) = true -> cls L <> nn_Linear ->
  weight L = Some W -> shape W !! out_axis (cls L) = Some O ->
  out_channels L = Ok O.
Proof.
  intros Hlin Hc HW HO. unfold out_channels, out_axis in *. rewrite HW.
  destruct (cls L); try discriminate; try congruence; simpl in *; now rewrite HO.
Qed.

(** The body up to the assignment of the weight; what follows it is the
    case distinction on the class of the module. *)
Lemma right_body_unfold sc sh l s L W b0 si W' :
  modules s !! l = Some L -> weight L = Some W ->
  (match bias L with
   | Some b => b0 = b
   | None => exists O, out_channels L = Ok O /\ b0 = zeros [O]
   end) ->
  let index :=
    if ConvolutionTranspose (cls L)
    then ISlice :: replicate (ndim W - 1) INone
    else INone :: ISlice :: replicate (ndim W - 2) INone in
  getitem sc index = Ok si -> tmul W si = Ok W' ->
  MergeBatchNormtoRight.merge_batch_norm_body sc sh l s
  = (if bool_decide (cls L = nn_Conv2d) then
       if bool_decide (padding L = [0; 0]) then
         let! shift_i := lift (getitem sh index) in
         let! ws := lift (tmul W shift_i) in
         let! sm := lift (sum_dims ws [1; 2; 3]) in
         let! b' := lift (tadd sm b0) in
         set_data l "bias" b' ;;
         ret []
       else
         let! shift_i := lift (getitem sh index) in
         let sizes := take (ndim shift_i - 2) (shape shift_i)
                      ++ drop (ndim W - 2) (shape W) in
         let! patch := lift (expand shift_i (Z.of_nat <$> sizes)) in
         let! bias_kernel := lift (conv_forward 2 W None [1; 1] (padding L) patch) in
         update_module l (set_canonization_params (Some ∅)) ;;
         set_canonization_param l "bias_kernel" bias_kernel ;;
         let! h := register_forward_hook l convhook_fn in
         ret [h]
     else if bool_decide (cls L = nn_Linear) then
       let! ws := lift (tmul W sh) in
       let! sm := lift (sum_dim ws 1) in
       let! b' := lift (tadd sm b0) in
       set_data l "bias" b' ;;
       ret []
     else ret [])
      (Store (<[l := set_weight (Some W') (set_bias (Some b0) L)]> (modules s))
         (next_id s)).
Proof.
  intros HL HW Hb0 index Hsi HW'.
  unfold MergeBatchNormtoRight.merge_batch_norm_body.
  rewrite (bindM_ok _ _ _ _ _ (get_data_eval l "weight" s L W HL HW)).
  rewrite (bindM_ok _ _ _ _ _ (get_module_eval l s L HL)).
  set (L0 := set_bias (Some b0) L).
  set (s0 := Store (<[l := L0]> (modules s)) (next_id s)).
  assert (H0 : (match bias L with
                | None =>
                    let! oc := lift (out_channels L) in
                    update_module l (set_bias (Some (zeros [oc])))
                | Some _ => ret tt
                end) s = (Ok tt, s0)).
  { unfold s0, L0. destruct (bias L) as [b|] eqn:Eb.
    - subst b0. unfold ret. do 2 f_equal. destruct s as [ms nid]. simpl in *. f_equal.
      symmetry. apply insert_id. rewrite HL. f_equal. destruct L. simpl in *. subst.
      reflexivity.
    - destruct Hb0 as (O & HO & ->). rewrite (bindM_lift _ _ _ _ HO).
      now apply update_module_eval. }
  rewrite (bindM_ok _ _ _ _ _ H0).
  assert (HL0 : modules s0 !! l = Some L0) by apply lookup_insert_eq.
  rewrite (bindM_ok _ _ _ _ _ (get_data_eval l "bias" s0 L0 b0 HL0 eq_refl)).
  fold index. rewrite (bindM_lift _ _ _ _ Hsi), (bindM_lift _ _ _ _ HW').
  erewrite (bindM_ok (set_data l "weight" W'));
    [|apply (set_data_eval l "weight" W' s0 L0 HL0); exists W; exact HW].
  unfold s0. simpl. rewrite insert_insert_eq. reflexivity.
Qed.

Lemma right_weight_value c W sc C :
  shape W !! in_axis c = Some C -> shape sc = [C] ->
  let index :=
    if ConvolutionTranspose c
    then ISlice :: replicate (ndim W - 1) INone
    else INone :: ISlice :: replicate (ndim W - 2) INone in
  exists si W', getitem sc index = Ok si /\ tmul W si = Ok W'
    /\ shape W' = shape W
    /\ forall i, in_range (shape W) i ->
         data W' i = (data W i * data sc [nth (in_axis c) i 0%nat])%R.
Proof.
  unfold in_axis. destruct (ConvolutionTranspose c); intros HC Hsc.
  - exact (scaled_weight_value false W sc C HC Hsc).
  - exact (scaled_weight_value true W sc C HC Hsc).
Qed.

(** ** Forward evaluation is affine in the input *)

Lemma Rsum_plus_ext n f g h :
  (forall i, i < n -> f i = (g i + h i)%R) -> Rsum n f = (Rsum n g + Rsum n h)%R.
Proof.
  induction n as [|n IH]; intros H; simpl; [lra|].
  rewrite IH, H by (intros; try apply H; lia). lra.
Qed.

Lemma Rsum_box_plus_ext ks : forall f g h,
  (forall k, in_range ks k -> f k = (g k + h k)%R) ->
  Rsum_box ks f = (Rsum_box ks g + Rsum_box ks h)%R.
Proof.
  induction ks as [|n ks IH]; intros f g h H; simpl.
  - apply H. constructor.
  - apply Rsum_plus_ext. intros i Hi. apply IH. intros k Hk. apply H.
    constructor; assumption.
Qed.

Lemma conv_forward_affine d W W' b b' ss ps x z y (sc sh : nat -> R) C :
  shape W' = shape W ->
  (forall i, in_range (shape W) i -> data W' i = (data W i * sc (nth 1 i 0%nat))%R) ->
  shape W !! 0 = Some C -> bias_fits b' C = true ->
  shape z = shape x ->
  (forall i, data z i = (data x i * sc (nth 1 i 0%nat) + sh (nth 1 i 0%nat))%R) ->
  conv_forward d W b ss ps z = Ok y ->
  exists y' k, conv_forward d W' b' ss ps x = Ok y'
    /\ conv_forward d W None ss ps (channel_map sh x) = Ok k
    /\ shape y' = shape y /\ shape k = shape y
    /\ forall i, in_range (shape y) i ->
         (data y i - bias_at b (nth 1 i 0%nat)
          = data y' i - bias_at b' (nth 1 i 0%nat) + data k i)%R.
Proof.
  intros Hs HW' HC Hb' Hsz Hdz H. unfold conv_forward in *. simpl. rewrite Hs.
  rewrite Hsz in H.
  destruct (shape W) as [|cout [|cin ks]]; try discriminate.
  destruct (shape x) as [|n [|cin' hs]]; try discriminate.
  destruct (conv_extents ss ps hs ks) as [es|]; try discriminate.
  injection HC as ->.
  destruct ((length ks =? d) && (cin =? cin')) eqn:E; simpl in H |- *; try discriminate.
  destruct (bias_fits b C); try discriminate. injection H as <-.
  rewrite Hb'.
  eexists _, _. split; [reflexivity|]. split; [reflexivity|].
  split; [reflexivity|]. split; [reflexivity|].
  intros i Hi. simpl in Hi.
  inversion Hi as [|bi ? i1 ? Hbi Hi1]; subst. inversion Hi1 as [|o ? pos ? Ho Hpos]; subst.
  simpl. rewrite (Rsum_plus_ext cin _
    (fun c => Rsum_box ks (fun k => data W' (o :: c :: k) *
        match conv_coords ss ps hs pos k with
        | Some q => data x (bi :: c :: q)
        | None => 0
        end))%R
    (fun c => Rsum_box ks (fun k => data W (o :: c :: k) *
        match conv_coords ss ps hs pos k with
        | Some _ => sh c
        | None => 0
        end))%R).
  - ring.
  - intros c Hc. apply Rsum_box_plus_ext. intros k Hk.
    rewrite HW' by (repeat constructor; assumption). simpl.
    destruct (conv_coords ss ps hs pos k); [rewrite Hdz; simpl|]; ring.
Qed.

Lemma convT_forward_affine d W W' b b' ss ps x z y (sc sh : nat -> R) C :
  shape W' = shape W ->
  (forall i, in_range (shape W) i -> data W' i = (data W i * sc (nth 0 i 0%nat))%R) ->
  shape W !! 1 = Some C -> bias_fits b' C = true ->
  shape z = shape x ->
  (forall i, data z i = (data x i * sc (nth 1 i 0%nat) + sh (nth 1 i 0%nat))%R) ->
  convT_forward d W b ss ps z = Ok y ->
  exists y' k, convT_forward d W' b' ss ps x = Ok y'
    /\ convT_forward d W None ss ps (channel_map sh x) = Ok k
    /\ shape y' = shape y /\ shape k = shape y
    /\ forall i, in_range (shape y) i ->
         (data y i - bias_at b (nth 1 i 0%nat)
          = data y' i - bias_at b' (nth 1 i 0%nat) + data k i)%R.
Proof.
  intros Hs HW' HC Hb' Hsz Hdz H. unfold convT_forward in *. simpl. rewrite Hs.
  rewrite Hsz in H.
  destruct (shape W) as [|cin [|cout ks]]; try discriminate.
  destruct (shape x) as [|n [|cin' hs]]; try discriminate.
  destruct (convT_extents ss ps hs ks) as [es|]; try discriminate.
  injection HC as ->.
  destruct ((length ks =? d) && (cin =? cin')) eqn:E; simpl in H |- *; try discriminate.
  destruct (bias_fits b C); try discriminate. injection H as <-.
  rewrite Hb'.
  eexists _, _. split; [reflexivity|]. split; [reflexivity|].
  split; [reflexivity|]. split; [reflexivity|].
  intros i Hi. simpl in Hi.
  inversion Hi as [|bi ? i1 ? Hbi Hi1]; subst. inversion Hi1 as [|o ? pos ? Ho Hpos]; subst.
  simpl. rewrite (Rsum_plus_ext cin _
    (fun c => Rsum_box ks (fun k => data W' (c :: o :: k) *
        match convT_coords ss ps hs pos k with
        | Some q => data x (bi :: c :: q)
        | None => 0
        end))%R
    (fun c => Rsum_box ks (fun k => data W (c :: o :: k) *
        match convT_coords ss ps hs pos k with
        | Some _ => sh c
        | None => 0
        end))%R).
  - ring.
  - intros c Hc. apply Rsum_box_plus_ext. intros k Hk.
    rewrite HW' by (repeat constructor; assumption). simpl.
    destruct (convT_coords ss ps hs pos k); [rewrite Hdz; simpl|]; ring.
Qed.

Lemma linear_forward_affine W W' b b' x z y (sc sh : nat -> R) C :
  length (shape x) = 2 ->
  shape W' = shape W ->
  (forall i, in_range (shape W) i -> data W' i = (data W i * sc (nth 1 i 0%nat))%R) ->
  shape W !! 0 = Some C -> bias_fits b' C = true ->
  shape z = shape x ->
  (forall i, data z i = (data x i * sc (nth 1 i 0%nat) + sh (nth 1 i 0%nat))%R) ->
  linear_forward W b z = Ok y ->
  exists y' k, linear_forward W' b' x = Ok y'
    /\ linear_forward W None (channel_map sh x) = Ok k
    /\ shape y' = shape y /\ shape k = shape y
    /\ forall i, in_range (shape y) i ->
         (data y i - bias_at b (nth 1 i 0%nat)
          = data y' i - bias_at b' (nth 1 i 0%nat) + data k i)%R.
Proof.
  intros Hx Hs HW' HC Hb' Hsz Hdz H. unfold linear_forward in *. simpl. rewrite Hs.
  rewrite Hsz in H.
  destruct (shape W) as [|fout [|fin [|]]]; try discriminate.
  destruct (shape x) as [|n [|fin' [|]]]; try discriminate.
  injection HC as ->. cbn [List.last removelast app] in H |- *.
  destruct (fin =? fin') eqn:E; simpl in H |- *; try discriminate.
  destruct (bias_fits b C); try discriminate. injection H as <-.
  rewrite Hb'.
  eexists _, _. split; [reflexivity|]. split; [reflexivity|].
  split; [reflexivity|]. split; [reflexivity|].
  intros i Hi. simpl in Hi.
  inversion Hi as [|bi ? i1 ? Hbi Hi1]; subst. inversion Hi1 as [|o ? pos ? Ho Hpos]; subst.
  inversion Hpos; subst.
  simpl. rewrite (Rsum_plus_ext fin _
    (fun c => data W' [o; c] * data x [bi; c])%R
    (fun c => data W [o; c] * sh c)%R).
  - ring.
  - intros c Hc. rewrite HW' by (repeat constructor; assumption). simpl.
    rewrite Hdz. simpl. ring.
Qed.

(** With the weight scaled per input channel, [L] on [x * sc + sh] is the
    module on [x] plus the bias-free module on the constant map [sh]. *)
Lemma forward_affine L W W' b' x z y (sc sh : nat -> R) O :
  Linear (cls L) = true -> weight L = Some W ->
  shape W' = shape W ->
  (forall i, in_range (shape W) i ->
     data W' i = (data W i * sc (nth (in_axis (cls L)) i 0%nat))%R) ->
  shape W !! out_axis (cls L) = Some O -> bias_fits b' O = true ->
  shape z = shape x ->
  (forall i, data z i = (data x i * sc (nth 1 i 0%nat) + sh (nth 1 i 0%nat))%R) ->
  (cls L = nn_Linear -> length (shape x) = 2) ->
  forward L z = Ok y ->
  exists y' k, forward (set_weight (Some W') (set_bias b' L)) x = Ok y'
    /\ forward (set_bias None L) (channel_map sh x) = Ok k
    /\ shape y' = shape y /\ shape k = shape y
    /\ forall i, in_range (shape y) i ->
         (data y i - bias_at (bias L) (nth 1 i 0%nat)
          = data y' i - bias_at b' (nth 1 i 0%nat) + data k i)%R.
Proof.
  intros Hlin HW Hs HW' HO Hb' Hsz Hdz Hx H. unfold forward in *. simpl.
  rewrite HW in H |- *. simpl in H |- *.
  unfold out_axis, in_axis in *.
  destruct (cls L); try discriminate; simpl in *.
  - eapply linear_forward_affine; try eassumption. now apply Hx.
  - eapply conv_forward_affine; eassumption.
  - eapply conv_forward_affine; eassumption.
  - eapply conv_forward_affine; eassumption.
  - eapply convT_forward_affine; eassumption.
  - eapply convT_forward_affine; eassumption.
  - eapply convT_forward_affine; eassumption.
Qed.

(** The batch norm is [x * scale + shift] per channel. *)
Lemma batch_norm_affine N g be mu var e x z :
  BatchNorm (cls N) = true ->
  weight N = Some g -> bias N = Some be ->
  running_mean N = Some mu -> running_var N = Some var -> eps N = Some e ->
  forward N x = Ok z ->
  exists n ch sp, shape x = n :: ch :: sp
    /\ batch_norm_rank (cls N) (length (shape x)) = true
    /\ shape g = [ch] /\ shape be = [ch] /\ shape mu = [ch] /\ shape var = [ch]
    /\ shape z = shape x
    /\ forall i, data z i
         = (data x i * channel_scale g var e (nth 1 i 0%nat)
            + channel_shift g be mu var e (nth 1 i 0%nat))%R.
Proof.
  intros Hbn Hg Hbe Hmu Hvar He H.
  apply (forward_batch_norm_inv _ _ _ _ _ _ _ _ Hbn Hg Hbe Hmu Hvar He) in H.
  apply batch_norm_forward_inv in H
    as (n & ch & sp & Hs & Hr & Hsg & Hsbe & Hsmu & Hsvar & Hsz & Hdz).
  exists n, ch, sp. split_and!; try assumption.
  intros i. rewrite Hdz. unfold channel_shift, channel_scale, Rdiv. ring.
Qed.

(** ** The right merge into the linear classes it has no bias rule for *)

(** C10: for a batch norm [N] followed by a linear module [L] that is
    neither a [torch.nn.Conv2d] nor a [torch.nn.Linear] (a transposed
    convolution, a Conv1d, a Conv3d), [register] of the right merge returns;
    it sets the weight to [W * scale] with the scale on the input-channel
    axis, leaves the values of the bias as they were (a bias of zeros is
    created when there was none), registers no hook (the instance has no
    handle, the hooks and [canonization_params] of [L] are as before) and
    resets [N].  The shift of [N] is written nowhere: where the pair returned
    [y] before, the pair returns [y'] after with [y = y' + k], [k] being
    what [L] without bias returns on the constant map of the shift; so the
    value at a position is kept exactly when [k] is zero there. *)
Theorem right_merge_drops_shift l bn s L N W g be mu var e C O :
  modules s !! l = Some L -> modules s !! bn = Some N ->
  Linear (cls L) = true -> cls L <> nn_Conv2d -> cls L <> nn_Linear ->
  BatchNorm (cls N) = true ->
  weight L = Some W ->
  shape W !! in_axis (cls L) = Some C -> shape W !! out_axis (cls L) = Some O ->
  bias_fits (bias L) O = true ->
  weight N = Some g -> bias N = Some be ->
  running_mean N = Some mu -> running_var N = Some var -> eps N = Some e ->
  shape g = [C] -> shape be = [C] -> shape mu = [C] -> shape var = [C] ->
  exists W',
    let L' := set_weight (Some W') (set_bias (Some (default (zeros [O]) (bias L))) L) in
    let N' := identity_batch_norm N g be mu var in
    register (RightPattern bn l) s
    = (Ok (Instance K_MergeBatchNormtoRight [l] bn e [(W, bias L)]
             [("weight", g); ("bias", be); ("running_mean", mu); ("running_var", var)]
             [] None),
       Store (<[bn := N']> (<[l := L']> (modules s))) (next_id s))
    /\ shape W' = shape W
    /\ (forall i, in_range (shape W) i ->
          data W' i
          = (data W i * channel_scale g var e (nth (in_axis (cls L)) i 0%nat))%R)
    /\ (forall o, bias_at (bias L') o = bias_at (bias L) o)
    /\ forward_hooks L' = forward_hooks L
    /\ canonization_params L' = canonization_params L
    /\ forall x z y, forward N x = Ok z -> forward L z = Ok y ->
         exists z' y' k,
           forward N' x = Ok z' /\ forward L' z' = Ok y'
           /\ forward (set_bias None L) (channel_map (channel_shift g be mu var e) x) = Ok k
           /\ shape y' = shape y /\ shape k = shape y
           /\ forall i, in_range (shape y) i ->
                data y i = (data y' i + data k i)%R
                /\ (data y' i = data y i <-> data k i = 0%R).
Proof.
  intros HL HN Hlin Hc2 Hcl Hbn HW HC HO Hfit Hg Hbe Hmu Hvar He Hsg Hsbe Hsmu Hsvar.
  assert (Hne : l <> bn).
  { intros ->. rewrite HL in HN. injection HN as ->.
    exact (Linear_not_BatchNorm _ Hlin Hbn). }
  destruct (scale_shift_value g be mu var e C Hsg Hsbe Hsmu Hsvar)
    as (sc & ms & sh & Hsc & Hms & Hsh & Hssc & Hssh & Hdsc & Hdsh).
  destruct (right_weight_value (cls L) W sc C HC Hssc) as (si & W' & Hsi & HW' & HsW' & HdW').
  set (b0 := default (zeros [O]) (bias L)).
  assert (Hb0 : match bias L with
                | Some b => b0 = b
                | None => exists O', out_channels L = Ok O' /\ b0 = zeros [O']
                end).
  { unfold b0. destruct (bias L); [reflexivity|].
    exists O. split; [|reflexivity]. now apply (out_channels_value L W O). }
  assert (HdW'' : forall i, in_range (shape W) i ->
            data W' i
            = (data W i * channel_scale g var e (nth (in_axis (cls L)) i 0%nat))%R).
  { intros i Hi. rewrite (HdW' i Hi), Hdsc; [reflexivity|].
    eapply in_range_nth; eassumption. }
  assert (Hbat : forall o, bias_at (Some b0) o = bias_at (bias L) o).
  { intros o. unfold b0. destruct (bias L); reflexivity. }
  assert (Hfit0 : bias_fits (Some b0) O = true).
  { unfold b0. destruct (bias L); [exact Hfit|]. simpl. now apply bool_decide_eq_true_2. }
  exists W'. cbv zeta. fold b0. split.
  { unfold register.
    rewrite (right_register_unfold _ l bn s L N W g be mu var e sc ms sh) by assumption.
    erewrite (bindM_ok (MergeBatchNormtoRight.merge_batch_norm_body sc sh l));
      [|rewrite (right_body_unfold sc sh l s L W b0 si W' HL HW Hb0 Hsi HW');
        rewrite !bool_decide_eq_false_2 by assumption; reflexivity].
    mnorm.
    erewrite (bindM_ok (reset_batch_norm bn));
      [|eapply reset_batch_norm_eval; [|eassumption..];
        simpl; now rewrite lookup_insert_ne by congruence].
    reflexivity. }
  split; [exact HsW'|]. split; [exact HdW''|]. split; [exact Hbat|].
  split; [reflexivity|]. split; [reflexivity|].
  intros x z y Hz Hy.
  destruct (batch_norm_affine N g be mu var e x z Hbn Hg Hbe Hmu Hvar He Hz)
    as (n & ch & sp & Hsx & Hrank & Hsg' & _ & _ & _ & Hsz & Hdz).
  assert (ch = C) by congruence. subst ch.
  destruct (identity_batch_norm_forward_data N g be mu var x n C sp Hbn Hsx Hrank
              Hsg Hsbe Hsmu Hsvar) as (z' & Hz' & Hsz' & Hdz').
  destruct (forward_affine L W W' (Some b0) z' z y
              (channel_scale g var e) (channel_shift g be mu var e) O
              Hlin HW HsW' HdW'' HO Hfit0) as (y' & k & Hy' & Hk & Hsy' & Hsk & Hd).
  { congruence. }
  { intros i. now rewrite Hdz, Hdz'. }
  { intros Hc. contradiction. }
  { exact Hy. }
  exists z', y', k. split; [exact Hz'|]. split; [exact Hy'|]. split.
  { unfold channel_map in *. now rewrite <- Hsz'. }
  split; [exact Hsy'|]. split; [exact Hsk|].
  intros i Hi. specialize (Hd i Hi). rewrite Hbat in Hd. split; [lra|]. split; lra.
Qed.

(** The right merge on BatchNorm2d(1) followed by ConvTranspose2d(1, 1, 1). *)
Lemma right_merge_drops_shift_witness :
  let W := full [1; 1; 1; 1] 1 in
  let g := full [1] 1 in
  let be := full [1] 1 in
  let mu := full [1] 0 in
  let var := full [1] 1 in
  let L := mk_linear nn_ConvTranspose2d W None [1; 1] [0; 0] in
  let N := mk_batch_norm nn_BatchNorm2d g be mu var 0 in
  exists W',
    let L' := set_weight (Some W') (set_bias (Some (default (zeros [1]) (bias L))) L) in
    let N' := identity_batch_norm N g be mu var in
    register (RightPattern "bn" "deconv") ex_right_transposed
    = (Ok (Instance K_MergeBatchNormtoRight ["deconv"] "bn" 0 [(W, bias L)]
             [("weight", g); ("bias", be); ("running_mean", mu); ("running_var", var)]
             [] None),
       Store (<["bn" := N']> (<["deconv" := L']> (modules ex_right_transposed)))
         (next_id ex_right_transposed))
    /\ shape W' = shape W
    /\ (forall i, in_range (shape W) i ->
          data W' i
          = (data W i * channel_scale g var 0 (nth (in_axis (cls L)) i 0%nat))%R)
    /\ (forall o, bias_at (bias L') o = bias_at (bias L) o)
    /\ forward_hooks L' = forward_hooks L
    /\ canonization_params L' = canonization_params L
    /\ forall x z y, forward N x = Ok z -> forward L z = Ok y ->
         exists z' y' k,
           forward N' x = Ok z' /\ forward L' z' = Ok y'
           /\ forward (set_bias None L) (channel_map (channel_shift g be mu var 0) x) = Ok k
           /\ shape y' = shape y /\ shape k = shape y
           /\ forall i, in_range (shape y) i ->
                data y i = (data y' i + data k i)%R
                /\ (data y' i = data y i <-> data k i = 0%R).
Proof.
  intros W g be mu var L N.
  eapply (right_merge_drops_shift "deconv" "bn" ex_right_transposed L N W g be mu var 0 1 1);
    try reflexivity; discriminate.
Defined.


(** X1: on BatchNorm2d(1) with weight 1, bias 1, mean 0 and variance 1
    followed by ConvTranspose2d(1, 1, 1, bias=False) with weight 1, and an
    input of zeros of shape [1; 1; 1; 1], the two modules return 1 before
    [register] of the right merge and 0 after it. *)
Theorem right_merge_transposed_example :
  result_shape (two_stage "bn" "deconv" (zeros [1; 1; 1; 1]) ex_right_transposed)
  = Ok [1; 1; 1; 1]
  /\ result_shape
       ((register (RightPattern "bn" "deconv") ;;
         two_stage "bn" "deconv" (zeros [1; 1; 1; 1])) ex_right_transposed)
     = Ok [1; 1; 1; 1]
  /\ result_at (two_stage "bn" "deconv" (zeros [1; 1; 1; 1]) ex_right_transposed)
       [0; 0; 0; 0] = Ok 1%R
  /\ result_at
       ((register (RightPattern "bn" "deconv") ;;
         two_stage "bn" "deconv" (zeros [1; 1; 1; 1])) ex_right_transposed)
       [0; 0; 0; 0] = Ok 0%R.
Proof.
  split; [vm_compute; reflexivity|]. split; [vm_compute; reflexivity|].
  split.
  - vm_compute.
    f_equal. ring.
  - vm_compute.
    f_equal. ring.
Qed.

(** ** The closed form of the bias of the right merge *)

Lemma broadcast_shapes_row O C : broadcast_shapes [O; C] [C] = Some [O; C].
Proof.
  unfold broadcast_shapes, left_pad. simpl. rewrite Nat.eqb_refl.
  destruct (Nat.eqb_spec O 1); [subst|]; reflexivity.
Qed.

Lemma right_bias_value_linear W sh b0 O C :
  shape W = [O; C] -> shape sh = [C] -> shape b0 = [O] ->
  exists ws sm b', tmul W sh = Ok ws /\ sum_dim ws 1 = Ok sm /\ tadd sm b0 = Ok b'
    /\ shape b' = [O]
    /\ forall o, o < O ->
         data b' [o] = (Rsum C (fun c => data W [o; c] * data sh [c]) + data b0 [o])%R.
Proof.
  intros HW Hsh Hb0. unfold tmul, tadd, tmap2, sum_dim.
  rewrite HW, Hsh, broadcast_shapes_row.
  eexists _, _, _. split; [reflexivity|]. simpl. split; [reflexivity|]. simpl.
  rewrite Hb0, broadcast_shapes_same. split; [reflexivity|]. split; [reflexivity|].
  intros o Ho. simpl. rewrite !(bindex_in_range [O] [o]) by now apply in_range_1.
  f_equal. apply Rsum_ext. intros c Hc. unfold insert_nth. simpl.
  rewrite (bindex_in_range [O; C] [o; c]) by (repeat constructor; assumption).
  unfold bindex. simpl. destruct (Nat.eqb_spec C 1); [|reflexivity].
  do 3 f_equal. lia.
Qed.

Lemma right_bias_value_conv2d W sh b0 O C k1 k2 :
  shape W = [O; C; k1; k2] -> shape sh = [C] -> shape b0 = [O] ->
  exists shift_i ws sm b',
    getitem sh (INone :: ISlice :: replicate (ndim W - 2) INone) = Ok shift_i
    /\ tmul W shift_i = Ok ws /\ sum_dims ws [1; 2; 3] = Ok sm /\ tadd sm b0 = Ok b'
    /\ shape b' = [O]
    /\ forall o, o < O ->
         data b' [o]
         = (Rsum C (fun c => Rsum_box [k1; k2] (fun k => data W (o :: c :: k) * data sh [c]))
            + data b0 [o])%R.
Proof.
  intros HW Hsh Hb0.
  destruct (scaled_weight_value true W sh C) as (si & ws & Hsi & Hws & Hsws & Hdws);
    [now rewrite HW|exact Hsh|].
  exists si, ws. eexists _, _. split; [exact Hsi|]. split; [exact Hws|].
  unfold sum_dims, sum_dim, tadd, tmap2. simpl. rewrite Hsws, HW. simpl.
  split; [reflexivity|]. simpl. rewrite Hb0, broadcast_shapes_same.
  split; [reflexivity|]. split; [reflexivity|].
  intros o Ho. simpl. rewrite !(bindex_in_range [O] [o]) by now apply in_range_1.
  f_equal. apply Rsum_ext. intros c Hc. apply Rsum_ext. intros a Ha.
  apply Rsum_ext. intros b Hb. unfold insert_nth. simpl.
  rewrite Hdws by (rewrite HW; repeat constructor; assumption). reflexivity.
Qed.

(** ** Convolution without padding reads no padded position *)

Lemma conv_coord_zero_padding s h k e pos kk :
  conv_extent s 0 h k = Some e -> pos < e -> kk < k ->
  is_Some (conv_coord s 0 h pos kk).
Proof.
  unfold conv_extent, conv_coord. rewrite Nat.mul_0_r, Nat.add_0_r, Nat.sub_0_r.
  intros H Hpos Hkk.
  destruct (Nat.leb_spec 1 s); [|discriminate].
  destruct (Nat.leb_spec k h); [|discriminate].
  injection H as <-. simpl.
  assert (pos * s + kk < h).
  { assert (pos <= (h - k) / s) by lia.
    assert (s * ((h - k) / s) <= h - k) by (apply Nat.Div0.mul_div_le).
    nia. }
  destruct (Nat.ltb_spec (pos * s + kk) h); [eauto|lia].
Qed.

Lemma conv_coords_zero_padding : forall ss ps hs ks es pos k,
  Forall (fun p => p = 0) ps ->
  conv_extents ss ps hs ks = Some es -> in_range es pos -> in_range ks k ->
  is_Some (conv_coords ss ps hs pos k).
Proof.
  induction ss as [|s ss IH]; intros ps hs ks es pos k Hps He Hpos Hk;
    destruct ps as [|p ps], hs as [|h hs], ks as [|kk ks]; simpl in He; try discriminate.
  - injection He as <-. inversion Hpos; subst. inversion Hk; subst. simpl. eauto.
  - destruct (conv_extent s p h kk) as [e|] eqn:E1; [|discriminate].
    destruct (conv_extents ss ps hs ks) as [es'|] eqn:E2; [|discriminate].
    injection He as <-.
    inversion Hpos as [|q ? pos' ? Hq Hpos']; subst.
    inversion Hk as [|j ? k' ? Hj Hk']; subst.
    inversion Hps as [|? ? Hp Hps']; subst. simpl.
    destruct (conv_coord_zero_padding s h kk e q j E1 Hq Hj) as [c ->].
    destruct (IH ps hs ks es' pos' k' Hps' E2 Hpos' Hk') as [r ->]. eauto.
Qed.

Lemma linear_shift_map W x k (sh : nat -> R) O C :
  length (shape x) = 2 ->
  shape W = [O; C] ->
  linear_forward W None (channel_map sh x) = Ok k ->
  forall i, in_range (shape k) i ->
    data k i = (Rsum C (fun c => data W [nth 1 i 0%nat; c] * sh c) + 0)%R.
Proof.
  intros Hx HW H. unfold linear_forward in H. rewrite HW in H. simpl in H.
  destruct (shape x) as [|n [|fin' [|]]]; try discriminate.
  cbn [List.last removelast app] in H.
  destruct (C =? fin'); simpl in H; try discriminate.
  injection H as <-. intros i Hi. simpl in Hi.
  inversion Hi as [|bi ? i1 ? Hbi Hi1]; subst. inversion Hi1 as [|o ? pos ? Ho Hpos]; subst.
  inversion Hpos; subst. reflexivity.
Qed.

Lemma conv_shift_map d W ss ps x k (sh : nat -> R) O C ks :
  Forall (fun p => p = 0) ps ->
  shape W = O :: C :: ks ->
  conv_forward d W None ss ps (channel_map sh x) = Ok k ->
  forall i, in_range (shape k) i ->
    data k i
    = (Rsum C (fun c => Rsum_box ks (fun kk => data W (nth 1 i 0%nat :: c :: kk) * sh c))
       + 0)%R.
Proof.
  intros Hps HW H. unfold conv_forward in H. rewrite HW in H. simpl in H.
  destruct (shape x) as [|n [|cin' hs]]; try discriminate.
  destruct (conv_extents ss ps hs ks) as [es|] eqn:He; try discriminate.
  destruct ((length ks =? d) && (C =? cin')); simpl in H; try discriminate.
  injection H as <-. intros i Hi. simpl in Hi.
  inversion Hi as [|bi ? i1 ? Hbi Hi1]; subst. inversion Hi1 as [|o ? pos ? Ho Hpos]; subst.
  simpl. f_equal. apply Rsum_ext. intros c Hc. apply Rsum_box_ext. intros kk Hkk.
  destruct (conv_coords_zero_padding ss ps hs ks es pos kk Hps He Hpos Hkk) as [q ->].
  reflexivity.
Qed.

(** The shapes under which a fully-connected module or a two-dimensional
    convolution evaluates. *)
Lemma forward_in_shapes L W z y :
  cls L = nn_Linear \/ cls L = nn_Conv2d ->
  weight L = Some W -> (cls L = nn_Linear -> length (shape z) = 2) ->
  forward L z = Ok y ->
  exists O C ks n hs, shape W = O :: C :: ks /\ shape z = n :: C :: hs
    /\ bias_fits (bias L) O = true
    /\ length ks = (if bool_decide (cls L = nn_Linear) then 0 else 2).
Proof.
  intros Hc HW Hx H. unfold forward in H. rewrite HW in H.
  destruct Hc as [Hc|Hc]; rewrite Hc in H |- *; simpl in H |- *.
  - unfold linear_forward in H. specialize (Hx Hc).
    destruct (shape W) as [|fout [|fin [|]]]; try discriminate.
    destruct (shape z) as [|n [|fin' [|]]]; try discriminate.
    cbn [List.last removelast app] in H.
    destruct (Nat.eqb_spec fin fin'); simpl in H; try discriminate. subst fin'.
    destruct (bias_fits (bias L) fout) eqn:Eb; try discriminate.
    eexists _, _, _, _, _. split_and!; try reflexivity; try (simpl; assumption).
  - unfold conv_forward in H.
    destruct (shape W) as [|cout [|cin ks]]; try discriminate.
    destruct (shape z) as [|n [|cin' hs]]; try discriminate.
    destruct (conv_extents _ _ _ _); try discriminate.
    destruct (Nat.eqb_spec (length ks) 2); simpl in H; try discriminate.
    destruct (Nat.eqb_spec cin cin'); simpl in H; try discriminate. subst cin'.
    destruct (bias_fits (bias L) cout) eqn:Eb; try discriminate.
    eexists _, _, _, _, _. split_and!; try reflexivity; try (simpl; assumption).
Qed.

(** ** The right merge into a fully-connected module or a convolution
    without padding *)

Lemma right_body_closed_form sc sh l s L W O C ks :
  modules s !! l = Some L -> weight L = Some W ->
  (cls L = nn_Linear /\ is_Some (bias L)) \/ (cls L = nn_Conv2d /\ padding L = [0; 0]) ->
  shape W = O :: C :: ks ->
  length ks = (if bool_decide (cls L = nn_Linear) then 0 else 2) ->
  bias_fits (bias L) O = true ->
  shape sc = [C] -> shape sh = [C] ->
  exists W' b',
    MergeBatchNormtoRight.merge_batch_norm_body sc sh l s
    = (Ok [], Store (<[l := set_bias (Some b') (set_weight (Some W') L)]> (modules s))
                (next_id s))
    /\ shape W' = shape W
    /\ (forall i, in_range (shape W) i ->
          data W' i = (data W i * data sc [nth 1 i 0%nat])%R)
    /\ shape b' = [O]
    /\ forall o, o < O ->
         data b' [o]
         = (Rsum C (fun c => Rsum_box ks (fun k => data W (o :: c :: k) * data sh [c]))
            + bias_at (bias L) o)%R.
Proof.
  intros HL HW Hcase HsW Hks Hfit Hssc Hssh.
  assert (Hin : in_axis (cls L) = 1 /\ ConvolutionTranspose (cls L) = false
                /\ Linear (cls L) = true).
  { destruct Hcase as [[-> _]|[-> _]]; auto. }
  destruct Hin as (Hax & HcT & Hlin).
  destruct (right_weight_value (cls L) W sc C) as (si & W' & Hsi & HW' & HsW' & HdW');
    [rewrite Hax, HsW; reflexivity|exact Hssc|].
  rewrite Hax in HdW'. rewrite HcT in Hsi.
  set (b0 := default (zeros [O]) (bias L)).
  assert (Hsb0 : shape b0 = [O]).
  { unfold b0. destruct (bias L) as [b|]; simpl in *; [|reflexivity].
    now apply bool_decide_eq_true in Hfit. }
  assert (Hdb0 : forall o, data b0 [o] = bias_at (bias L) o).
  { intros o. unfold b0. destruct (bias L); reflexivity. }
  assert (Hb0 : match bias L with
                | Some b => b0 = b
                | None => exists O', out_channels L = Ok O' /\ b0 = zeros [O']
                end).
  { unfold b0. destruct (bias L) eqn:Eb; [reflexivity|].
    exists O. split; [|reflexivity]. apply (out_channels_value L W O Hlin); auto.
    - destruct Hcase as [[_ [? ?]]|[-> _]]; [congruence|discriminate].
    - unfold out_axis. now rewrite HcT, HsW. }
  pose proof (right_body_unfold sc sh l s L W b0 si W' HL HW Hb0) as Hbody.
  cbv zeta in Hbody. rewrite HcT in Hbody. specialize (Hbody Hsi HW').
  set (L1 := set_weight (Some W') (set_bias (Some b0) L)) in *.
  set (s1 := Store (<[l := L1]> (modules s)) (next_id s)) in *.
  assert (HL1 : modules s1 !! l = Some L1) by apply lookup_insert_eq.
  assert (Hfinal : forall b', set_data l "bias" b' s1
            = (Ok tt, Store (<[l := set_bias (Some b') (set_weight (Some W') L)]> (modules s))
                        (next_id s))).
  { intros b'. erewrite set_data_eval; [|exact HL1|exists b0; reflexivity].
    unfold s1. simpl. now rewrite insert_insert_eq. }
  destruct Hcase as [[Hc Hb]|[Hc Hp]]; rewrite Hc in Hks; simpl in Hks.
  - destruct ks; [|discriminate].
    destruct (right_bias_value_linear W sh b0 O C HsW Hssh Hsb0)
      as (ws & sm & b' & Hws & Hsm & Hb' & Hsb' & Hdb').
    exists W', b'. split.
    { rewrite Hbody, Hc. simpl.
      rewrite (bindM_lift _ _ _ _ Hws), (bindM_lift _ _ _ _ Hsm), (bindM_lift _ _ _ _ Hb').
      now rewrite (bindM_ok _ _ _ _ _ (Hfinal b')). }
    split; [exact HsW'|]. split; [exact HdW'|]. split; [exact Hsb'|].
    intros o Ho. rewrite (Hdb' o Ho), Hdb0. reflexivity.
  - destruct ks as [|k1 [|k2 [|]]]; try discriminate.
    destruct (right_bias_value_conv2d W sh b0 O C k1 k2 HsW Hssh Hsb0)
      as (shi & ws & sm & b' & Hshi & Hws & Hsm & Hb' & Hsb' & Hdb').
    exists W', b'. split.
    { rewrite Hbody, Hc, Hp. simpl.
      rewrite (bindM_lift _ _ _ _ Hshi).
      rewrite (bindM_lift _ _ _ _ Hws), (bindM_lift _ _ _ _ Hsm), (bindM_lift _ _ _ _ Hb').
      now rewrite (bindM_ok _ _ _ _ _ (Hfinal b')). }
    split; [exact HsW'|]. split; [exact HdW'|]. split; [exact Hsb'|].
    intros o Ho. rewrite (Hdb' o Ho), Hdb0. reflexivity.
Qed.

(** X2: for a batch norm [N] followed by a fully-connected module with a
    bias, or by a [torch.nn.Conv2d] whose padding is (0, 0) (with or without
    a bias), where the pair evaluates on at least one batch of inputs,
    [register] of the right merge returns without registering a hook; it
    sets the weight to [W * scale] with the scale on the input-channel axis
    1 and the bias to the sum over the input channels and the kernel
    positions of [W * shift], plus the former bias, with
    [shift = N.bias - N.running_mean * scale]; it resets [N]; and on every
    batch of inputs (of rank 2 for the fully-connected module, of rank 4
    for the convolution) on which the pair evaluated before, the merged
    module alone returns what the pair returned. *)
Theorem right_merge_closed_form l bn s L N W g be mu var e x0 z0 y0 :
  modules s !! l = Some L -> modules s !! bn = Some N ->
  BatchNorm (cls N) = true ->
  (cls L = nn_Linear /\ is_Some (bias L)) \/ (cls L = nn_Conv2d /\ padding L = [0; 0]) ->
  weight L = Some W ->
  weight N = Some g -> bias N = Some be ->
  running_mean N = Some mu -> running_var N = Some var -> eps N = Some e ->
  batched L x0 = true -> forward N x0 = Ok z0 -> forward L z0 = Ok y0 ->
  exists O C ks W' b',
    let L' := set_bias (Some b') (set_weight (Some W') L) in
    let N' := identity_batch_norm N g be mu var in
    shape W = O :: C :: ks
    /\ register (RightPattern bn l) s
       = (Ok (Instance K_MergeBatchNormtoRight [l] bn e [(W, bias L)]
                [("weight", g); ("bias", be); ("running_mean", mu); ("running_var", var)]
                [] None),
          Store (<[bn := N']> (<[l := L']> (modules s))) (next_id s))
    /\ shape W' = shape W
    /\ (forall i, in_range (shape W) i ->
          data W' i = (data W i * channel_scale g var e (nth 1 i 0%nat))%R)
    /\ shape b' = [O]
    /\ (forall o, o < O ->
          data b' [o]
          = (Rsum C (fun c => Rsum_box ks (fun k =>
               data W (o :: c :: k) * channel_shift g be mu var e c))
             + bias_at (bias L) o)%R)
    /\ forall x z y, batched L x = true -> forward N x = Ok z -> forward L z = Ok y ->
         exists y', forward L' x = Ok y' /\ teq y' y.
Proof.
  intros HL HN Hbn Hcase HW Hg Hbe Hmu Hvar He Hx0 Hz0 Hy0.
  assert (Hcls : cls L = nn_Linear \/ cls L = nn_Conv2d) by (destruct Hcase as [[? _]|[? _]]; auto).
  assert (Hlin : Linear (cls L) = true) by (destruct Hcls as [->| ->]; reflexivity).
  assert (Hne : l <> bn).
  { intros ->. rewrite HL in HN. injection HN as ->.
    exact (Linear_not_BatchNorm _ Hlin Hbn). }
  destruct (batch_norm_affine N g be mu var e x0 z0 Hbn Hg Hbe Hmu Hvar He Hz0)
    as (n0 & ch & sp0 & Hsx0 & _ & Hsg & Hsbe & Hsmu & Hsvar & Hsz0 & _).
  destruct (forward_in_shapes L W z0 y0 Hcls HW) as
    (O & C & ks & n1 & hs1 & HsW & Hsz0' & Hfit & Hks); [|exact Hy0|].
  { rewrite Hsz0. exact (batched_linear L x0 Hx0). }
  assert (ch = C) by congruence. subst ch.
  destruct (scale_shift_value g be mu var e C Hsg Hsbe Hsmu Hsvar)
    as (sc & ms & sh & Hsc & Hms & Hsh & Hssc & Hssh & Hdsc & Hdsh).
  destruct (right_body_closed_form sc sh l s L W O C ks HL HW Hcase HsW Hks Hfit Hssc Hssh)
    as (W' & b' & Hbody & HsW' & HdW' & Hsb' & Hdb').
  assert (HdW'' : forall i, in_range (shape W) i ->
            data W' i = (data W i * channel_scale g var e (nth 1 i 0%nat))%R).
  { intros i Hi. rewrite (HdW' i Hi), Hdsc; [reflexivity|].
    eapply in_range_nth; [exact Hi|]. now rewrite HsW. }
  assert (Hdb'' : forall o, o < O ->
            data b' [o]
            = (Rsum C (fun c => Rsum_box ks (fun k =>
                 data W (o :: c :: k) * channel_shift g be mu var e c))
               + bias_at (bias L) o)%R).
  { intros o Ho. rewrite (Hdb' o Ho). f_equal. apply Rsum_ext. intros c Hc.
    apply Rsum_box_ext. intros k _. now rewrite Hdsh. }
  exists O, C, ks, W', b'. cbv zeta. split; [exact HsW|]. split.
  { unfold register.
    rewrite (right_register_unfold _ l bn s L N W g be mu var e sc ms sh) by assumption.
    rewrite (bindM_ok _ _ _ _ _ Hbody). mnorm.
    erewrite (bindM_ok (reset_batch_norm bn));
      [|eapply reset_batch_norm_eval; [|eassumption..];
        simpl; now rewrite lookup_insert_ne by congruence].
    reflexivity. }
  split; [exact HsW'|]. split; [exact HdW''|]. split; [exact Hsb'|].
  split; [exact Hdb''|].
  intros x z y Hx Hz Hy.
  destruct (batch_norm_affine N g be mu var e x z Hbn Hg Hbe Hmu Hvar He Hz)
    as (n & ch & sp & Hsx & _ & _ & _ & _ & _ & Hsz & Hdz).
  pose proof (batched_linear L x Hx) as Hrx.
  assert (Hrz : cls L = nn_Linear -> length (shape z) = 2).
  { rewrite Hsz. exact Hrx. }
  assert (Hax : in_axis (cls L) = 1 /\ out_axis (cls L) = 0).
  { destruct Hcls as [->| ->]; auto. }
  destruct Hax as [Hin Hout].
  destruct (forward_affine L W W' (Some b') x z y
              (channel_scale g var e) (channel_shift g be mu var e) O Hlin HW HsW')
    as (y' & k & Hy' & Hk & Hsy' & Hsk & Hd).
  { now rewrite Hin. }
  { now rewrite Hout, HsW. }
  { simpl. now apply bool_decide_eq_true_2. }
  { exact Hsz. }
  { exact Hdz. }
  { exact Hrx. }
  { exact Hy. }
  exists y'. split.
  { exact Hy'. }
  split; [exact Hsy'|]. intros i Hi. rewrite Hsy' in Hi.
  specialize (Hd i Hi).
  assert (Ho : nth 1 i 0 < O).
  { destruct (forward_in_shapes L W z y Hcls HW Hrz Hy)
      as (O1 & C1 & ks1 & n2 & hs2 & HsW1 & _ & _ & _).
    assert (O1 = O) by congruence. subst O1.
    destruct (forward_linear_shapes L W z y Hlin HW Hrz Hy)
      as (n3 & O2 & es & Hsy & HO2 & _).
    rewrite Hout, HsW in HO2. injection HO2 as <-.
    eapply in_range_nth; [exact Hi|]. now rewrite Hsy. }
  assert (Hkd : data k i
                = (Rsum C (fun c => Rsum_box ks (fun kk =>
                     data W (nth 1 i 0%nat :: c :: kk) * channel_shift g be mu var e c))
                   + 0)%R).
  { rewrite <- Hsk in Hi. unfold forward in Hk. simpl in Hk. rewrite HW in Hk.
    destruct Hcase as [[Hc _]|[Hc Hp]]; rewrite Hc in Hk, Hks; simpl in Hk, Hks.
    - destruct ks; [|discriminate].
      now apply (linear_shift_map W x k _ O C (Hrx Hc) HsW Hk).
    - rewrite Hp in Hk.
      apply (conv_shift_map 2 W (stride L) [0; 0] x k _ O C ks); auto. }
  simpl in Hd. rewrite (Hdb'' _ Ho), Hkd in Hd. lra.
Qed.

(** The right merge on BatchNorm1d(2) followed by Linear(2, 1) with a
    bias. *)
Lemma right_merge_closed_form_witness :
  let W := full [1; 2] 1 in
  let b := full [1] 0 in
  let g := full [2] 1 in
  let be := vec [2; 3]%R in
  let mu := full [2] 0 in
  let var := full [2] 1 in
  let L := mk_linear nn_Linear W (Some b) [] [] in
  let N := mk_batch_norm nn_BatchNorm1d g be mu var 0 in
  exists O C ks W' b',
    let L' := set_bias (Some b') (set_weight (Some W') L) in
    let N' := identity_batch_norm N g be mu var in
    shape W = O :: C :: ks
    /\ register (RightPattern "bn" "fc") ex_right_linear_bias
       = (Ok (Instance K_MergeBatchNormtoRight ["fc"] "bn" 0 [(W, bias L)]
                [("weight", g); ("bias", be); ("running_mean", mu); ("running_var", var)]
                [] None),
          Store (<["bn" := N']> (<["fc" := L']> (modules ex_right_linear_bias)))
            (next_id ex_right_linear_bias))
    /\ shape W' = shape W
    /\ (forall i, in_range (shape W) i ->
          data W' i = (data W i * channel_scale g var 0 (nth 1 i 0%nat))%R)
    /\ shape b' = [O]
    /\ (forall o, o < O ->
          data b' [o]
          = (Rsum C (fun c => Rsum_box ks (fun k =>
               data W (o :: c :: k) * channel_shift g be mu var 0 c))
             + bias_at (bias L) o)%R)
    /\ forall x z y, batched L x = true -> forward N x = Ok z -> forward L z = Ok y ->
         exists y', forward L' x = Ok y' /\ teq y' y.
Proof.
  intros W b g be mu var L N.
  eapply (right_merge_closed_form "fc" "bn" ex_right_linear_bias L N W g be mu var 0
            (full [1; 2] 1));
    try reflexivity.
  left. split; [reflexivity|]. eexists. reflexivity.
Defined.

(** X19: [BatchNorm1d(2)] normalises axis 1, [Linear(2, 1)] reads its
    features from the last axis.  On an input of ones of shape
    [(1, 2, 2)] the pair, which [MergeBatchNormtoRight.apply] merges,
    returns [(6, 8)] before the merge and [(7, 7)] after it. *)
Theorem right_merge_rank_three_example :
  let x := full [1; 2; 2] 1 in
  let before := two_stage "bn" "fc" x ex_right_linear_bias in
  let after := (MergeBatchNormtoRight.apply (Root ["bn"; "fc"]) ;;
                two_stage "bn" "fc" x) ex_right_linear_bias in
  result_shape before = Ok [1; 2; 1]
  /\ result_shape after = Ok [1; 2; 1]
  /\ result_at before [0; 0; 0] = Ok 6%R /\ result_at before [0; 1; 0] = Ok 8%R
  /\ result_at after [0; 0; 0] = Ok 7%R /\ result_at after [0; 1; 0] = Ok 7%R.
Proof.
  cbv zeta. split; [vm_compute; reflexivity|]. split; [vm_compute; reflexivity|].
  split_and!; vm_compute; f_equal; unit_sqrt; field.
Qed.

(** ** The hooks on inputs they do not fit *)

(** C4: on BatchNorm2d(1) followed by Conv2d(1, 1, 3, padding=1), whose
    kernel extent 3 exceeds the padding 1, and an input of spatial size
    1 x 1, the two modules return a tensor of shape [1; 1; 1; 1] before
    [register]; after [register] the hooked convolution returns a tensor of
    shape [1; 1; 3; 3].  The extent [x.shape[2] - weight.shape[2] + 1] is
    [-1] there, which [expand] reads as: keep the extent; the bias map
    keeps its 3 x 3 positions and the sum with the output is broadcast to
    them. *)
Theorem convhook_small_input :
  matched (RightPattern "bn" "conv") ex_right_padded
  /\ result_shape (two_stage "bn" "conv" (full [1; 1; 1; 1] 1) ex_right_padded)
     = Ok [1; 1; 1; 1]
  /\ result_shape
       ((register (RightPattern "bn" "conv") ;;
         two_stage "bn" "conv" (full [1; 1; 1; 1] 1)) ex_right_padded)
     = Ok [1; 1; 3; 3].
Proof.
  split.
  - split; [eexists; split; reflexivity|]. split; [eexists; split; reflexivity|].
    intros m Hm. vm_compute in Hm. injection Hm as <-. repeat constructor.
  - split; vm_compute; reflexivity.
Qed.

(** C5: on BatchNorm1d(2), ReLU, Linear(2, 1) and an activation of shape
    [1; 2] (a batch of one vector of two channels), the activation node
    returns a tensor of shape [1; 2] before [register]; after [register] its
    post-hook returns a tensor of shape [1; 2; 1; 2].  The hook places the
    per-channel scale and shift on axis 1 of four axes whatever the rank of
    the input, so that the products [scale * x] pair channel [c] of the
    scale with every entry of [x], not with channel [c] of [x]. *)
Theorem fwdhook_rank_two_input :
  matched (ThreshPattern "bn" "relu" "fc") ex_thresh_linear
  /\ result_shape (call "relu" (full [1; 2] 1) ex_thresh_linear) = Ok [1; 2]
  /\ result_shape
       ((register (ThreshPattern "bn" "relu" "fc") ;;
         call "relu" (full [1; 2] 1)) ex_thresh_linear)
     = Ok [1; 2; 1; 2].
Proof.
  split.
  - split; [eexists; split; reflexivity|]. split; [eexists; split; reflexivity|].
    split; [eexists; split; reflexivity|].
    split; intros m Hm; vm_compute in Hm; injection Hm as <-; repeat constructor.
  - split; vm_compute; reflexivity.
Qed.

(** ** The hook of the padded convolution on inputs it fits *)

Ltac check_positions :=
  unfold reproduces; cbv zeta;
  split; [vm_compute; reflexivity|]; split; [vm_compute; reflexivity|];
  unfold positions; simpl;
  repeat (constructor; [vm_compute; f_equal; ring|]); constructor.

(** X3: for BatchNorm2d(1) with any parameters followed by
    Conv2d(1, 1, 3, padding=1, bias=False) with any weight, the convolution
    with its hook after [register] of the right merge returns what the two
    modules returned before it, on every input of shape (1, 1, 2, 2),
    (1, 1, 3, 3) and (1, 1, 5, 5) with stride (1, 1), and on every input of
    shape (1, 1, 5, 5) and (1, 1, 6, 6) with stride (2, 2). *)
Theorem convhook_reproduces_fitting_inputs g be mu var e (w f : list nat -> R) :
  reproduces (padded_pair g be mu var e w [1; 1]) "bn" "conv" (Tensor [1; 1; 2; 2] f) 2 2
  /\ reproduces (padded_pair g be mu var e w [1; 1]) "bn" "conv" (Tensor [1; 1; 3; 3] f) 3 3
  /\ reproduces (padded_pair g be mu var e w [1; 1]) "bn" "conv" (Tensor [1; 1; 5; 5] f) 5 5
  /\ reproduces (padded_pair g be mu var e w [2; 2]) "bn" "conv" (Tensor [1; 1; 5; 5] f) 3 3
  /\ reproduces (padded_pair g be mu var e w [2; 2]) "bn" "conv" (Tensor [1; 1; 6; 6] f) 3 3.
Proof.
  split; [check_positions|]. split; [check_positions|]. split; [check_positions|].
  split; check_positions.
Qed.

(** ** The hooks of the activation on inputs of four axes *)

Lemma broadcast_shapes_channel_l n C h w :
  broadcast_shapes [1; C; 1; 1] [n; C; h; w] = Some [n; C; h; w].
Proof.
  unfold broadcast_shapes, left_pad. simpl. rewrite Nat.eqb_refl.
  destruct n as [|[|?]], h as [|[|?]], w as [|[|?]]; reflexivity.
Qed.

Lemma broadcast_shapes_channel_r n C h w :
  broadcast_shapes [n; C; h; w] [1; C; 1; 1] = Some [n; C; h; w].
Proof.
  unfold broadcast_shapes, left_pad. simpl. rewrite Nat.eqb_refl.
  destruct n as [|[|?]], h as [|[|?]], w as [|[|?]]; reflexivity.
Qed.

Lemma bindex_channel C a c b d :
  c < C -> bindex [1; C; 1; 1] [a; c; b; d] = [0; c; 0; 0].
Proof.
  intros Hc. unfold bindex. simpl. destruct (Nat.eqb_spec C 1); [|reflexivity].
  do 2 f_equal. lia.
Qed.

Lemma fwdhook_value weights biases x n C h w :
  shape weights = [C] -> shape biases = [C] -> shape x = [n; C; h; w] ->
  let index := INone :: ISlice :: replicate (ndim weights + 1) INone in
  exists y,
    (let? w_i := getitem weights index in
     let? wx := tmul w_i x in
     let? b_i := getitem biases index in
     let? y := tadd wx b_i in
     let? q := tdiv biases weights in
     let? q_i := getitem q index in
     let baseline_vals := tscale (-1) q_i in
     where_ (tgt0 y) x baseline_vals) = Ok y
    /\ shape y = shape x
    /\ forall i, in_range (shape x) i ->
         data y i
         = thresh_value (data weights [nth 1 i 0]) (data biases [nth 1 i 0]) (data x i).
Proof.
  intros Hw Hb Hx index. subst index. unfold ndim. rewrite Hw. simpl.
  unfold getitem, tmul, tadd, tdiv, where_, tmap2. rewrite Hw, Hb, Hx. simpl.
  rewrite broadcast_shapes_channel_l. simpl.
  rewrite broadcast_shapes_channel_r. simpl.
  rewrite broadcast_shapes_same. simpl.
  rewrite broadcast_shapes_same. simpl.
  rewrite broadcast_shapes_channel_r.
  eexists. split; [reflexivity|]. split; [reflexivity|].
  intros i Hi. simpl.
  inversion Hi as [|a ? i1 ? Ha Hi1]; subst. inversion Hi1 as [|c ? i2 ? Hc Hi2]; subst.
  inversion Hi2 as [|b ? i3 ? Hb' Hi3]; subst. inversion Hi3 as [|d ? i4 ? Hd Hi4]; subst.
  inversion Hi4; subst.
  rewrite !(bindex_channel C a c b d Hc).
  rewrite !(bindex_in_range [n; C; h; w] [a; c; b; d]) by (repeat constructor; assumption).
  simpl. rewrite !(bindex_in_range [C] [c]) by now apply in_range_1.
  assert (Hcc : (if C =? 1 then 0 else c) = c) by (destruct (Nat.eqb_spec C 1); lia).
  rewrite ?Hcc. unfold thresh_value.
  destruct (Rlt_dec 0 (data weights [c] * data x [a; c; b; d] + data biases [c]));
    reflexivity.
Qed.

Lemma get_canonization_param_eval n k s m cp t :
  modules s !! n = Some m -> canonization_params m = Some cp -> cp !! k = Some t ->
  get_canonization_param n k s = (Ok t, s).
Proof.
  intros Hm Hcp Hk. unfold get_canonization_param, get_canonization_params. mnorm.
  rewrite (bindM_ok _ _ _ _ _ (get_module_eval n s m Hm)).
  unfold lift, bindM. rewrite Hcp. simpl. now rewrite Hk.
Qed.

Lemma set_canonization_param_eval n k t s m cp :
  modules s !! n = Some m -> canonization_params m = Some cp ->
  set_canonization_param n k t s
  = (Ok tt, Store (<[n := set_canonization_params (Some (<[k := t]> cp)) m]> (modules s))
              (next_id s)).
Proof.
  intros Hm Hcp. unfold set_canonization_param, get_canonization_params. mnorm.
  rewrite (bindM_ok _ _ _ _ _ (get_module_eval n s m Hm)).
  unfold lift at 1. rewrite Hcp. unfold bindM. simpl.
  now apply update_module_eval.
Qed.

(** The activation node once [register] has returned: the scale and shift
    of the batch norm in [canonization_params], the two hooks last in its
    hook dictionaries. *)
Lemma thresh_register_relu l bn r s inst s' R sc sh :
  l <> bn -> r <> l -> r <> bn ->
  ThreshReLUMergeBatchNorm.register [l] bn r s = (Ok inst, s') ->
  modules s !! r = Some R ->
  batch_norm_scale bn s = (Ok sc, s) -> batch_norm_shift bn sc s = (Ok sh, s) ->
  exists id1 id2,
    modules s' !! r
    = Some (set_forward_hooks (forward_hooks R ++ [(id2, fwdhook_fn)])
              (set_forward_pre_hooks (forward_pre_hooks R ++ [(id1, prehook_fn)])
                 (set_canonization_params
                    (Some (<["biases" := sh]> (<["weights" := sc]> ∅))) R))).
Proof.
  intros Hne Hrl Hrb H HR Hsc Hsh.
  unfold ThreshReLUMergeBatchNorm.register in H.
  rewrite (bindM_ok _ _ _ _ _ Hsc), (bindM_ok _ _ _ _ _ Hsh) in H.
  rewrite (bindM_ok _ _ _ _ _ (get_module_eval r s R HR)) in H.
  rewrite (bindM_ok _ _ _ _ _ (update_module_eval r _ s R HR)) in H.
  erewrite (bindM_ok (set_canonization_param r "weights" sc)) in H;
    [|eapply set_canonization_param_eval; [apply lookup_insert_eq|reflexivity]].
  erewrite (bindM_ok (set_canonization_param r "biases" sh)) in H;
    [|eapply set_canonization_param_eval; [apply lookup_insert_eq|reflexivity]].
  simpl in H. rewrite !insert_insert_eq in H.
  apply bindM_inv_ok in H as (self & sb & Hreg & H).
  destruct (right_register_effect _ _ _ _ _ _ Hne Hreg)
    as (L & L' & N & N' & W & g & be & mu & var & e & HL & HN & Hmods & _).
  simpl in Hmods.
  apply bindM_inv_ok in H as (h1 & s1 & Hh1 & H).
  apply register_forward_pre_hook_ok in Hh1 as (Rb & HRb & -> & ->).
  rewrite Hmods in HRb. rewrite !lookup_insert_ne in HRb by congruence.
  rewrite lookup_insert_eq in HRb. injection HRb as <-.
  apply bindM_inv_ok in H as (h2 & s2 & Hh2 & H).
  apply register_forward_hook_ok in Hh2 as (Rc & HRc & -> & ->).
  simpl in HRc. rewrite lookup_insert_eq in HRc. injection HRc as <-.
  apply ret_ok in H as [-> ->]. simpl.
  eexists _, _. rewrite lookup_insert_eq. reflexivity.
Qed.

(** Calling an activation node that carries the two hooks. *)
Lemma thresh_call_eval r s R cp sc sh id1 id2 x y :
  modules s !! r
  = Some (set_forward_hooks [(id2, fwdhook_fn)]
            (set_forward_pre_hooks [(id1, prehook_fn)]
               (set_canonization_params (Some cp) R))) ->
  cls R = nn_ReLU ->
  cp = <["biases" := sh]> (<["weights" := sc]> ∅) ->
  (let index := INone :: ISlice :: replicate (ndim sc + 1) INone in
   let? w_i := getitem sc index in
   let? wx := tmul w_i x in
   let? b_i := getitem sh index in
   let? y := tadd wx b_i in
   let? q := tdiv sh sc in
   let? q_i := getitem q index in
   let baseline_vals := tscale (-1) q_i in
   where_ (tgt0 y) x baseline_vals) = Ok y ->
  exists s', call r x s = (Ok y, s').
Proof.
  intros Hr Hcls -> Hy. unfold call.
  rewrite (bindM_ok _ _ _ _ _ (get_module_eval r s _ Hr)).
  simpl. unfold ThreshReLUMergeBatchNorm.prehook. mnorm.
  erewrite (bindM_ok (set_canonization_param r "original_x" x));
    [|eapply set_canonization_param_eval; [exact Hr|reflexivity]].
  mnorm. simpl.
  erewrite (bindM_ok (get_module r)); [|apply get_module_eval; apply lookup_insert_eq].
  unfold forward. simpl. rewrite Hcls. unfold lift at 1. unfold bindM at 1.
  simpl. mnorm. unfold ThreshReLUMergeBatchNorm.fwdhook. mnorm.
  erewrite (bindM_ok (get_canonization_param r "original_x"));
    [|eapply get_canonization_param_eval;
      [apply lookup_insert_eq|reflexivity|apply lookup_insert_eq]].
  mnorm.
  erewrite (bindM_ok (get_canonization_param r "weights"));
    [|eapply get_canonization_param_eval; [apply lookup_insert_eq|reflexivity|];
      rewrite !lookup_insert_ne by discriminate; apply lookup_insert_eq].
  mnorm.
  erewrite (bindM_ok (get_canonization_param r "biases"));
    [|eapply get_canonization_param_eval; [apply lookup_insert_eq|reflexivity|];
      rewrite !lookup_insert_ne by discriminate; apply lookup_insert_eq].
  mnorm. cbv zeta in Hy. rewrite (bindM_lift _ _ _ _ Hy). mnorm. simpl.
  eexists. reflexivity.
Qed.

(** X4: after [register] of the threshold rewrite on a batch norm with [C]
    channels, an activation node that had no hook, and a linear module, a
    call of the activation node on an input [x] of shape (n, C, h, w)
    returns a tensor of the shape of [x] whose entry at each index is the
    entry of [x] where [scale * x + shift] is positive and [- shift / scale]
    elsewhere, with the scale and shift of the channel of the index,
    computed from the parameters the batch norm had when [register] was
    called. *)
Theorem thresh_hook_rank_four l bn r s inst s' R N g be mu var e x n C h w :
  matched (ThreshPattern bn r l) s ->
  register (ThreshPattern bn r l) s = (Ok inst, s') ->
  modules s !! r = Some R -> forward_pre_hooks R = [] -> forward_hooks R = [] ->
  modules s !! bn = Some N ->
  weight N = Some g -> bias N = Some be ->
  running_mean N = Some mu -> running_var N = Some var -> eps N = Some e ->
  shape g = [C] -> shape be = [C] -> shape mu = [C] -> shape var = [C] ->
  shape x = [n; C; h; w] ->
  exists y s'',
    call r x s' = (Ok y, s'')
    /\ shape y = shape x
    /\ forall i, in_range (shape x) i ->
         data y i
         = thresh_value (channel_scale g var e (nth 1 i 0))
             (channel_shift g be mu var e (nth 1 i 0)) (data x i).
Proof.
  intros (Hbn & Hr & Hl & _ & _) H HR Hpre Hfwd HN Hg Hbe Hmu Hvar He
    Hsg Hsbe Hsmu Hsvar Hsx.
  assert (Hne : l <> bn) by exact (classes_differ _ _ _ _ _ Linear_not_BatchNorm Hl Hbn).
  assert (Hrl : r <> l) by exact (classes_differ _ _ _ _ _ ReLU_not_Linear Hr Hl).
  assert (Hrb : r <> bn) by exact (classes_differ _ _ _ _ _ ReLU_not_BatchNorm Hr Hbn).
  assert (Hcls : cls R = nn_ReLU).
  { destruct Hr as (R0 & HR0 & Hc). rewrite HR in HR0. injection HR0 as <-.
    now apply bool_decide_eq_true in Hc. }
  destruct (scale_shift_value g be mu var e C Hsg Hsbe Hsmu Hsvar)
    as (sc & ms & sh & Hsc & Hms & Hsh & Hssc & Hssh & Hdsc & Hdsh).
  simpl in H.
  destruct (thresh_register_relu l bn r s inst s' R sc sh Hne Hrl Hrb H HR)
    as (id1 & id2 & HR').
  { now apply (batch_norm_scale_eval bn s N g var e). }
  { now apply (batch_norm_shift_eval bn s N be mu sc ms). }
  rewrite Hpre, Hfwd in HR'. simpl in HR'.
  destruct (fwdhook_value sc sh x n C h w Hssc Hssh Hsx) as (y & Hy & Hsy & Hdy).
  destruct (thresh_call_eval r s' R _ sc sh id1 id2 x y HR' Hcls eq_refl Hy) as (s'' & Hcall).
  exists y, s''. split; [exact Hcall|]. split; [exact Hsy|].
  intros i Hi. rewrite (Hdy i Hi).
  assert (Hc : nth 1 i 0 < C).
  { eapply in_range_nth; [exact Hi|]. now rewrite Hsx. }
  now rewrite (Hdsc _ Hc), (Hdsh _ Hc).
Qed.

Lemma ex_thresh_matched : matched (ThreshPattern "bn" "relu" "conv") ex_thresh.
Proof.
  split; [eexists; split; reflexivity|]. split; [eexists; split; reflexivity|].
  split; [eexists; split; reflexivity|].
  split; intros m Hm; vm_compute in Hm; injection Hm as <-; repeat constructor.
Qed.

(** The hooks on BatchNorm2d(1), ReLU, Conv2d(1, 1, 1) and an input of shape
    [1; 1; 1; 1]. *)
Lemma thresh_hook_rank_four_witness :
  let g := full [1] 2 in
  let be := full [1] 0 in
  let mu := full [1] 0 in
  let var := full [1] 1 in
  let x := full [1; 1; 1; 1] 1 in
  exists inst s' y s'',
    register (ThreshPattern "bn" "relu" "conv") ex_thresh = (Ok inst, s')
    /\ call "relu" x s' = (Ok y, s'')
    /\ shape y = shape x
    /\ forall i, in_range (shape x) i ->
         data y i
         = thresh_value (channel_scale g var 0 (nth 1 i 0))
             (channel_shift g be mu var 0 (nth 1 i 0)) (data x i).
Proof.
  intros g be mu var x.
  destruct (register (ThreshPattern "bn" "relu" "conv") ex_thresh)
    as [[inst|err] s'] eqn:E.
  - destruct (thresh_hook_rank_four "conv" "bn" "relu" ex_thresh inst s'
                (mk_plain nn_ReLU)
                (mk_batch_norm nn_BatchNorm2d g be mu var 0)
                g be mu var 0 x 1 1 1 1 ex_thresh_matched E)
      as (y & s'' & Hcall & Hs & Hd); try reflexivity.
    exists inst, s', y, s''. auto.
  - vm_compute in E. discriminate E.
Defined.

(** ** The gate of the sequential matcher *)

Lemma weight_shape0_eval n s m w c :
  modules s !! n = Some m -> weight m = Some w -> shape w !! 0 = Some c ->
  weight_shape0 n s = (Ok c, s).
Proof.
  intros Hm Hw Hc. unfold weight_shape0.
  rewrite (bindM_ok _ _ _ _ _ (get_module_eval n s m Hm)).
  unfold lift, bindM. rewrite Hw. simpl. now rewrite Hc.
Qed.

(** X6: on a linear module followed by a batch norm, [apply] of the
    sequential matcher compares the extents of axis 0 of the two weights,
    whatever the class of the linear module: it registers the pair when they
    are equal and returns no instance, without touching the store, when they
    differ. *)
Theorem sequential_apply_gate l bn s L N W g c1 c2 :
  modules s !! l = Some L -> modules s !! bn = Some N ->
  Linear (cls L) = true -> BatchNorm (cls N) = true ->
  weight L = Some W -> weight N = Some g ->
  shape W !! 0 = Some c1 -> shape g !! 0 = Some c2 ->
  SequentialMergeBatchNorm.apply (Root [l; bn]) s
  = if c1 =? c2
    then (let! inst := MergeBatchNorm.register K_SequentialMergeBatchNorm [l] bn in
          ret [inst]) s
    else (Ok [], s).
Proof.
  intros HL HN Hlin Hbn HW Hg Hc1 Hc2.
  unfold SequentialMergeBatchNorm.apply. simpl. mnorm.
  rewrite (bindM_ok _ _ _ _ _ (get_module_eval l s L HL)). mnorm.
  rewrite Hlin. mnorm.
  rewrite (bindM_ok _ _ _ _ _ (get_module_eval bn s N HN)). mnorm.
  rewrite Hbn. mnorm.
  rewrite (bindM_ok _ _ _ _ _ (weight_shape0_eval l s L W c1 HL HW Hc1)). mnorm.
  rewrite (bindM_ok _ _ _ _ _ (weight_shape0_eval bn s N g c2 HN Hg Hc2)).
  destruct (c1 =? c2); mnorm; [|reflexivity].
  destruct (MergeBatchNorm.register K_SequentialMergeBatchNorm [l] bn s)
    as [[inst|err] s1] eqn:E.
  - now rewrite !(bindM_ok _ _ _ _ _ E).
  - now rewrite !(bindM_raise _ _ _ _ _ E).
Qed.

(** The gate on ConvTranspose2d(3, 5, 1) followed by BatchNorm2d(5): axis 0
    of the weight of the transposed convolution holds its 3 input
    channels. *)
Lemma sequential_apply_gate_witness :
  SequentialMergeBatchNorm.apply (Root ["deconv"; "bn"]) ex_transposed
  = if 3 =? 5
    then (let! inst := MergeBatchNorm.register K_SequentialMergeBatchNorm ["deconv"] "bn" in
          ret [inst]) ex_transposed
    else (Ok [], ex_transposed).
Proof.
  eapply (sequential_apply_gate "deconv" "bn" ex_transposed); reflexivity.
Defined.

(** ** Undoing the instances of [apply] *)

Lemma store_eq s1 s2 : modules s1 = modules s2 -> next_id s1 = next_id s2 -> s1 = s2.
Proof. destruct s1, s2. simpl. now intros -> ->. Qed.

Lemma left_register_class k ls bn s inst s' :
  MergeBatchNorm.register k ls bn s = (Ok inst, s') ->
  i_class inst = k /\ linears inst = ls /\ batch_norm inst = bn.
Proof.
  unfold MergeBatchNorm.register. intros H.
  apply bindM_inv_ok in H as (lp & s1 & _ & H).
  apply bindM_inv_ok in H as (bp & s2 & _ & H).
  apply bindM_inv_ok in H as (e & s3 & _ & H).
  apply bindM_inv_ok in H as (u & s4 & _ & H).
  apply ret_ok in H as [-> _]. auto.
Qed.

(** One left merge is undone by [remove]: the store is the one before
    [register]. *)
Lemma left_register_undo k ls bn s inst s' :
  k = K_SequentialMergeBatchNorm \/ (exists nm, k = K_NamedMergeBatchNorm nm) ->
  bn ∉ ls ->
  MergeBatchNorm.register k ls bn s = (Ok inst, s') ->
  remove inst s' = (Ok tt, s).
Proof.
  intros Hk Hbn H.
  destruct (left_register_class _ _ _ _ _ _ H) as (Hc & _ & _).
  destruct (left_roundtrip _ _ _ _ _ _ Hbn H) as (s'' & Hrun & Hm & Hid).
  unfold remove. rewrite Hc.
  assert (s'' = s) by now apply store_eq. subst s''.
  destruct Hk as [->|[nm ->]]; exact Hrun.
Qed.

Lemma left_registered_undo s insts s' :
  left_registered s insts s' -> remove_all (rev insts) s' = (Ok tt, s).
Proof.
  unfold remove_all. induction 1 as [s|s insts s1 k ls bn inst s2 _ IH Hk Hbn Hreg].
  - reflexivity.
  - rewrite rev_app_distr. simpl.
    rewrite (bindM_ok _ _ _ _ _ (left_register_undo _ _ _ _ _ _ Hk Hbn Hreg)).
    exact IH.
Qed.

Lemma left_registered_app s a s1 b s2 :
  left_registered s a s1 -> left_registered s1 b s2 -> left_registered s (a ++ b) s2.
Proof.
  intros Ha Hb. induction Hb as [s1|s1 b s3 k ls bn inst s4 _ IH Hk Hbn Hreg].
  - now rewrite app_nil_r.
  - rewrite app_assoc. econstructor; eauto.
Qed.

Lemma is_instance_ok obj T s b s' :
  is_instance obj T s = (Ok b, s') ->
  s' = s /\ (b = true -> exists n m, obj = Some n /\ modules s !! n = Some m /\ T (cls m) = true).
Proof.
  destruct obj as [n|]; simpl; intros H.
  - apply bindM_inv_ok in H as (m & s1 & Hm & H).
    apply get_module_ok in Hm as [-> Hm]. apply ret_ok in H as [-> ->].
    split; [reflexivity|]. intros Hb. eauto.
  - apply ret_ok in H as [-> ->]. split; [reflexivity|]. discriminate.
Qed.

Lemma weight_shape0_pure n s c s' : weight_shape0 n s = (Ok c, s') -> s' = s.
Proof.
  unfold weight_shape0. intros H.
  apply bindM_inv_ok in H as (m & s1 & Hm & H). apply get_module_ok in Hm as [-> _].
  apply bindM_inv_ok in H as (w & s1 & Hw & H). apply lift_ok in Hw as [-> _].
  now apply lift_ok in H as [-> _].
Qed.

Lemma sequential_loop_registered s0 : forall leaves last acc s insts s',
  left_registered s0 acc s ->
  SequentialMergeBatchNorm.apply_loop leaves last acc s = (Ok insts, s') ->
  left_registered s0 insts s'.
Proof.
  induction leaves as [|leaf rest IH]; intros last acc s insts s' Hacc H; simpl in H.
  - apply ret_ok in H as [-> ->]. exact Hacc.
  - apply bindM_inv_ok in H as (a & s1 & Ha & H).
    apply is_instance_ok in Ha as [-> Ha].
    apply bindM_inv_ok in H as (b & s1 & Hb & H).
    assert (Hb' : s1 = s /\ (b = true -> exists n m, Some leaf = Some n
                               /\ modules s !! n = Some m /\ BatchNorm (cls m) = true)).
    { destruct a; [exact (is_instance_ok (Some leaf) BatchNorm _ _ _ Hb)|].
      apply ret_ok in Hb as [-> ->]. split; [reflexivity|discriminate]. }
    destruct Hb' as [-> Hbn].
    apply bindM_inv_ok in H as (acc' & s1 & Hstep & H).
    apply (IH (Some leaf) acc' s1 insts s'); [|exact H].
    destruct b; [|apply ret_ok in Hstep as [-> ->]; exact Hacc].
    destruct last as [l|]; [|apply ret_ok in Hstep as [-> ->]; exact Hacc].
    apply bindM_inv_ok in Hstep as (c1 & s2 & Hc1 & Hstep).
    apply weight_shape0_pure in Hc1 as ->.
    apply bindM_inv_ok in Hstep as (c2 & s2 & Hc2 & Hstep).
    apply weight_shape0_pure in Hc2 as ->.
    destruct (c1 =? c2); [|apply ret_ok in Hstep as [-> ->]; exact Hacc].
    apply bindM_inv_ok in Hstep as (inst & s2 & Hreg & Hstep).
    apply ret_ok in Hstep as [-> ->].
    econstructor; [exact Hacc|left; reflexivity| |exact Hreg].
    intros Hin. apply list_elem_of_singleton in Hin. subst l.
    destruct a; [|apply ret_ok in Hb as [[=] _]].
    destruct (Ha eq_refl) as (n & m & [= <-] & Hm & Hlin).
    destruct (Hbn eq_refl) as (n' & m' & [= <-] & Hm' & Hb').
    rewrite Hm in Hm'. injection Hm' as <-.
    exact (Linear_not_BatchNorm _ Hlin Hb').
Qed.

(** X7: when [SequentialMergeBatchNorm.apply] returns, calling [remove] on
    the instances it returned, last registered first, returns and leaves
    the store exactly as it was before [apply], whatever the leaves are. *)
Theorem sequential_apply_undone root_module s insts s' :
  SequentialMergeBatchNorm.apply root_module s = (Ok insts, s') ->
  remove_all (rev insts) s' = (Ok tt, s).
Proof.
  intros H. apply left_registered_undo.
  eapply sequential_loop_registered; [constructor|exact H].
Qed.

Lemma sequential_apply_undone_witness :
  exists insts s',
    SequentialMergeBatchNorm.apply (Root ["fc"; "bn"]) ex_named = (Ok insts, s')
    /\ length insts = 1
    /\ remove_all (rev insts) s' = (Ok tt, ex_named).
Proof.
  destruct (SequentialMergeBatchNorm.apply (Root ["fc"; "bn"]) ex_named)
    as [[insts|err] s'] eqn:E.
  - pose proof (sequential_apply_undone _ _ _ _ E) as H.
    exists insts, s'. split; [reflexivity|]. split; [|exact H].
    clear H. vm_compute in E. injection E as <- _. reflexivity.
  - vm_compute in E. discriminate E.
Defined.

Lemma lookup_name_ok lookup n s r s' :
  NamedMergeBatchNorm.lookup_name lookup n s = (Ok r, s') ->
  r = n /\ s' = s /\ is_Some (lookup !! n).
Proof.
  unfold NamedMergeBatchNorm.lookup_name. destruct (lookup !! n) eqn:E; intros H.
  - apply ret_ok in H as [-> ->]. eauto.
  - discriminate.
Qed.

Lemma lookup_names_ok lookup : forall ns s rs s',
  map_M (NamedMergeBatchNorm.lookup_name lookup) ns s = (Ok rs, s') ->
  rs = ns /\ s' = s /\ Forall (fun n => is_Some (lookup !! n)) ns.
Proof.
  induction ns as [|n ns IH]; intros s rs s' H; simpl in H.
  - apply ret_ok in H as [-> ->]. auto.
  - apply bindM_inv_ok in H as (r & s1 & Hr & H).
    apply lookup_name_ok in Hr as (-> & -> & Hn).
    apply bindM_inv_ok in H as (rs' & s1 & Hrs & H).
    apply IH in Hrs as (-> & -> & Hns). apply ret_ok in H as [-> ->]. auto.
Qed.

(** The loop of [NamedMergeBatchNorm.apply] registers the pairs of the map
    as they are, one instance each, in the order of the map. *)
Lemma named_loop_instances nm lookup : forall pairs acc s insts s',
  NamedMergeBatchNorm.apply_loop nm lookup pairs acc s = (Ok insts, s') ->
  exists new,
    insts = acc ++ new
    /\ map (fun i => (linears i, batch_norm i)) new = pairs
    /\ Forall (fun i => i_class i = K_NamedMergeBatchNorm nm) new
    /\ Forall (fun p => Forall (fun n => is_Some (lookup !! n)) (p.1 ++ [p.2])) pairs
    /\ (Forall (fun p => p.2 ∉ p.1) pairs -> forall s0,
          left_registered s0 acc s -> left_registered s0 insts s').
Proof.
  induction pairs as [|[lns bn] rest IH]; intros acc s insts s' H; simpl in H.
  - apply ret_ok in H as [-> ->]. exists []. rewrite app_nil_r. auto.
  - apply bindM_inv_ok in H as (ls & s1 & Hls & H).
    apply lookup_names_ok in Hls as (-> & -> & Hlns).
    apply bindM_inv_ok in H as (b & s1 & Hb & H).
    apply lookup_name_ok in Hb as (-> & -> & Hbn).
    apply bindM_inv_ok in H as (inst & s1 & Hreg & H).
    destruct (left_register_class _ _ _ _ _ _ Hreg) as (Hc & Hl & Hb).
    destruct (IH _ _ _ _ H) as (new & -> & Hmap & Hcls & Hnames & Hchain).
    exists (inst :: new). rewrite <- app_assoc. simpl.
    split; [reflexivity|]. split; [now rewrite Hl, Hb, Hmap|].
    split; [now constructor|]. split.
    { constructor; [|exact Hnames]. simpl. apply Forall_app. auto. }
    intros Hnot s0 Hacc. apply Forall_cons in Hnot as [Hhd Htl].
    replace (acc ++ inst :: new) with ((acc ++ [inst]) ++ new)
      by (now rewrite <- app_assoc).
    apply Hchain; [exact Htl|].
    exact (left_registered_snoc s0 acc s (K_NamedMergeBatchNorm nm) lns bn inst s1
             Hacc (or_intror (ex_intro _ nm eq_refl)) Hhd Hreg).
Qed.

(** X8: when [NamedMergeBatchNorm.apply] returns, it returns one instance
    for each entry of the name map, in the order of the map, each of a copy
    that carries the same name map and each holding the linear modules and
    the batch norm its entry names; every name of the map is a key of the
    named modules.  If no entry lists its batch norm among its own linear
    modules (entries may share modules with one another), calling [remove]
    on the instances, last registered first, returns and leaves the store
    exactly as it was before [apply]. *)
Theorem named_apply_instances nm root_module s insts s' :
  NamedMergeBatchNorm.apply nm root_module s = (Ok insts, s') ->
  map (fun i => (linears i, batch_norm i)) insts = nm
  /\ Forall (fun i => i_class i = K_NamedMergeBatchNorm nm) insts
  /\ Forall (fun p => Forall (fun n => is_Some (modules s !! n)) (p.1 ++ [p.2])) nm
  /\ (Forall (fun p => p.2 ∉ p.1) nm -> remove_all (rev insts) s' = (Ok tt, s)).
Proof.
  unfold NamedMergeBatchNorm.apply. intros H.
  destruct (named_loop_instances _ _ _ _ _ _ _ H) as (new & -> & Hmap & Hcls & Hnames & Hchain).
  simpl. split; [exact Hmap|]. split; [exact Hcls|]. split; [exact Hnames|].
  intros Hnot. apply left_registered_undo. apply (Hchain Hnot). constructor.
Qed.

Lemma named_apply_undone_witness :
  let nm := [(["fc"], "bn"); (["fc"], "bn")] in
  exists insts s',
    NamedMergeBatchNorm.apply nm (Root ["fc"; "bn"]) ex_named = (Ok insts, s')
    /\ map (fun i => (linears i, batch_norm i)) insts = nm
    /\ remove_all (rev insts) s' = (Ok tt, ex_named).
Proof.
  intros nm.
  destruct (NamedMergeBatchNorm.apply nm (Root ["fc"; "bn"]) ex_named)
    as [[insts|err] s'] eqn:E.
  - destruct (named_apply_instances _ _ _ _ _ E) as (Hmap & _ & _ & Hundo).
    exists insts, s'. split; [reflexivity|]. split; [exact Hmap|].
    apply Hundo. repeat constructor; simpl; intros Hin;
      apply list_elem_of_singleton in Hin; discriminate Hin.
  - vm_compute in E. discriminate E.
Defined.

Lemma left_canonizer_registered c root_module s insts s' :
  left_canonizer c -> c root_module s = (Ok insts, s') -> left_registered s insts s'.
Proof.
  intros [->|(nm & -> & Hnm)] H.
  - eapply sequential_loop_registered; [constructor|exact H].
  - unfold NamedMergeBatchNorm.apply in H.
    destruct (named_loop_instances _ _ _ _ _ _ _ H) as (new & -> & _ & _ & _ & Hchain).
    apply (Hchain Hnm). constructor.
Qed.

Lemma composite_loop_registered root_module s0 : forall cs acc s insts s',
  Forall left_canonizer cs ->
  left_registered s0 acc s ->
  CompositeCanonizer.apply_loop cs root_module acc s = (Ok insts, s') ->
  left_registered s0 insts s'.
Proof.
  induction cs as [|c cs IH]; intros acc s insts s' Hcs Hacc H; simpl in H.
  - apply ret_ok in H as [-> ->]. exact Hacc.
  - apply Forall_cons in Hcs as [Hc Hcs].
    apply bindM_inv_ok in H as (new & s1 & Hnew & H).
    apply (IH _ _ _ _ Hcs) in H; [exact H|].
    eapply left_registered_app; [exact Hacc|].
    exact (left_canonizer_registered _ _ _ _ _ Hc Hnew).
Qed.

(** X9: for a composite whose constituents are sequential matchers and name
    maps (no entry listing its batch norm among its own linear modules),
    when [CompositeCanonizer.apply] returns, calling [remove] on the
    instances in the order of the returned list returns and leaves the store
    exactly as it was before [apply]: the reversal puts the instance
    registered last first. *)
Theorem composite_apply_undone cs root_module s insts s' :
  Forall left_canonizer cs ->
  CompositeCanonizer.apply cs root_module s = (Ok insts, s') ->
  remove_all insts s' = (Ok tt, s).
Proof.
  intros Hcs H. unfold CompositeCanonizer.apply in H.
  apply bindM_inv_ok in H as (acc & s1 & Hloop & H).
  apply ret_ok in H as [-> ->].
  apply left_registered_undo.
  eapply composite_loop_registered; [exact Hcs|constructor|exact Hloop].
Qed.

Lemma composite_apply_undone_witness :
  let cs := [NamedMergeBatchNorm.apply [(["fc"], "bn")]; SequentialMergeBatchNorm.apply] in
  exists insts s',
    CompositeCanonizer.apply cs (Root ["fc"; "bn"]) ex_named = (Ok insts, s')
    /\ length insts = 2
    /\ remove_all insts s' = (Ok tt, ex_named).
Proof.
  intros cs.
  destruct (CompositeCanonizer.apply cs (Root ["fc"; "bn"]) ex_named)
    as [[insts|err] s'] eqn:E.
  - assert (Hcs : Forall left_canonizer cs).
    { constructor; [right; eexists; split; [reflexivity|]|repeat constructor].
      repeat constructor. simpl. intros Hin.
      apply list_elem_of_singleton in Hin. discriminate Hin. }
    pose proof (composite_apply_undone _ _ _ _ _ Hcs E) as H.
    exists insts, s'. split; [reflexivity|]. split; [|exact H].
    clear H. vm_compute in E. injection E as <- _. reflexivity.
  - vm_compute in E. discriminate E.
Defined.

(** ** The matcher of the right merge *)

Lemma is_instance_class obj T s b s' :
  is_instance obj T s = (Ok b, s') -> s' = s /\ b = class_is s T obj.
Proof.
  destruct obj as [n|]; simpl; intros H.
  - apply bindM_inv_ok in H as (m & s1 & Hm & H).
    apply get_module_ok in Hm as [-> Hm]. apply ret_ok in H as [-> ->].
    now rewrite Hm.
  - now apply ret_ok in H as [-> ->].
Qed.

Lemma class_is_same s s1 T n :
  (forall k, cls <$> modules s1 !! k = cls <$> modules s !! k) ->
  class_is s1 T n = class_is s T n.
Proof.
  intros H. destruct n as [n|]; [|reflexivity]. simpl. specialize (H n).
  destruct (modules s1 !! n), (modules s !! n); simpl in H; try discriminate;
    [now injection H as ->|reflexivity].
Qed.

Lemma right_loop_instances s0 : forall leaves last acc s insts s',
  (forall k, cls <$> modules s !! k = cls <$> modules s0 !! k) ->
  MergeBatchNormtoRight.apply_loop leaves last acc s = (Ok insts, s') ->
  exists new,
    insts = acc ++ new
    /\ map (fun i => (batch_norm i, linears i)) new
       = map (fun p => (p.1, [p.2])) (adjacent_pairs BatchNorm Linear s0 last leaves)
    /\ Forall (fun i => i_class i = K_MergeBatchNormtoRight) new
    /\ (forall k, cls <$> modules s' !! k = cls <$> modules s0 !! k)
    /\ (forall k, Forall (fun p => k <> p.1 /\ k <> p.2)
                    (adjacent_pairs BatchNorm Linear s0 last leaves) ->
          modules s' !! k = modules s !! k).
Proof.
  induction leaves as [|leaf rest IH]; intros last acc s insts s' Hcls H; simpl in H.
  - apply ret_ok in H as [-> ->]. exists []. rewrite app_nil_r. simpl. auto.
  - apply bindM_inv_ok in H as (a & s1 & Ha & H).
    apply is_instance_class in Ha as [-> ->].
    apply bindM_inv_ok in H as (b & s1 & Hb & H).
    assert (Hb' : s1 = s
                  /\ b = class_is s BatchNorm last && class_is s Linear (Some leaf)).
    { destruct (class_is s BatchNorm last).
      - now apply (is_instance_class (Some leaf) Linear) in Hb.
      - now apply ret_ok in Hb as [-> ->]. }
    destruct Hb' as [-> ->]. clear Hb.
    rewrite !(class_is_same s0 s) in H by exact Hcls.
    apply bindM_inv_ok in H as (acc' & s1 & Hstep & H).
    cbn [adjacent_pairs]. destruct last as [bn|];
      [|apply ret_ok in Hstep as [-> ->]; now apply IH].
    destruct (class_is s0 BatchNorm (Some bn) && class_is s0 Linear (Some leaf)) eqn:Hm;
      [|apply ret_ok in Hstep as [-> ->]; now apply IH].
    apply bindM_inv_ok in Hstep as (inst & s2 & Hreg & Hstep).
    apply ret_ok in Hstep as [-> ->].
    assert (Hne : leaf <> bn).
    { intros ->. apply andb_prop in Hm as [H1 H2]. simpl in H1, H2.
      destruct (modules s0 !! bn); [|discriminate].
      exact (Linear_not_BatchNorm _ H2 H1). }
    destruct (right_register_effect _ _ _ _ _ _ Hne Hreg)
      as (L & L' & N & N' & W & g & be & mu & var & e & HL & HN & Hmods & _ & _ & _ & _
          & _ & _ & HNN' & _ & _ & _ & _ & HLL' & _ & _ & Hinst & _).
    assert (Hcls2 : forall k, cls <$> modules s2 !! k = cls <$> modules s0 !! k).
    { intros k. rewrite <- Hcls, Hmods.
      destruct (decide (k = bn)) as [->|Hkb].
      - rewrite lookup_insert_eq, HN. simpl. f_equal.
        apply (f_equal cls) in HNN'. exact HNN'.
      - rewrite lookup_insert_ne by congruence.
        destruct (decide (k = leaf)) as [->|Hkl].
        + rewrite lookup_insert_eq, HL. simpl. f_equal.
          apply (f_equal cls) in HLL'. exact HLL'.
        + now rewrite lookup_insert_ne by congruence. }
    destruct (IH _ _ _ _ _ Hcls2 H) as (new & -> & Hmap & Hk & Hcls' & Hother).
    exists (inst :: new). rewrite <- app_assoc. simpl.
    split; [reflexivity|]. split.
    { rewrite Hmap. f_equal. rewrite Hinst. reflexivity. }
    split; [constructor; [now rewrite Hinst|exact Hk]|].
    split; [exact Hcls'|].
    intros k Hfar. apply Forall_cons in Hfar as [[Hk1 Hk2] Hfar]. simpl in Hk1, Hk2.
    rewrite (Hother k Hfar), Hmods.
    now rewrite !lookup_insert_ne by congruence.
Qed.

(** X10: when [MergeBatchNormtoRight.apply] returns, it has registered one
    instance for each leaf of a batch norm class directly followed by a leaf
    of a linear class, in the order of the leaves and with no further
    condition on the pair; each instance holds that batch norm and that one
    linear module.  No module has changed its class, and a module that
    belongs to no such pair is exactly as it was. *)
Theorem right_apply_instances root_module s insts s' :
  MergeBatchNormtoRight.apply root_module s = (Ok insts, s') ->
  let pairs := adjacent_pairs BatchNorm Linear s None (collect_leaves root_module) in
  map (fun i => (batch_norm i, linears i)) insts = map (fun p => (p.1, [p.2])) pairs
  /\ Forall (fun i => i_class i = K_MergeBatchNormtoRight) insts
  /\ (forall k, cls <$> modules s' !! k = cls <$> modules s !! k)
  /\ (forall k, Forall (fun p => k <> p.1 /\ k <> p.2) pairs ->
        modules s' !! k = modules s !! k).
Proof.
  intros H pairs. unfold MergeBatchNormtoRight.apply in H.
  destruct (right_loop_instances s _ _ _ _ _ _ (fun k => eq_refl) H)
    as (new & -> & Hmap & Hk & Hcls & Hother).
  simpl. auto.
Qed.

Lemma right_apply_instances_witness :
  exists insts s',
    MergeBatchNormtoRight.apply (Root ["bn"; "conv"]) ex_right_conv = (Ok insts, s')
    /\ map (fun i => (batch_norm i, linears i)) insts = [("bn", ["conv"])].
Proof.
  destruct (MergeBatchNormtoRight.apply (Root ["bn"; "conv"]) ex_right_conv)
    as [[insts|err] s'] eqn:E.
  - destruct (right_apply_instances _ _ _ _ E) as (Hmap & _).
    exists insts, s'. split; [reflexivity|]. exact Hmap.
  - vm_compute in E. discriminate E.
Defined.

(** ** Calling [remove] again *)

Lemma restore_wb_same L : restore_wb L L = L.
Proof. now destruct L. Qed.

Lemma restore_bn_same N : restore_bn N N = N.
Proof. now destruct N. Qed.

Lemma Forall2_elem_of_l {A B} (P : A -> B -> Prop) l1 l2 x :
  Forall2 P l1 l2 -> x ∈ l1 -> exists y, P x y.
Proof.
  induction 1 as [|a b l1 l2 Hab _ IH]; intros Hx.
  - now apply elem_of_nil in Hx.
  - apply elem_of_cons in Hx as [->|Hx]; eauto.
Qed.

(** [MergeBatchNorm.remove] on a store whose modules hold the values of the
    snapshot writes those values again: the store does not change. *)
Lemma base_remove_restored k ls bn e lp hs rl s N g be mu var :
  Forall2 (fun l p => exists L, modules s !! l = Some L
                       /\ weight L = Some (fst p) /\ bias L = snd p) ls lp ->
  modules s !! bn = Some N ->
  weight N = Some g -> bias N = Some be ->
  running_mean N = Some mu -> running_var N = Some var -> eps N = Some e ->
  MergeBatchNorm.remove
    (Instance k ls bn e lp
       [("weight", g); ("bias", be); ("running_mean", mu); ("running_var", var)] hs rl) s
  = (Ok tt, s).
Proof.
  intros Hlp HN Hg Hbe Hmu Hvar He. unfold MergeBatchNorm.remove.
  cbn [linears linear_params batch_norm batch_norm_params batch_norm_eps].
  destruct (remove_loop_eval (modules s) ls lp s Hlp) as (s2 & Hrun & Hid & Hout & Hin).
  { intros n Hn. destruct (Forall2_elem_of_l _ _ _ _ Hlp Hn) as (p & L & HL & HW & Hb).
    exists L, L. split_and!; eauto. }
  assert (s2 = s).
  { apply store_eq; [|exact Hid]. apply map_eq. intros n.
    destruct (decide (n ∈ ls)) as [Hn|Hn]; [|now apply Hout].
    destruct (Hin n Hn) as (L & L1 & HL & HL1 & ->).
    rewrite HL in HL1. injection HL1 as <-. now rewrite restore_wb_same. }
  subst s2. rewrite (bindM_ok _ _ _ _ _ Hrun).
  rewrite (remove_batch_norm_eval bn N N g be mu var e s HN Hg Hbe Hmu Hvar He)
    by eauto.
  f_equal. apply store_eq; [|reflexivity]. simpl.
  rewrite restore_bn_same. now apply insert_id.
Qed.

(** X11: for a left merge (sequential or named), [remove] after [register]
    returns and gives the store of before [register]; a second [remove] of
    the same instance returns as well and changes nothing. *)
Theorem left_remove_twice k ls bn s inst s' :
  k = K_SequentialMergeBatchNorm \/ (exists nm, k = K_NamedMergeBatchNorm nm) ->
  bn ∉ ls ->
  MergeBatchNorm.register k ls bn s = (Ok inst, s') ->
  remove inst s' = (Ok tt, s) /\ remove inst s = (Ok tt, s).
Proof.
  intros Hk Hbn H. split; [exact (left_register_undo _ _ _ _ _ _ Hk Hbn H)|].
  unfold MergeBatchNorm.register in H.
  apply bindM_inv_ok in H as (lp & s1 & Hlp & H).
  apply linear_params_ok in Hlp as [-> Hlp].
  apply bindM_inv_ok in H as (bp & s1 & Hbp & H).
  apply snapshot_batch_norm_ok in Hbp
    as [-> (N & g & be & mu & var & HN & Hg & Hbe & Hmu & Hvar & ->)].
  apply bindM_inv_ok in H as (e & s1 & He & H).
  apply get_eps_ok in He as [-> (N0 & HN0 & He)].
  rewrite HN in HN0. injection HN0 as <-.
  apply bindM_inv_ok in H as (u & s1 & _ & H).
  apply ret_ok in H as [-> _].
  unfold remove. cbn [i_class].
  destruct Hk as [->|[nm ->]];
    exact (base_remove_restored _ ls bn e lp [] None s N g be mu var
             Hlp HN Hg Hbe Hmu Hvar He).
Qed.

Lemma left_remove_twice_witness :
  exists inst s',
    MergeBatchNorm.register K_SequentialMergeBatchNorm ["fc"] "bn" ex_named = (Ok inst, s')
    /\ remove inst s' = (Ok tt, ex_named) /\ remove inst ex_named = (Ok tt, ex_named).
Proof.
  destruct (MergeBatchNorm.register K_SequentialMergeBatchNorm ["fc"] "bn" ex_named)
    as [[inst|err] s'] eqn:E.
  - exists inst, s'. split; [reflexivity|].
    apply (left_remove_twice K_SequentialMergeBatchNorm ["fc"] "bn" ex_named inst s');
      [left; reflexivity| |exact E].
    intros Hin. apply list_elem_of_singleton in Hin. discriminate Hin.
  - vm_compute in E. discriminate E.
Defined.

Lemma drop_id_absent id hooks :
  Forall (fun e : nat * hook => fst e <> id) hooks -> drop_id id hooks = hooks.
Proof.
  unfold drop_id. induction 1 as [|e hooks He _ IH]; [reflexivity|].
  rewrite filter_cons. destruct (decide (fst e <> id)); [now rewrite IH|contradiction].
Qed.

(** [handle.remove()] on a handle whose id is gone does nothing. *)
Lemma handles_remove_stale s : forall hs,
  Forall (stale s) hs -> for_each hs handle_remove s = (Ok tt, s).
Proof.
  induction 1 as [|h hs (m & Hm & Hh) _ IH]; simpl; [reflexivity|].
  assert (Hrun : handle_remove h s = (Ok tt, s)).
  { rewrite (handle_remove_eval h s m Hm). f_equal.
    apply store_eq; [|reflexivity]. simpl. apply insert_id. rewrite Hm. f_equal.
    destruct (h_dict h); rewrite (drop_id_absent _ _ Hh); now destruct m. }
  now rewrite (bindM_ok _ _ _ _ _ Hrun).
Qed.

Lemma del_canonization_params_absent n s m :
  modules s !! n = Some m -> canonization_params m = None ->
  del_canonization_params n s = (Raise (AttributeError "canonization_params"), s).
Proof.
  intros Hm Hcp. unfold del_canonization_params, get_canonization_params. mnorm.
  rewrite (bindM_ok _ _ _ _ _ (get_module_eval n s m Hm)).
  unfold lift, bindM. now rewrite Hcp.
Qed.

(** [MergeBatchNormtoRight.remove] on a store whose modules are as before
    [register]: the values are written again, the handles find nothing to
    delete, and [delattr] fails on a padded convolution. *)
Lemma right_remove_restored k l bn e W hs rl s L N g be mu var :
  modules s !! l = Some L -> weight L = Some W -> canonization_params L = None ->
  modules s !! bn = Some N ->
  weight N = Some g -> bias N = Some be ->
  running_mean N = Some mu -> running_var N = Some var -> eps N = Some e ->
  Forall (stale s) hs ->
  MergeBatchNormtoRight.remove
    (Instance k [l] bn e [(W, bias L)]
       [("weight", g); ("bias", be); ("running_mean", mu); ("running_var", var)] hs rl) s
  = (if padded_conv L then Raise (AttributeError "canonization_params") else Ok tt, s).
Proof.
  intros HL HW Hcp HN Hg Hbe Hmu Hvar He Hhs. unfold MergeBatchNormtoRight.remove.
  rewrite (bindM_ok _ _ _ _ _
             (base_remove_restored k [l] bn e [(W, bias L)] hs rl s N g be mu var
                ltac:(repeat constructor; eauto) HN Hg Hbe Hmu Hvar He)).
  cbn [handles linears].
  rewrite (bindM_ok _ _ _ _ _ (handles_remove_stale s hs Hhs)).
  simpl. mnorm. rewrite (bindM_ok _ _ _ _ _ (get_module_eval l s L HL)).
  unfold padded_conv.
  destruct (bool_decide (cls L = nn_Conv2d)); simpl; [|reflexivity].
  destruct (decide (padding L = [0; 0])) as [Hp|Hp].
  - rewrite (bool_decide_eq_true_2 _ Hp), bool_decide_eq_false_2 by tauto. reflexivity.
  - rewrite (bool_decide_eq_false_2 _ Hp), bool_decide_eq_true_2 by exact Hp. simpl.
    erewrite (bindM_raise (del_canonization_params l));
      [reflexivity|eapply del_canonization_params_absent; eassumption].
Qed.

Lemma fresh_ids_differ (hooks : list (nat * hook)) bound id :
  Forall (fun e : nat * hook => fst e < bound) hooks -> bound <= id ->
  Forall (fun e : nat * hook => fst e <> id) hooks.
Proof. intros H Hle. eapply Forall_impl; [exact H|]. simpl. intros e He. lia. Qed.

(** X12: for a right merge on untouched nodes, [remove] after [register]
    returns and restores the modules; a second [remove] of the same instance
    changes nothing, and it returns when the linear module is not a
    [torch.nn.Conv2d] with padding other than (0, 0) and raises
    [AttributeError] on [delattr(module, "canonization_params")] when it is
    one. *)
Theorem right_remove_twice l bn s L inst s' :
  matched (RightPattern bn l) s ->
  modules s !! l = Some L ->
  register (RightPattern bn l) s = (Ok inst, s') ->
  exists s1,
    remove inst s' = (Ok tt, s1) /\ modules s1 = modules s
    /\ remove inst s1
       = (if padded_conv L then Raise (AttributeError "canonization_params") else Ok tt, s1).
Proof.
  intros (Hbn & Hl & Hclean) HL H. simpl in H.
  assert (Hne : l <> bn)
    by exact (classes_differ _ _ _ _ _ Linear_not_BatchNorm Hl Hbn).
  destruct (right_roundtrip l bn s inst s' Hne Hclean H) as (s1 & Hrun & Hmods).
  exists s1. split; [exact Hrun|]. split; [exact Hmods|].
  destruct (right_register_effect _ _ _ _ _ _ Hne H)
    as (L0 & L' & N & N' & W & g & be & mu & var & e & HL0 & HN & _ & HW & Hg & Hbe
        & Hmu & Hvar & He & _ & _ & _ & _ & _ & _ & _ & _ & Hinst & Hcase).
  rewrite HL in HL0. injection HL0 as <-.
  destruct (Hclean L HL) as (Hcp & _ & Hfresh).
  rewrite Hinst. unfold remove. cbn [i_class].
  apply right_remove_restored with (N := N); try assumption; try (now rewrite Hmods).
  destruct (padded_conv L); destruct Hcase as (-> & _); [|constructor].
  repeat constructor. exists L. simpl. rewrite Hmods. split; [exact HL|].
  eapply fresh_ids_differ; [exact Hfresh|lia].
Qed.

Lemma right_remove_twice_witness :
  exists inst s' s1,
    register (RightPattern "bn" "conv") ex_right_padded = (Ok inst, s')
    /\ remove inst s' = (Ok tt, s1) /\ modules s1 = modules ex_right_padded
    /\ remove inst s1 = (Raise (AttributeError "canonization_params"), s1).
Proof.
  destruct (register (RightPattern "bn" "conv") ex_right_padded)
    as [[inst|err] s'] eqn:E.
  - destruct (right_remove_twice "conv" "bn" ex_right_padded
                (mk_linear nn_Conv2d (full [1; 1; 3; 3] 1) None [1; 1] [1; 1]) inst s')
      as (s1 & H1 & H2 & H3); [|reflexivity|exact E|].
    + split; [eexists; split; reflexivity|]. split; [eexists; split; reflexivity|].
      intros m Hm. vm_compute in Hm. injection Hm as <-. repeat constructor.
    + exists inst, s', s1. auto.
  - vm_compute in E. discriminate E.
Defined.

(** The instance [ThreshReLUMergeBatchNorm.register] returns. *)
Lemma thresh_register_instance l bn r s inst s' :
  l <> bn -> r <> l -> r <> bn ->
  ThreshReLUMergeBatchNorm.register [l] bn r s = (Ok inst, s') ->
  exists L N R W g be mu var e hs id1 id2,
    modules s !! l = Some L /\ modules s !! bn = Some N /\ modules s !! r = Some R
    /\ weight L = Some W
    /\ weight N = Some g /\ bias N = Some be
    /\ running_mean N = Some mu /\ running_var N = Some var /\ eps N = Some e
    /\ inst = Instance K_ThreshReLUMergeBatchNorm [l] bn e [(W, bias L)]
                [("weight", g); ("bias", be); ("running_mean", mu); ("running_var", var)]
                (hs ++ [Handle r ForwardPreHooks id1] ++ [Handle r ForwardHooks id2])
                (Some r)
    /\ next_id s <= id1 /\ next_id s <= id2
    /\ (if padded_conv L then hs = [Handle l ForwardHooks (next_id s)] else hs = []).
Proof.
  intros Hne Hrl Hrb H. unfold ThreshReLUMergeBatchNorm.register in H.
  apply bindM_inv_ok in H as (scale & s0 & Hsc & H).
  apply batch_norm_scale_pure in Hsc as ->.
  apply bindM_inv_ok in H as (shift & s0 & Hsh & H).
  apply batch_norm_shift_pure in Hsh as ->.
  apply bindM_inv_ok in H as (R & s0 & HR & H).
  apply get_module_ok in HR as [-> HR].
  apply bindM_inv_ok in H as (u1 & s1 & H1 & H).
  apply update_module_ok in H1 as (R0 & HR0 & ->).
  apply bindM_inv_ok in H as (u2 & s2 & H2 & H).
  apply set_canonization_param_ok in H2 as (R1 & cp1 & HR1 & Hcp1 & ->).
  apply bindM_inv_ok in H as (u3 & s3 & H3 & H).
  apply set_canonization_param_ok in H3 as (R2 & cp2 & HR2 & Hcp2 & ->).
  simpl in H. rewrite !insert_insert_eq in H.
  apply bindM_inv_ok in H as (self & sb & Hreg & H).
  destruct (right_register_effect _ _ _ _ _ _ Hne Hreg)
    as (L & L' & N & N' & W & g & be & mu & var & e & HL & HN & Hmods & HW & Hg & Hbe
        & Hmu & Hvar & He & _ & _ & _ & _ & _ & _ & _ & _ & Hinst & Hcase).
  simpl in HL, HN, Hcase.
  rewrite lookup_insert_ne in HL by congruence.
  rewrite lookup_insert_ne in HN by congruence.
  assert (Hidb : next_id s <= next_id sb).
  { destruct (padded_conv L); destruct Hcase as (_ & -> & _); lia. }
  apply bindM_inv_ok in H as (h1 & sc & Hh1 & H).
  apply register_forward_pre_hook_ok in Hh1 as (Rb & HRb & -> & ->).
  apply bindM_inv_ok in H as (h2 & sd & Hh2 & H).
  apply register_forward_hook_ok in Hh2 as (Rc & HRc & -> & ->).
  apply ret_ok in H as [-> ->]. simpl.
  exists L, N, R, W, g, be, mu, var, e, (handles self), (next_id sb), (S (next_id sb)).
  rewrite Hinst. cbn [i_class linears batch_norm batch_norm_eps linear_params
                        batch_norm_params handles].
  split_and!; try assumption; try reflexivity; try lia.
  destruct (padded_conv L); now destruct Hcase as (-> & _).
Qed.

(** X13: for the threshold rewrite on untouched nodes, [remove] after
    [register] returns and restores the modules; a second [remove] of the
    same instance changes nothing and raises [AttributeError] on a
    [delattr] of [canonization_params]. *)
Theorem thresh_remove_twice l bn r s inst s' :
  matched (ThreshPattern bn r l) s ->
  register (ThreshPattern bn r l) s = (Ok inst, s') ->
  exists s1,
    remove inst s' = (Ok tt, s1) /\ modules s1 = modules s
    /\ remove inst s1 = (Raise (AttributeError "canonization_params"), s1).
Proof.
  intros (Hbn & Hr & Hl & Hcr & Hcl) H. simpl in H.
  assert (Hne : l <> bn) by exact (classes_differ _ _ _ _ _ Linear_not_BatchNorm Hl Hbn).
  assert (Hrl : r <> l) by exact (classes_differ _ _ _ _ _ ReLU_not_Linear Hr Hl).
  assert (Hrb : r <> bn) by exact (classes_differ _ _ _ _ _ ReLU_not_BatchNorm Hr Hbn).
  destruct (thresh_roundtrip l bn r s inst s' Hne Hrl Hrb Hcl Hcr H) as (s1 & Hrun & Hmods).
  exists s1. split; [exact Hrun|]. split; [exact Hmods|].
  destruct (thresh_register_instance l bn r s inst s' Hne Hrl Hrb H)
    as (L & N & R & W & g & be & mu & var & e & hs & id1 & id2 & HL & HN & HR & HW & Hg
        & Hbe & Hmu & Hvar & He & -> & Hid1 & Hid2 & Hhs).
  destruct (Hcl L HL) as (HcpL & _ & HfreshL).
  destruct (Hcr R HR) as (HcpR & HfreshRp & HfreshRf).
  unfold remove. cbn [i_class]. unfold ThreshReLUMergeBatchNorm.remove. cbn [relu].
  unfold bindM.
  rewrite (right_remove_restored K_ThreshReLUMergeBatchNorm l bn e W _ (Some r) s1
             L N g be mu var); try assumption; try (now rewrite Hmods).
  - destruct (padded_conv L); [reflexivity|].
    eapply del_canonization_params_absent; [rewrite Hmods; exact HR|exact HcpR].
  - apply Forall_app. split.
    + destruct (padded_conv L); subst hs; [|constructor].
      repeat constructor. exists L. simpl. rewrite Hmods. split; [exact HL|].
      eapply fresh_ids_differ; [exact HfreshL|lia].
    + repeat constructor; exists R; simpl; rewrite Hmods; (split; [exact HR|]);
        eapply fresh_ids_differ; eauto.
Qed.

Lemma thresh_remove_twice_witness :
  exists inst s' s1,
    register (ThreshPattern "bn" "relu" "conv") ex_thresh = (Ok inst, s')
    /\ remove inst s' = (Ok tt, s1) /\ modules s1 = modules ex_thresh
    /\ remove inst s1 = (Raise (AttributeError "canonization_params"), s1).
Proof.
  destruct (register (ThreshPattern "bn" "relu" "conv") ex_thresh)
    as [[inst|err] s'] eqn:E.
  - destruct (thresh_remove_twice "conv" "bn" "relu" ex_thresh inst s' ex_thresh_matched E)
      as (s1 & H1 & H2 & H3).
    exists inst, s', s1. auto.
  - vm_compute in E. discriminate E.
Defined.

(** ** Attribute overloading *)

Section AttributeOverloading.

Context {V : Type}.

Import AttributeCanonizer.

Lemma object_eta (o : object V) : Object (instance_dict o) (class_dict o) = o.
Proof. now destruct o. Qed.

Lemma overload_lookup_notin (attrs : list (string * V)) (d : gmap string V) k :
  k ∉ attrs.*1 ->
  foldl (fun d kv => <[fst kv := snd kv]> d) d attrs !! k = d !! k.
Proof.
  revert d. induction attrs as [|[k' v'] attrs IH]; intros d Hk; [reflexivity|].
  simpl in *. apply not_elem_of_cons in Hk as [Hne Hk].
  rewrite IH by exact Hk. now rewrite lookup_insert_ne.
Qed.

Lemma overload_lookup_in (attrs : list (string * V)) (d : gmap string V) k v :
  NoDup attrs.*1 -> (k, v) ∈ attrs ->
  foldl (fun d kv => <[fst kv := snd kv]> d) d attrs !! k = Some v.
Proof.
  revert d. induction attrs as [|[k' v'] attrs IH]; intros d Hnd Hin.
  - now apply elem_of_nil in Hin.
  - simpl in *. apply NoDup_cons in Hnd as [Hk' Hnd].
    apply elem_of_cons in Hin as [Heq|Hin].
    + injection Heq as -> ->. rewrite overload_lookup_notin by exact Hk'.
      apply lookup_insert_eq.
    + now apply IH.
Qed.

Lemma strip_lookup_notin (keys : list string) (d : gmap string V) k :
  k ∉ keys -> foldl (fun d k => delete k d) d keys !! k = d !! k.
Proof.
  revert d. induction keys as [|k' keys IH]; intros d Hk; [reflexivity|].
  simpl. apply not_elem_of_cons in Hk as [Hne Hk].
  rewrite IH by exact Hk. now rewrite lookup_delete_ne.
Qed.

Lemma strip_lookup_in (keys : list string) (d : gmap string V) k :
  k ∈ keys -> foldl (fun d k => delete k d) d keys !! k = None.
Proof.
  revert d. induction keys as [|k' keys IH]; intros d Hin.
  - now apply elem_of_nil in Hin.
  - simpl. destruct (decide (k ∈ keys)) as [Hk|Hk]; [now apply IH|].
    apply elem_of_cons in Hin as [->|Hin]; [|contradiction].
    rewrite strip_lookup_notin by exact Hk. apply lookup_delete_eq.
Qed.

Lemma hbind_ok {A B} (c : MA V A) (k : A -> MA V B) h a h' :
  c h = (Ok a, h') -> hbind c k h = k a h'.
Proof. intros E. unfold hbind. now rewrite E. Qed.

Lemma hbind_raise {A B} (c : MA V A) (k : A -> MA V B) h e h' :
  c h = (Raise e, h') -> hbind c k h = (Raise e, h').
Proof. intros E. unfold hbind. now rewrite E. Qed.

Lemma strip_overload (attrs : list (string * V)) o :
  strip attrs.*1 (overload attrs o) = strip attrs.*1 o.
Proof.
  unfold strip, overload. simpl. f_equal. apply map_eq. intros k.
  destruct (decide (k ∈ attrs.*1)) as [Hk|Hk].
  - now rewrite !strip_lookup_in.
  - now rewrite !strip_lookup_notin, overload_lookup_notin.
Qed.

Lemma strip_same (keys : list string) (o : object V) :
  strip keys o = o <-> Forall (fun k => instance_dict o !! k = None) keys.
Proof.
  split.
  - intros E. apply Forall_forall. intros k Hk. rewrite <- E. simpl.
    now apply strip_lookup_in.
  - intros Hf. rewrite <- (object_eta o) at 2. unfold strip. f_equal.
    apply map_eq. intros k. destruct (decide (k ∈ keys)) as [Hk|Hk].
    + rewrite strip_lookup_in by exact Hk. symmetry.
      exact (proj1 (Forall_forall _ _) Hf k Hk).
    + now apply strip_lookup_notin.
Qed.

Lemma overload_keys_set (attrs : list (string * V)) o :
  NoDup attrs.*1 ->
  Forall (fun k => is_Some (instance_dict (overload attrs o) !! k)) attrs.*1.
Proof.
  intros Hnd. apply Forall_forall. intros k Hk.
  apply list_elem_of_fmap in Hk as ([k' v] & -> & Hin). simpl.
  exists v. now apply overload_lookup_in.
Qed.

(** The loop of [register]. *)
Lemma setattr_loop_eval (attrs : list (string * V)) m h o :
  h !! m = Some o ->
  hfor_each attrs (fun kv => setattr m (fst kv) (snd kv)) h
  = (Ok tt, <[m := overload attrs o]> h).
Proof.
  revert h o. induction attrs as [|[k v] attrs IH]; intros h o Hm.
  - cbn [hfor_each]. unfold hret, overload. cbn [foldl]. rewrite object_eta.
    now rewrite insert_id.
  - cbn [hfor_each]. erewrite hbind_ok; [|unfold setattr; rewrite Hm; reflexivity].
    rewrite (IH _ _ (lookup_insert_eq _ _ _)). now rewrite insert_insert_eq.
Qed.

Lemma register_eval (self : canonizer V) m attrs h o :
  h !! m = Some o ->
  register self m attrs h
  = (Ok (Canonizer (attribute_map self) (Some attrs.*1) (Some m)),
     <[m := overload attrs o]> h).
Proof.
  intros Hm. unfold register.
  now rewrite (hbind_ok _ _ _ _ _ (setattr_loop_eval attrs m h o Hm)).
Qed.

(** The loop of [remove] on keys that are all set. *)
Lemma delattr_loop_eval (keys : list string) m h (o : object V) :
  NoDup keys -> h !! m = Some o ->
  Forall (fun k => is_Some (instance_dict o !! k)) keys ->
  hfor_each keys (fun key => delattr m key) h = (Ok tt, <[m := strip keys o]> h).
Proof.
  revert h o. induction keys as [|k keys IH]; intros h o Hnd Hm Hset.
  - cbn [hfor_each]. unfold hret, strip. cbn [foldl]. rewrite object_eta.
    now rewrite insert_id.
  - apply NoDup_cons in Hnd as [Hk Hnd].
    apply Forall_cons in Hset as [[v Hv] Hset].
    cbn [hfor_each].
    erewrite hbind_ok; [|unfold delattr; rewrite Hm, Hv; reflexivity].
    rewrite (IH _ (Object (delete k (instance_dict o)) (class_dict o)) Hnd
               (lookup_insert_eq _ _ _)).
    + now rewrite insert_insert_eq.
    + simpl. eapply Forall_impl.
      * apply Forall_forall. intros k' Hk'.
        exact (conj Hk' (proj1 (Forall_forall _ _) Hset k' Hk')).
      * intros k' [Hk' Hs]. simpl. rewrite lookup_delete_ne; [exact Hs|].
        intros ->. contradiction.
Qed.

Lemma remove_eval am (keys : list string) m h (o : object V) :
  NoDup keys -> h !! m = Some o ->
  Forall (fun k => is_Some (instance_dict o !! k)) keys ->
  remove (Canonizer am (Some keys) (Some m)) h = (Ok tt, <[m := strip keys o]> h).
Proof. intros. unfold remove. simpl. now apply delattr_loop_eval. Qed.

(** The loop of [remove] when its first key is not set. *)
Lemma remove_unset am (k : string) keys m h (o : object V) :
  h !! m = Some o -> instance_dict o !! k = None ->
  remove (Canonizer am (Some (k :: keys)) (Some m)) h = (Raise (AttributeError k), h).
Proof.
  intros Hm Hk. unfold remove. simpl.
  apply hbind_raise. unfold delattr. now rewrite Hm, Hk.
Qed.

Lemma getattr_eval (h : gmap string (object V)) m k o :
  h !! m = Some o ->
  getattr h m k
  = match instance_dict o !! k with
    | Some v => Ok v
    | None => of_option (class_dict o !! k) (AttributeError k)
    end.
Proof. intros Hm. unfold getattr. now rewrite Hm. Qed.

(** X14: [register] on a module returns and sets the attributes on the
    instance: a lookup of one of the keys gives its value, a lookup of
    any other attribute gives what it gave before, and no other module
    changes. *)
Theorem attribute_register_overloads (self : canonizer V) m attrs h o :
  NoDup attrs.*1 -> h !! m = Some o ->
  exists inst h1,
    register self m attrs h = (Ok inst, h1)
    /\ attribute_keys inst = Some attrs.*1 /\ module inst = Some m
    /\ (forall k v, (k, v) ∈ attrs -> getattr h1 m k = Ok v)
    /\ (forall k, k ∉ attrs.*1 -> getattr h1 m k = getattr h m k)
    /\ (forall n, n <> m -> h1 !! n = h !! n).
Proof.
  intros Hnd Hm. eexists _, _. split; [exact (register_eval self m attrs h o Hm)|].
  split_and!; try reflexivity.
  - intros k v Hin. rewrite (getattr_eval _ m k _ (lookup_insert_eq _ _ _)).
    simpl. now rewrite (overload_lookup_in attrs _ k v Hnd Hin).
  - intros k Hk. rewrite (getattr_eval _ m k _ (lookup_insert_eq _ _ _)).
    rewrite (getattr_eval _ m k _ Hm). simpl.
    now rewrite overload_lookup_notin.
  - intros n Hn. now rewrite lookup_insert_ne.
Qed.

(** X15: [remove] after [register] returns and deletes the keys from the
    instance: a lookup of one of them then finds the attribute of the
    class, if there is one, also where the instance had an attribute of
    that name before [register]; everything else is as before
    [register]. The model is exactly as before if and only if none of
    the keys was an attribute of the instance. *)
Theorem attribute_register_remove (self : canonizer V) m attrs h o :
  NoDup attrs.*1 -> h !! m = Some o ->
  exists inst h1 h2,
    register self m attrs h = (Ok inst, h1)
    /\ remove inst h1 = (Ok tt, h2)
    /\ (forall k, k ∈ attrs.*1 ->
          getattr h2 m k = of_option (class_dict o !! k) (AttributeError k))
    /\ (forall k, k ∉ attrs.*1 -> getattr h2 m k = getattr h m k)
    /\ (forall n, n <> m -> h2 !! n = h !! n)
    /\ (h2 = h <-> Forall (fun k => instance_dict o !! k = None) attrs.*1).
Proof.
  intros Hnd Hm. eexists _, _, _.
  split; [exact (register_eval self m attrs h o Hm)|].
  split.
  { rewrite (remove_eval _ attrs.*1 m _ (overload attrs o) Hnd (lookup_insert_eq _ _ _)
               (overload_keys_set attrs o Hnd)).
    rewrite insert_insert_eq, strip_overload. reflexivity. }
  split_and!.
  - intros k Hk. rewrite (getattr_eval _ m k _ (lookup_insert_eq _ _ _)).
    simpl. now rewrite strip_lookup_in.
  - intros k Hk. rewrite (getattr_eval _ m k _ (lookup_insert_eq _ _ _)).
    rewrite (getattr_eval _ m k _ Hm). simpl. now rewrite strip_lookup_notin.
  - intros n Hn. now rewrite lookup_insert_ne.
  - rewrite <- strip_same. split.
    + intros E. apply (f_equal (fun h => h !! m)) in E.
      rewrite lookup_insert_eq, Hm in E. congruence.
    + intros ->. now apply insert_id.
Qed.

(** X16: a second [remove] after [register] and [remove] changes
    nothing; it raises [AttributeError] for the first key, and returns
    only if there is no key. *)
Theorem attribute_remove_twice (self : canonizer V) m attrs h o :
  NoDup attrs.*1 -> h !! m = Some o ->
  exists inst h1 h2,
    register self m attrs h = (Ok inst, h1)
    /\ remove inst h1 = (Ok tt, h2)
    /\ remove inst h2
       = (match attrs with
          | [] => Ok tt
          | kv :: _ => Raise (AttributeError (fst kv))
          end, h2).
Proof.
  intros Hnd Hm. eexists _, _, _.
  split; [exact (register_eval self m attrs h o Hm)|].
  split.
  { rewrite (remove_eval _ attrs.*1 m _ (overload attrs o) Hnd (lookup_insert_eq _ _ _)
               (overload_keys_set attrs o Hnd)).
    rewrite insert_insert_eq, strip_overload. reflexivity. }
  destruct attrs as [|[k v] attrs]; [reflexivity|].
  apply (remove_unset _ k _ m _ (strip ((k, v) :: attrs).*1 o) (lookup_insert_eq _ _ _)).
  simpl. apply (strip_lookup_in (k :: attrs.*1)). apply list_elem_of_here.
Qed.

Lemma list_omap_ext_in {A B} (f g : A -> option B) (l : list A) :
  (forall x, x ∈ l -> f x = g x) -> omap f l = omap g l.
Proof.
  induction l as [|x l IH]; intros Hfg; [reflexivity|].
  assert (E : omap f l = omap g l).
  { apply IH. intros y Hy. apply Hfg. now apply list_elem_of_further. }
  simpl. rewrite (Hfg x) by apply list_elem_of_here.
  destruct (g x); [f_equal; exact E|exact E].
Qed.

(** The loop of [apply] on distinct names: each module is looked at
    before any change to it. *)
Lemma apply_loop_eval (self : canonizer V) names acc h :
  NoDup names -> Forall (fun n => is_Some (h !! n)) names ->
  exists h1,
    apply_loop self names acc h = (Ok (acc ++ omap (applied_instance self h) names), h1)
    /\ (forall n attrs o, n ∈ names -> h !! n = Some o ->
          attribute_map self n o = Some attrs -> h1 !! n = Some (overload attrs o))
    /\ (forall n, n ∉ names \/ overloaded_keys self h n = None -> h1 !! n = h !! n).
Proof.
  revert acc h. induction names as [|n names IH]; intros acc h Hnd Hall.
  - exists h. simpl. rewrite app_nil_r. split_and!; [reflexivity| |reflexivity].
    intros n attrs o Hn. now apply elem_of_nil in Hn.
  - apply NoDup_cons in Hnd as [Hn Hnd]. apply Forall_cons in Hall as [[o Ho] Hall].
    cbn [apply_loop].
    erewrite hbind_ok; [|unfold get_object; rewrite Ho; reflexivity].
    assert (Hkeys : overloaded_keys self h n = attribute_map self n o).
    { unfold overloaded_keys. now rewrite Ho. }
    destruct (attribute_map self n o) as [attrs|] eqn:Hmap.
    + cbv zeta. rewrite (hbind_ok _ _ _ _ _ (register_eval (copy self) n attrs h o Ho)).
      cbn [copy init attribute_map].
      set (h' := <[n := overload attrs o]> h).
      destruct (IH (acc ++ [Canonizer (attribute_map self) (Some attrs.*1) (Some n)]) h'
                  Hnd) as (h1 & Hrun & Hin & Hout).
      { apply Forall_forall. intros n' Hn'. subst h'.
        rewrite lookup_insert_ne; [exact (proj1 (Forall_forall _ _) Hall n' Hn')|].
        intros ->. contradiction. }
      assert (Hsame : forall n', n' ∈ names -> h' !! n' = h !! n').
      { intros n' Hn'. subst h'. apply lookup_insert_ne. intros ->. contradiction. }
      exists h1. split_and!.
      * rewrite Hrun, <- app_assoc. cbn [omap list_omap].
        rewrite (list_omap_ext_in (applied_instance self h') (applied_instance self h)
                   names).
        -- unfold applied_instance at 2. now rewrite Hkeys.
        -- intros n' Hn'. unfold applied_instance, overloaded_keys.
           now rewrite Hsame.
      * intros n' attrs' o' Hn' Ho' Hmap'.
        apply elem_of_cons in Hn' as [->|Hn'].
        -- rewrite Ho in Ho'. injection Ho' as <-. rewrite Hmap in Hmap'.
           injection Hmap' as <-. rewrite (Hout n (or_introl Hn)).
           subst h'. apply lookup_insert_eq.
        -- apply (Hin n' attrs' o' Hn'); [|exact Hmap']. now rewrite Hsame.
      * intros n' [Hn'|Hn'].
        -- apply not_elem_of_cons in Hn' as [Hne Hn']. rewrite (Hout n' (or_introl Hn')).
           subst h'. now apply lookup_insert_ne.
        -- destruct (decide (n' = n)) as [->|Hne]; [congruence|].
           rewrite Hout.
           ++ subst h'. now apply lookup_insert_ne.
           ++ right. unfold overloaded_keys in *. subst h'.
              now rewrite lookup_insert_ne.
    + destruct (IH acc h Hnd Hall) as (h1 & Hrun & Hin & Hout).
      exists h1. split_and!.
      * rewrite Hrun. cbn [omap list_omap]. unfold applied_instance at 2.
        now rewrite Hkeys.
      * intros n' attrs' o' Hn' Ho' Hmap'.
        apply elem_of_cons in Hn' as [->|Hn']; [congruence|].
        now apply (Hin n' attrs' o').
      * intros n' [Hn'|Hn'].
        -- apply not_elem_of_cons in Hn' as [Hne Hn']. now apply Hout; left.
        -- now apply Hout; right.
Qed.

(** Removing the instances of distinct modules whose keys are all set. *)
Lemma remove_all_eval am (G : string -> option (list (string * V))) names
    (h1 : gmap string (object V)) :
  NoDup names ->
  (forall n attrs, n ∈ names -> G n = Some attrs ->
     NoDup attrs.*1
     /\ exists o1, h1 !! n = Some o1
                   /\ Forall (fun k => is_Some (instance_dict o1 !! k)) attrs.*1) ->
  exists h2,
    remove_all
      (omap (fun n => match G n with
                      | Some attrs => Some (Canonizer am (Some attrs.*1) (Some n))
                      | None => None
                      end) names) h1
    = (Ok tt, h2)
    /\ (forall n attrs o1, n ∈ names -> G n = Some attrs -> h1 !! n = Some o1 ->
          h2 !! n = Some (strip attrs.*1 o1))
    /\ (forall n, n ∉ names \/ G n = None -> h2 !! n = h1 !! n).
Proof.
  revert h1. induction names as [|n names IH]; intros h1 Hnd Hset.
  - exists h1. split_and!; [reflexivity| |reflexivity].
    intros n attrs o1 Hn. now apply elem_of_nil in Hn.
  - apply NoDup_cons in Hnd as [Hn Hnd]. cbn [omap list_omap].
    destruct (G n) as [attrs|] eqn:HG.
    + destruct (Hset n attrs (list_elem_of_here _ _) HG) as (Hka & o1 & Ho1 & Hk).
      set (h' := <[n := strip attrs.*1 o1]> h1).
      assert (Hsame : forall n', n' ∈ names -> h' !! n' = h1 !! n').
      { intros n' Hn'. subst h'. apply lookup_insert_ne. intros ->. contradiction. }
      destruct (IH h' Hnd) as (h2 & Hrun & Hin & Hout).
      { intros n' attrs' Hn' HG'. rewrite (Hsame n' Hn').
        apply Hset; [now apply list_elem_of_further|exact HG']. }
      exists h2. split_and!.
      * unfold remove_all in *. simpl.
        rewrite (hbind_ok _ _ _ _ _ (remove_eval am attrs.*1 n h1 o1 Hka Ho1 Hk)).
        exact Hrun.
      * intros n' attrs' o' Hn' HG' Ho'.
        apply elem_of_cons in Hn' as [->|Hn'].
        -- rewrite HG in HG'. injection HG' as <-. rewrite Ho1 in Ho'.
           injection Ho' as <-. rewrite (Hout n (or_introl Hn)).
           subst h'. apply lookup_insert_eq.
        -- apply (Hin n' attrs' o' Hn' HG'). now rewrite Hsame.
      * intros n' [Hn'|Hn'].
        -- apply not_elem_of_cons in Hn' as [Hne Hn']. rewrite (Hout n' (or_introl Hn')).
           subst h'. now apply lookup_insert_ne.
        -- destruct (decide (n' = n)) as [->|Hne]; [congruence|].
           rewrite (Hout n' (or_intror Hn')). subst h'. now apply lookup_insert_ne.
    + destruct (IH h1 Hnd) as (h2 & Hrun & Hin & Hout).
      { intros n' attrs' Hn' HG'. apply Hset; [now apply list_elem_of_further|exact HG']. }
      exists h2. split_and!.
      * exact Hrun.
      * intros n' attrs' o' Hn' HG' Ho'.
        apply elem_of_cons in Hn' as [->|Hn']; [congruence|].
        now apply (Hin n' attrs' o').
      * intros n' [Hn'|Hn'].
        -- apply not_elem_of_cons in Hn' as [Hne Hn']. now apply Hout; left.
        -- now apply Hout; right.
Qed.

(** X17: on the distinct modules of [named_modules()], [apply] returns
    one registered instance for each module for which [attribute_map]
    gives a dict, in the order of [named_modules()], each holding the
    keys of that dict and its module. [attribute_map] sees each module
    as it was before [apply]; exactly the modules with a dict get its
    attributes, and no other module changes. *)
Theorem attribute_apply_instances (self : canonizer V) names h :
  NoDup names -> Forall (fun n => is_Some (h !! n)) names ->
  exists h1,
    apply self names h = (Ok (omap (applied_instance self h) names), h1)
    /\ (forall n attrs o, n ∈ names -> h !! n = Some o ->
          attribute_map self n o = Some attrs -> h1 !! n = Some (overload attrs o))
    /\ (forall n, n ∉ names \/ overloaded_keys self h n = None -> h1 !! n = h !! n).
Proof.
  intros Hnd Hall. exact (apply_loop_eval self names [] h Hnd Hall).
Qed.

(** X18: removing the instances that [apply] returned, first to last,
    returns; every module for which [attribute_map] gave a dict is left
    without instance attributes of the dict's keys, and every other
    module as it was. The model is exactly as before [apply] if and only
    if no module had an instance attribute under a key of its dict. *)
Theorem attribute_apply_undone (self : canonizer V) names h :
  NoDup names -> Forall (fun n => is_Some (h !! n)) names ->
  (forall n attrs, n ∈ names -> overloaded_keys self h n = Some attrs -> NoDup attrs.*1) ->
  exists insts h1 h2,
    apply self names h = (Ok insts, h1)
    /\ remove_all insts h1 = (Ok tt, h2)
    /\ (forall n attrs o, n ∈ names -> h !! n = Some o ->
          attribute_map self n o = Some attrs -> h2 !! n = Some (strip attrs.*1 o))
    /\ (forall n, n ∉ names \/ overloaded_keys self h n = None -> h2 !! n = h !! n)
    /\ (h2 = h <->
        forall n attrs o k, n ∈ names -> h !! n = Some o ->
          attribute_map self n o = Some attrs -> k ∈ attrs.*1 ->
          instance_dict o !! k = None).
Proof.
  intros Hnd Hall Hkeys.
  destruct (apply_loop_eval self names [] h Hnd Hall) as (h1 & Hrun & Hin & Hout).
  destruct (remove_all_eval (attribute_map self) (overloaded_keys self h) names h1 Hnd)
    as (h2 & Hrem & Hin2 & Hout2).
  { intros n attrs Hn HG. split; [exact (Hkeys n attrs Hn HG)|].
    unfold overloaded_keys in HG. destruct (h !! n) as [o|] eqn:Ho; [|discriminate].
    exists (overload attrs o). split; [exact (Hin n attrs o Hn Ho HG)|].
    apply overload_keys_set. apply (Hkeys n attrs Hn).
    unfold overloaded_keys. now rewrite Ho. }
  assert (Hstrip : forall n attrs o, n ∈ names -> h !! n = Some o ->
            attribute_map self n o = Some attrs -> h2 !! n = Some (strip attrs.*1 o)).
  { intros n attrs o Hn Ho Hmap. rewrite <- strip_overload.
    apply Hin2; [exact Hn| |exact (Hin n attrs o Hn Ho Hmap)].
    unfold overloaded_keys. now rewrite Ho. }
  assert (Hrest : forall n, n ∉ names \/ overloaded_keys self h n = None ->
            h2 !! n = h !! n).
  { intros n Hn. rewrite (Hout2 n Hn). exact (Hout n Hn). }
  exists (omap (applied_instance self h) names), h1, h2.
  split_and!; [exact Hrun|exact Hrem|exact Hstrip|exact Hrest|].
  split.
  - intros -> n attrs o k Hn Ho Hmap Hk.
    pose proof (Hstrip n attrs o Hn Ho Hmap) as E. rewrite Ho in E.
    injection E as E. symmetry in E. apply strip_same in E.
    exact (proj1 (Forall_forall _ _) E k Hk).
  - intros Hfree. apply map_eq. intros n.
    destruct (decide (n ∈ names)) as [Hn|Hn]; [|now apply Hrest; left].
    destruct (overloaded_keys self h n) as [attrs|] eqn:HG; [|now apply Hrest; right].
    unfold overloaded_keys in HG. destruct (h !! n) as [o|] eqn:Ho; [|discriminate].
    rewrite (Hstrip n attrs o Hn Ho HG). f_equal. apply strip_same.
    apply Forall_forall. intros k Hk. exact (Hfree n attrs o k Hn Ho HG Hk).
Qed.

End AttributeOverloading.

Lemma ex_attrs_keys : NoDup ex_attrs.*1.
Proof. apply (@bool_decide_unpack _ (NoDup_dec _)). vm_compute. exact I. Qed.

Lemma ex_attr_names : NoDup ["net"; "net.block"; "net.fc"].
Proof. apply (@bool_decide_unpack _ (NoDup_dec _)). vm_compute. exact I. Qed.

Lemma ex_attr_block_lookup : ex_attr_modules !! "net.block" = Some ex_attr_block.
Proof. vm_compute. reflexivity. Qed.

Lemma attribute_register_overloads_witness :
  exists inst h1,
    AttributeCanonizer.register ex_attr_canonizer "net.block" ex_attrs ex_attr_modules
    = (Ok inst, h1)
    /\ AttributeCanonizer.getattr h1 "net.block" "forward" = Ok "canonized"
    /\ AttributeCanonizer.getattr h1 "net.block" "tag" = Ok "1".
Proof.
  destruct (attribute_register_overloads ex_attr_canonizer "net.block" ex_attrs
              ex_attr_modules ex_attr_block ex_attrs_keys ex_attr_block_lookup)
    as (inst & h1 & Hreg & _ & _ & Hkeys & _).
  exists inst, h1. split_and!; [exact Hreg|apply Hkeys..].
  - apply list_elem_of_here.
  - apply list_elem_of_further, list_elem_of_here.
Defined.

Lemma attribute_register_remove_witness :
  exists inst h1 h2,
    AttributeCanonizer.register ex_attr_canonizer "net.block" ex_attrs ex_attr_modules
    = (Ok inst, h1)
    /\ AttributeCanonizer.remove inst h1 = (Ok tt, h2)
    /\ AttributeCanonizer.getattr ex_attr_modules "net.block" "forward" = Ok "patched"
    /\ AttributeCanonizer.getattr h2 "net.block" "forward" = Ok "Block.forward"
    /\ AttributeCanonizer.getattr h2 "net.block" "tag" = Raise (AttributeError "tag")
    /\ h2 <> ex_attr_modules.
Proof.
  destruct (attribute_register_remove ex_attr_canonizer "net.block" ex_attrs
              ex_attr_modules ex_attr_block ex_attrs_keys ex_attr_block_lookup)
    as (inst & h1 & h2 & Hreg & Hrem & Hkeys & _ & _ & Hiff).
  exists inst, h1, h2. split_and!; [exact Hreg|exact Hrem|vm_compute; reflexivity| | |].
  - rewrite Hkeys by apply list_elem_of_here. vm_compute. reflexivity.
  - rewrite Hkeys by apply list_elem_of_further, list_elem_of_here.
    vm_compute. reflexivity.
  - intros E. apply Hiff in E. apply Forall_cons in E as [E _].
    vm_compute in E. discriminate E.
Defined.

Lemma attribute_remove_twice_witness :
  exists inst h1 h2,
    AttributeCanonizer.register ex_attr_canonizer "net.block" ex_attrs ex_attr_modules
    = (Ok inst, h1)
    /\ AttributeCanonizer.remove inst h1 = (Ok tt, h2)
    /\ AttributeCanonizer.remove inst h2 = (Raise (AttributeError "forward"), h2).
Proof.
  exact (attribute_remove_twice ex_attr_canonizer "net.block" ex_attrs
           ex_attr_modules ex_attr_block ex_attrs_keys ex_attr_block_lookup).
Defined.

Lemma ex_attr_modules_present :
  Forall (fun n => is_Some (ex_attr_modules !! n)) ["net"; "net.block"; "net.fc"].
Proof. repeat constructor; vm_compute; eexists; reflexivity. Qed.

Lemma attribute_apply_instances_witness :
  exists h1,
    AttributeCanonizer.apply ex_attr_canonizer ["net"; "net.block"; "net.fc"]
      ex_attr_modules
    = (Ok [AttributeCanonizer.Canonizer
             (AttributeCanonizer.attribute_map ex_attr_canonizer)
             (Some ["forward"; "tag"]) (Some "net.block")], h1)
    /\ h1 !! "net.block" = Some (overload ex_attrs ex_attr_block)
    /\ h1 !! "net.fc" = ex_attr_modules !! "net.fc".
Proof.
  destruct (attribute_apply_instances ex_attr_canonizer ["net"; "net.block"; "net.fc"]
              ex_attr_modules ex_attr_names ex_attr_modules_present)
    as (h1 & Hrun & Hin & Hout).
  exists h1. split_and!.
  - rewrite Hrun. f_equal.
  - apply Hin; [|exact ex_attr_block_lookup|reflexivity].
    apply list_elem_of_further, list_elem_of_here.
  - apply Hout. right. reflexivity.
Defined.

Lemma attribute_apply_undone_witness :
  exists insts h1 h2,
    AttributeCanonizer.apply ex_attr_canonizer ["net"; "net.block"; "net.fc"]
      ex_attr_modules
    = (Ok insts, h1)
    /\ AttributeCanonizer.remove_all insts h1 = (Ok tt, h2)
    /\ h2 !! "net.block" = Some (strip ["forward"; "tag"] ex_attr_block)
    /\ h2 <> ex_attr_modules.
Proof.
  destruct (attribute_apply_undone ex_attr_canonizer ["net"; "net.block"; "net.fc"]
              ex_attr_modules ex_attr_names ex_attr_modules_present)
    as (insts & h1 & h2 & Hrun & Hrem & Hin & _ & Hiff).
  { intros n attrs _ Hk. unfold overloaded_keys in Hk.
    destruct (ex_attr_modules !! n) as [o|]; [|discriminate].
    unfold ex_attr_canonizer, AttributeCanonizer.init in Hk. simpl in Hk.
    destruct (bool_decide _); [|discriminate]. injection Hk as <-.
    exact ex_attrs_keys. }
  exists insts, h1, h2. split_and!; [exact Hrun|exact Hrem| |].
  - apply (Hin "net.block" ex_attrs ex_attr_block); [|exact ex_attr_block_lookup|reflexivity].
    apply list_elem_of_further, list_elem_of_here.
  - intros E.
    pose proof (proj1 Hiff E "net.block" ex_attrs ex_attr_block "forward"
                  ltac:(apply list_elem_of_further, list_elem_of_here)
                  ex_attr_block_lookup eq_refl ltac:(apply list_elem_of_here)) as F.
    vm_compute in F. discriminate F.
Defined.
